(** * errorex: the ErrorEx error chain, its rendering and its identity test

    A shallow embedding of the Go package [errorex]:
    - [src/errorex.go] (module [ErrorexGo] for the parts that differ between
      revisions),
    - the later revision of the same file kept as the first file of
      [src/unnamed/part_004] (module [Part004]),
    - [src/wrap.go] (module [WrapGo]),
    - [Error] and [Is] of the oldest revision, the second file of
      [src/unnamed/part_004] (module [Part004Old]).

    Go values of type [*ErrorEx] are pointers: [Is] compares them by
    identity and [Extra] mutates the pointed-to struct.  The embedding
    therefore keeps an explicit heap of objects; a pointer is an index into
    it and the interface type [error] is either [nil] or a pointer.  The
    nil pointer of type [*ErrorEx], which Go lets a caller use as a
    receiver and store in a non-nil [error], has a cell of its own in the
    heap.  Functions that follow heap links take a [fuel] argument. *)

From Stdlib Require Import ZArith Lia Ascii.
From stdpp Require Import base option list strings pretty numbers.

Open Scope Z_scope.
Open Scope nat_scope.

(** ** Outcomes of a call *)

(** [Panic] is a Go run-time panic (calling a method on a nil interface);
    [OutOfFuel] means the given [fuel] did not suffice (in Go: the call has
    not returned yet). *)
Inductive result (A : Type) : Type :=
| Ok (a : A)
| Panic
| OutOfFuel.
Arguments Ok {A} a.
Arguments Panic {A}.
Arguments OutOfFuel {A}.

#[export] Instance result_ret : MRet result := fun A a => Ok a.
#[export] Instance result_bind : MBind result := fun A B k r =>
  match r with
  | Ok a => k a
  | Panic => Panic
  | OutOfFuel => OutOfFuel
  end.

(** ** Package fmt (Go standard library), the fragment the package uses

    Operands are Go [int]s and [string]s.  [Sprintf] covers the verbs
    [%v], [%s], [%d] and [%%] written without flags, width or precision,
    together with fmt's own degradations: [%!verb(type=value)] for a verb
    that does not fit its operand, [%!verb(MISSING)] for a verb without
    operand, [%!(EXTRA type=value, ...)] for operands left over and
    [%!(NOVERB)] for a lone [%] at the end.  The other verbs that fmt
    defines for these operands ([%x], [%q], [%c], ...) are not modelled.
    fmt never panics, and neither [Sprintf] nor [Sprint] can fail here. *)
Inductive value : Type :=
| VInt (z : Z)
| VStr (s : string).

Definition typeString (v : value) : string :=
  match v with
  | VInt _ => "int"
  | VStr _ => "string"
  end.

Definition fmtValue (v : value) : string :=
  match v with
  | VInt z => pretty z
  | VStr s => s
  end.

Definition badVerb (verb : ascii) (v : value) : string :=
  "%!" +:+ String verb "(" +:+ typeString v +:+ "=" +:+ fmtValue v +:+ ")".

Definition printArg (v : value) (verb : ascii) : string :=
  if Ascii.eqb verb "v" then fmtValue v
  else if Ascii.eqb verb "s" then
    match v with VStr s => s | VInt _ => badVerb verb v end
  else if Ascii.eqb verb "d" then
    match v with VInt z => pretty z | VStr _ => badVerb verb v end
  else badVerb verb v.

Fixpoint extraArgs (first : bool) (args : list value) : string :=
  match args with
  | [] => ""
  | a :: rest =>
    (if first then "" else ", ") +:+ typeString a +:+ "=" +:+ fmtValue a
      +:+ extraArgs false rest
  end.

Definition extraString (args : list value) : string :=
  match args with
  | [] => ""
  | _ :: _ => "%!(EXTRA " +:+ extraArgs true args +:+ ")"
  end.

Fixpoint doPrintf (format : string) (args : list value) : string :=
  match format with
  | EmptyString => extraString args
  | String c rest =>
    if Ascii.eqb c "%" then
      match rest with
      | EmptyString => "%!(NOVERB)" +:+ extraString args
      | String verb rest' =>
        if Ascii.eqb verb "%" then String "%" (doPrintf rest' args)
        else
          match args with
          | [] => "%!" +:+ String verb "(MISSING)" +:+ doPrintf rest' []
          | a :: args' => printArg a verb +:+ doPrintf rest' args'
          end
      end
    else String c (doPrintf rest args)
  end.

Definition Sprintf (format : string) (args : list value) : string :=
  doPrintf format args.

Definition isString (v : value) : bool :=
  match v with VStr _ => true | VInt _ => false end.

(** [fmt.Sprint]: operands in their default format, a space between two
    operands when neither is a string. *)
Fixpoint doPrint (prevString : bool) (argNum : nat) (args : list value) : string :=
  match args with
  | [] => ""
  | arg :: rest =>
    (if (0 <? argNum) && negb (isString arg) && negb prevString then " " else "")
      +:+ fmtValue arg +:+ doPrint (isString arg) (S argNum) rest
  end.

Definition Sprint (args : list value) : string := doPrint false 0 args.

(** ** Data model *)

(** A pointer is the index of an object in the heap. *)
Abbreviation loc := nat (only parsing).

(** The interface type [error]: [None] is [nil]; [Some l] is a non-nil
    [error], whose dynamic value is what the heap holds at [l]. *)
Abbreviation error := (option nat) (only parsing).

(** [type ErrorEx struct], fields in the order of src/errorex.go. *)
Record ErrorEx : Type := mkErrorEx {
  cause : error;
  data : option value;
  err : error;
  txt : string;
  fmt : bool;
  extra : list error
}.

(** What a non-nil [error] can hold: an [*errors.errorString] (from
    [errors.New]), a [*fmt.wrapError] (from [fmt.Errorf] with [%w]), an
    [*ErrorEx] that points to a struct, or the nil pointer of type
    [*ErrorEx].  [nilErrorEx] is that nil pointer: a pointer [l] with
    [nilErrorEx] at [l] is a nil receiver, and [Some l] is then an [error]
    that is not [nil] but holds a nil pointer (Go: [var np *ErrorEx] passed
    where an [error] is expected).  Go has one nil pointer of a type; a
    heap holds [nilErrorEx] in at most one cell, so that comparing
    pointers is comparing indices.  No constructor allocates it. *)
Inductive object : Type :=
| errorString (s : string)
| wrapError (msg : string) (err : error)
| ErrorExV (ee : ErrorEx)
| nilErrorEx.

Abbreviation heap := (list object) (only parsing).

Definition alloc (h : heap) (o : object) : heap * loc := (h ++ [o], length h).

Definition deref (h : heap) (ee : loc) : result ErrorEx :=
  match h !! ee with
  | Some (ErrorExV v) => Ok v
  | _ => Panic
  end.

Definition set_fmt (b : bool) (o : object) : object :=
  match o with
  | ErrorExV v =>
    ErrorExV (mkErrorEx (cause v) (data v) (err v) (txt v) b (extra v))
  | _ => o
  end.

Definition set_data (d : option value) (o : object) : object :=
  match o with
  | ErrorExV v =>
    ErrorExV (mkErrorEx (cause v) d (err v) (txt v) (fmt v) (extra v))
  | _ => o
  end.

Definition set_extra (ex : list error) (v : ErrorEx) : ErrorEx :=
  mkErrorEx (cause v) (data v) (err v) (txt v) (fmt v) ex.

(** ** Package errors (Go standard library) *)

Definition errors_New (h : heap) (text : string) : heap * error :=
  let '(h', l) := alloc h (errorString text) in (h', Some l).

(** [errors.Unwrap].  On the nil [*ErrorEx] Go panics in the method
    [Unwrap]; the code below tests for that pointer before it unwraps and
    never reaches the case, for which [errors_Unwrap] has no meaning (it
    returns [nil]). *)
Definition errors_Unwrap (h : heap) (e : error) : error :=
  match e with
  | None => None
  | Some l =>
    match h !! l with
    | Some (ErrorExV v) => err v
    | Some (wrapError _ e') => e'
    | _ => None
    end
  end.

(** ** Methods whose text is the same in src/errorex.go and in part_004 *)

Definition New (h : heap) (message : string) : heap * loc :=
  alloc h (ErrorExV (mkErrorEx None None None message false [])).

Definition NewFormat (h : heap) (format : string) : heap * loc :=
  let '(h1, e) := New h format in
  (alter (set_fmt true) e h1, e).

(** [errors.Is] walks the [Unwrap] chain of [err]; at each element it
    compares pointers and then asks the element's own [Is] method, which
    only [*ErrorEx] has: on the nil [*ErrorEx] that call panics.  [Is] and
    [is_] (Go: [is]) are the methods of [*ErrorEx]; [is] is called by [Is]
    alone, after [Is] has read [ee.cause]. *)
Fixpoint errors_Is (fuel : nat) (h : heap) (e target : error) {struct fuel}
  : result bool :=
  match fuel with
  | 0 => OutOfFuel
  | S f =>
    match target with
    | None => Ok (bool_decide (e = None))
    | Some t =>
      match e with
      | None => Ok false
      | Some l =>
        if bool_decide (l = t) then Ok true
        else
          match h !! l with
          | Some (ErrorExV v) =>
            b ← Is f h l target;
            if b : bool then Ok true else errors_Is f h (err v) target
          | Some (wrapError _ e') => errors_Is f h e' target
          | Some (errorString _) => Ok false
          | Some nilErrorEx => Panic
          | None => Panic
          end
      end
    end
  end
with Is (fuel : nat) (h : heap) (ee : loc) (target : error) {struct fuel}
  : result bool :=
  match fuel with
  | 0 => OutOfFuel
  | S f => v ← deref h ee; is_ f h ee target (cause v)
  end
with is_ (fuel : nat) (h : heap) (ee : loc) (target cause : error) {struct fuel}
  : result bool :=
  match fuel with
  | 0 => OutOfFuel
  | S f =>
    v ← deref h ee;
    let is0 := bool_decide (Some ee = target) in
    is1 ← (if is0 then Ok is0 else errors_Is f h (err v) target);
    if is1 : bool then Ok is1 else errors_Is f h cause target
  end.

Definition Unwrap (h : heap) (ee : loc) : result error :=
  v ← deref h ee; Ok (err v).

Definition Wrap (h : heap) (ee : loc) (message : string) : heap * loc :=
  alloc h (ErrorExV (mkErrorEx None None (Some ee) message false [])).

Definition WrapFormat (h : heap) (ee : loc) (format : string) : heap * loc :=
  let '(h1, e) := Wrap h ee format in
  (alter (set_fmt true) e h1, e).

Definition WrapCause (h : heap) (ee : loc) (message : string) (e : error)
  : heap * loc :=
  alloc h (ErrorExV (mkErrorEx e None (Some ee) message false [])).

Definition Cause (h : heap) (ee : loc) : result error :=
  v ← deref h ee; Ok (cause v).

Definition WrapData (h : heap) (ee : loc) (message : string) (d : option value)
  : heap * loc :=
  alloc h (ErrorExV (mkErrorEx None d (Some ee) message false [])).

Definition Data (h : heap) (ee : loc) : result (option value) :=
  v ← deref h ee; Ok (data v).

Definition Extras (h : heap) (ee : loc) : result (list error) :=
  v ← deref h ee; Ok (extra v).

(** ** Rendering helpers shared by both revisions

    Where the source calls [fmt.Sprintf] with a constant format and string
    operands (["%s: %s"], ["%s %s;"], ["%s > %s"], ...), the embedding
    writes the concatenation that the call computes. *)

(** [%v] applied to a non-nil [error] operand inside [fmt.Sprintf]: fmt
    calls the operand's [Error] method and recovers a panic raised by it.
    When the operand is a nil pointer it prints ["<nil>"], otherwise a
    description of the panic.  [arg] is the operand and [r] the outcome of
    its [Error] method. *)
Definition panicString : string :=
  "%!v(PANIC=Error method: runtime error: invalid memory address or nil pointer dereference)".

Definition nilAngleString : string := "<nil>".

Definition is_nilErrorEx (h : heap) (e : error) : bool :=
  match e with
  | Some l =>
    match h !! l with
    | Some nilErrorEx => true
    | _ => false
    end
  | None => false
  end.

Definition handleMethods (h : heap) (arg : error) (r : result string)
  : result string :=
  match r with
  | Panic => Ok (if is_nilErrorEx h arg then nilAngleString else panicString)
  | _ => r
  end.

(** The loop [for len(stack) > 0] of [Error] takes the slice apart from its
    end.  [rstack] is what is left of the slice, in reverse order: its head
    is [stack[len(stack)-1]]. *)
Fixpoint format_rest (rstack : list string) (msg : string) : string :=
  match rstack with
  | [] => msg
  | top :: rest =>
    match rest with
    | [] => msg +:+ " " +:+ top
    | _ :: _ => format_rest rest (msg +:+ " " +:+ top +:+ ";")
    end
  end.

(** [for _, ex := range extra { message += Sprintf(sep + "%s", ex.Error()) }];
    [Err] is the dynamic call [ex.Error()]. *)
Fixpoint range_extra (Err : error -> result string) (sep : string)
  (exs : list error) (message : string) : result string :=
  match exs with
  | [] => Ok message
  | ex :: rest =>
    s ← Err ex;
    range_extra Err sep rest (message +:+ sep +:+ s)
  end.

(** ** src/errorex.go *)

Module ErrorexGo.

(** "Format stack." *)
Definition format_stack (stack : list string) (message : string) : string :=
  match reverse stack with
  | [] => message
  | last :: rest =>
    match rest with
    | [] => last +:+ ": " +:+ message
    | _ :: _ => format_rest rest (last +:+ ":") +:+ " > " +:+ message
    end
  end.

(** "Set base message."; [Err] is the dynamic call [e.Error()]. *)
Definition base_message (h : heap) (Err : error -> result string) (v : ErrorEx)
  : result string :=
  let message := txt v in
  let message := if fmt v then "" else message in
  match cause v with
  | None => Ok message
  | Some _ =>
    c ← handleMethods h (cause v) (Err (cause v));
    Ok (message +:+ " < " +:+ c)
  end.

(** [error_Error] is the call [e.Error()] on a value of interface type
    [error]; [Error] is the method of [*ErrorEx]; [wrap_stack] is its loop
    "Build wrap stack", started at [ee.err] with the empty slice. *)
Fixpoint error_Error (fuel : nat) (h : heap) (e : error) {struct fuel}
  : result string :=
  match fuel with
  | 0 => OutOfFuel
  | S f =>
    match e with
    | None => Panic
    | Some l =>
      match h !! l with
      | Some (errorString s) => Ok s
      | Some (wrapError msg _) => Ok msg
      | Some (ErrorExV _) => Error f h l
      | Some nilErrorEx => Panic
      | None => Panic
      end
    end
  end
with Error (fuel : nat) (h : heap) (ee : loc) {struct fuel} : result string :=
  match fuel with
  | 0 => OutOfFuel
  | S f =>
    v ← deref h ee;
    message ← base_message h (error_Error f h) v;
    stack ← wrap_stack f h (err v) [];
    range_extra (error_Error f h) "; " (extra v) (format_stack stack message)
  end
with wrap_stack (fuel : nat) (h : heap) (e : error) (stack : list string)
  {struct fuel} : result (list string) :=
  match fuel with
  | 0 => OutOfFuel
  | S f =>
    match e with
    | None => Ok stack
    | Some l =>
      match h !! l with
      | Some (ErrorExV eex) =>
        match cause eex with
        | Some _ =>
          s ← error_Error f h (cause eex);
          wrap_stack f h (err eex) ((stack ++ [s]) ++ [txt eex])
        | None =>
          if fmt eex then wrap_stack f h (err eex) stack
          else wrap_stack f h (err eex) (stack ++ [txt eex])
        end
      | Some nilErrorEx => Panic
      | _ => Ok stack
      end
    end
  end.

Definition WrapArgs (h : heap) (ee : loc) (args : list value)
  : result (heap * loc) :=
  v ← deref h ee; Ok (Wrap h ee (Sprintf (txt v) args)).

Definition WrapCauseArgs (h : heap) (ee : loc) (e : error) (args : list value)
  : result (heap * loc) :=
  v ← deref h ee;
  Ok (alloc h (ErrorExV (mkErrorEx e None (Some ee) (Sprintf (txt v) args) false []))).

Definition WrapDataArgs (h : heap) (ee : loc) (d : option value)
  (args : list value) : result (heap * loc) :=
  v ← deref h ee;
  Ok (alloc h (ErrorExV (mkErrorEx None d (Some ee) (Sprintf (txt v) args) false []))).

Definition Extra (h : heap) (ee : loc) (e : error) : result heap :=
  v ← deref h ee;
  Ok (<[ee := ErrorExV (set_extra (extra v ++ [e]) v)]> h).

End ErrorexGo.

(** ** The later revision of errorex.go (src/unnamed/part_004, first file) *)

Module Part004.

(** [extrastring], on the struct the receiver points to; [Err] is the
    dynamic call [ex.Error()]. *)
Definition extrastring (Err : error -> result string) (v : ErrorEx)
  : result string :=
  range_extra Err " + " (extra v) "".

(** "Format stack." *)
Definition format_stack (stack : list string) (message : string) : string :=
  match reverse stack with
  | [] => message
  | last :: rest =>
    match rest with
    | [] => if String.eqb message "" then last else last +:+ ": " +:+ message
    | _ :: _ => format_rest rest (last +:+ ":") +:+ " > " +:+ message
    end
  end.

(** [stack[len(stack)-1] += s] *)
Definition append_to_last (stack : list string) (s : string) : list string :=
  alter (fun x => x +:+ s) (length stack - 1) stack.

(** "Set base message."; [Err] is the dynamic call [e.Error()]. *)
Definition base_message (h : heap) (Err : error -> result string) (v : ErrorEx)
  : result string :=
  message ← (if String.eqb (txt v) "" then
               match err v with
               | Some _ => Err (err v)
               | None => Ok ""
               end
             else Ok "");
  let message := if negb (fmt v) then txt v else message in
  match cause v with
  | None => Ok message
  | Some _ =>
    c ← handleMethods h (cause v) (Err (cause v));
    Ok (message +:+ " < " +:+ c)
  end.

Fixpoint error_Error (fuel : nat) (h : heap) (e : error) {struct fuel}
  : result string :=
  match fuel with
  | 0 => OutOfFuel
  | S f =>
    match e with
    | None => Panic
    | Some l =>
      match h !! l with
      | Some (errorString s) => Ok s
      | Some (wrapError msg _) => Ok msg
      | Some (ErrorExV _) => Error f h l
      | Some nilErrorEx => Panic
      | None => Panic
      end
    end
  end
with Error (fuel : nat) (h : heap) (ee : loc) {struct fuel} : result string :=
  match fuel with
  | 0 => OutOfFuel
  | S f =>
    v ← deref h ee;
    message ← base_message h (error_Error f h) v;
    stack ← wrap_stack f h (err v) [];
    x ← extrastring (error_Error f h) v;
    Ok (format_stack stack message +:+ x)
  end
with wrap_stack (fuel : nat) (h : heap) (e : error) (stack : list string)
  {struct fuel} : result (list string) :=
  match fuel with
  | 0 => OutOfFuel
  | S f =>
    match e with
    | None => Ok stack
    | Some l =>
      match h !! l with
      | Some (ErrorExV eex) =>
        if fmt eex || (String.length (txt eex) =? 0)
        then wrap_stack f h (err eex) stack
        else
          x ← extrastring (error_Error f h) eex;
          let stack := stack ++ [txt eex +:+ x] in
          match cause eex with
          | Some _ =>
            c ← error_Error f h (cause eex);
            wrap_stack f h (err eex) (append_to_last stack (" < " +:+ c))
          | None => wrap_stack f h (err eex) stack
          end
      | Some nilErrorEx => Panic
      | _ => Ok stack
      end
    end
  end.

Definition autoformat (v : ErrorEx) (args : list value) : string :=
  if fmt v then Sprintf (txt v) args else Sprint args.

Definition WrapArgs (h : heap) (ee : loc) (args : list value)
  : result (heap * loc) :=
  v ← deref h ee; Ok (Wrap h ee (autoformat v args)).

Definition WrapCauseArgs (h : heap) (ee : loc) (e : error) (args : list value)
  : result (heap * loc) :=
  v ← deref h ee;
  Ok (alloc h (ErrorExV (mkErrorEx e None (Some ee) (autoformat v args) false []))).

Definition WrapDataFormat (h : heap) (ee : loc) (format : string)
  (d : option value) : heap * loc :=
  let '(h1, e) := WrapFormat h ee format in
  (alter (set_data d) e h1, e).

Definition WrapDataArgs (h : heap) (ee : loc) (d : option value)
  (args : list value) : result (heap * loc) :=
  v ← deref h ee;
  Ok (alloc h (ErrorExV (mkErrorEx None d (Some ee) (autoformat v args) false []))).

(** The loop of [AnyData]; [d] is the result variable [data]. *)
Fixpoint AnyData_loop (fuel : nat) (h : heap) (e : error) (d : option value)
  : result (option value) :=
  match fuel with
  | 0 => OutOfFuel
  | S f =>
    match e with
    | None => Ok d
    | Some l =>
      match h !! l with
      | Some (ErrorExV eex) =>
        match data eex with
        | Some x => Ok (Some x)
        | None => AnyData_loop f h (errors_Unwrap h e) None
        end
      | Some nilErrorEx => Panic
      | _ => AnyData_loop f h (errors_Unwrap h e) d
      end
    end
  end.

Definition AnyData (fuel : nat) (h : heap) (ee : loc) : result (option value) :=
  AnyData_loop fuel h (Some ee) None.

Definition Extra (h : heap) (ee : loc) (e : error) : result (heap * loc) :=
  v ← deref h ee;
  Ok (<[ee := ErrorExV (set_extra (extra v ++ [e]) v)]> h, ee).

End Part004.

(** ** src/wrap.go *)

Module WrapGo.
Section wrap.

(** The dynamic call [e.Error()]; wrap.go works with any implementation. *)
Variable error_Error : nat -> heap -> error -> result string.

(** [fmt.Errorf] with a [%w] operand returns a [*fmt.wrapError] holding the
    formatted message and the operand. *)
Definition Errorf_w (h : heap) (msg : string) (e : error) : heap * error :=
  let '(h', l) := alloc h (wrapError msg e) in (h', Some l).

Definition Wrap (fuel : nat) (h : heap) (err : error) (message : string)
  : result (heap * error) :=
  match err with
  | None => Ok (h, None)
  | Some _ =>
    if String.eqb message "" then Ok (h, err)
    else
      e ← handleMethods h err (error_Error fuel h err);
      Ok (Errorf_w h (e +:+ ": " +:+ message) err)
  end.

Definition WrapCause (fuel : nat) (h : heap) (err cause : error)
  (message : string) : result (heap * error) :=
  match err with
  | None => Ok (h, None)
  | Some _ =>
    match cause with
    | None =>
      if String.eqb message "" then Ok (h, err)
      else Wrap fuel h err message
    | Some _ =>
      if String.eqb message "" then
        e ← handleMethods h err (error_Error fuel h err);
        c ← handleMethods h cause (error_Error fuel h cause);
        Ok (Errorf_w h (e +:+ ": " +:+ c) err)
      else
        e ← handleMethods h err (error_Error fuel h err);
        c ← handleMethods h cause (error_Error fuel h cause);
        Ok (Errorf_w h (e +:+ ": " +:+ message +:+ ": " +:+ c) err)
    end
  end.

End wrap.
End WrapGo.

(** ** Specification-level notions *)

(** The links of an object that [errors.Is] follows: the wrapped error and
    the cause of an [*ErrorEx], the operand of a [*fmt.wrapError]. *)
Definition links (o : object) : list error :=
  match o with
  | errorString _ => []
  | wrapError _ e => [e]
  | ErrorExV v => [err v; cause v]
  | nilErrorEx => []
  end.

(** A link from the object at [l] is either nil or points to an allocated
    object of smaller rank. *)
Definition link_ok (rk : loc -> nat) (h : heap) (l : loc) (e : error) : Prop :=
  match e with
  | None => True
  | Some l' => l' < length h /\ rk l' < rk l
  end.

(** The heap holds objects only, no nil pointer, and the links of every
    object are in order. *)
Definition links_ok (rk : loc -> nat) (h : heap) : Prop :=
  forall l o, h !! l = Some o ->
    o <> nilErrorEx /\ Forall (link_ok rk h l) (links o).

Definition allocated (h : heap) (e : error) : Prop :=
  match e with
  | None => True
  | Some l => l < length h
  end.

Definition rank_of (rk : loc -> nat) (e : error) : nat :=
  match e with
  | None => 0
  | Some l => S (rk l)
  end.

(** Every extra error is a non-nil pointer to an allocated object of
    smaller rank. *)
Definition extras_ok (rk : loc -> nat) (h : heap) : Prop :=
  forall l v, h !! l = Some (ErrorExV v) ->
    Forall (fun e => e <> None /\ link_ok rk h l e) (extra v).

(** The heaps that the constructors build: every wrapped error and every
    cause was allocated before the object that refers to it, and no nil
    [*ErrorEx] is in use. *)
Definition heap_ok (h : heap) : Prop := links_ok id h.

(** [Matches h e t]: [t] is [e] itself, or is found from [e] through
    wrapped errors and causes.  The extra errors play no part. *)
Inductive Matches (h : heap) : error -> error -> Prop :=
| Matches_same e : Matches h e e
| Matches_err l v t :
    h !! l = Some (ErrorExV v) -> Matches h (err v) t -> Matches h (Some l) t
| Matches_cause l v t :
    h !! l = Some (ErrorExV v) -> Matches h (cause v) t -> Matches h (Some l) t
| Matches_unwrap l msg e t :
    h !! l = Some (wrapError msg e) -> Matches h e t -> Matches h (Some l) t.

(** [Ancestor h a e]: [a] is [e] or is reached from [e] by [Unwrap] alone. *)
Inductive Ancestor (h : heap) (a : loc) : error -> Prop :=
| Ancestor_self : Ancestor h a (Some a)
| Ancestor_step l :
    Ancestor h a (errors_Unwrap h (Some l)) -> Ancestor h a (Some l).

(** Two objects that differ at most in the [extra] field. *)
Definition same_links (o o' : object) : Prop :=
  match o, o' with
  | ErrorExV v, ErrorExV v' =>
    cause v = cause v' /\ data v = data v' /\ err v = err v' /\
    txt v = txt v' /\ fmt v = fmt v'
  | _, _ => o = o'
  end.

(** A chain made by [New] and [Wrap] alone, as the list of its texts from
    the node at [l] back to the root. *)
Inductive PlainChain (h : heap) : loc -> list string -> Prop :=
| PlainChain_root l t d :
    h !! l = Some (ErrorExV (mkErrorEx None d None t false [])) ->
    PlainChain h l [t]
| PlainChain_wrap l p t d ts :
    h !! l = Some (ErrorExV (mkErrorEx None d (Some p) t false [])) ->
    PlainChain h p ts ->
    PlainChain h l (t :: ts).

(** *** The rendering rule in words *)

Fixpoint join (sep : string) (l : list string) : string :=
  match l with
  | [] => ""
  | x :: rest =>
    match rest with
    | [] => x
    | _ :: _ => x +:+ sep +:+ join sep rest
    end
  end.

(** The root text followed by [':'], the middle ancestors oldest first and
    joined with [';'], and the head's own text set off with [' > ']. *)
Definition chain_text (root : string) (middle : list string) (head : string)
  : string :=
  match middle with
  | [] => root +:+ ": " +:+ head
  | _ :: _ => root +:+ ": " +:+ join "; " middle +:+ " > " +:+ head
  end.

(** *** Results at growing fuel *)

(** [le_res r r']: [r'] is [r], unless [r] ran out of fuel. *)
Definition le_res {A : Type} (r r' : result A) : Prop :=
  r = OutOfFuel \/ r' = r.

(** *** The wrap stack of the later revision, in the words of the spec *)

(** The call [e.Error()] returns [s]. *)
Definition renders (h : heap) (e : error) (s : string) : Prop :=
  exists fuel, Part004.error_Error fuel h e = Ok s.

(** The extra errors of [eex] render as [x]. *)
Definition extras_render (h : heap) (eex : ErrorEx) (x : string) : Prop :=
  exists fuel, Part004.extrastring (Part004.error_Error fuel h) eex = Ok x.

(** An ancestor is left out when it is a format placeholder or when its
    text is empty. *)
Definition skipped (eex : ErrorEx) : Prop := fmt eex = true \/ txt eex = "".

(** The one entry that an ancestor contributes: its stacked text (its own
    text and its extra errors) and, when it has a cause, [" < "] and the
    rendered cause appended to that text. *)
Inductive stack_entry (h : heap) (eex : ErrorEx) : string -> Prop :=
| stack_entry_plain x :
    cause eex = None -> extras_render h eex x ->
    stack_entry h eex (txt eex +:+ x)
| stack_entry_cause x c :
    cause eex <> None -> extras_render h eex x ->
    renders h (cause eex) c ->
    stack_entry h eex ((txt eex +:+ x) +:+ " < " +:+ c).

(** The ancestors that the walk from the wrapped error [e] keeps, nearest
    first; the walk ends at the first error that is not an [*ErrorEx] (the
    nil [*ErrorEx] is one, and the walk panics there). *)
Inductive kept (h : heap) : error -> list ErrorEx -> Prop :=
| kept_end e :
    (forall l eex, e = Some l -> h !! l <> Some (ErrorExV eex)) ->
    (forall l, e = Some l -> h !! l <> Some nilErrorEx) ->
    kept h e []
| kept_skip l eex ks :
    h !! l = Some (ErrorExV eex) -> skipped eex ->
    kept h (err eex) ks ->
    kept h (Some l) ks
| kept_push l eex ks :
    h !! l = Some (ErrorExV eex) -> ~ skipped eex ->
    kept h (err eex) ks ->
    kept h (Some l) (eex :: ks).

(** ** Example heaps *)

(** [New("p3").Wrap("p2").Wrap("p1").Wrap("m")] *)
Definition heap_p3 : heap :=
  [ ErrorExV (mkErrorEx None None None "p3" false []);
    ErrorExV (mkErrorEx None None (Some 0) "p2" false []);
    ErrorExV (mkErrorEx None None (Some 1) "p1" false []);
    ErrorExV (mkErrorEx None None (Some 2) "m" false []) ].

(** [New("C").Wrap("D")] *)
Definition heap_C4 : heap :=
  [ ErrorExV (mkErrorEx None None None "C" false []);
    ErrorExV (mkErrorEx None None (Some 0) "D" false []) ].

(** [ErrTest = errors.New("test")] and [ErrCause = errors.New("cause")] *)
Definition heap_wrap : heap := [errorString "test"; errorString "cause"].

(** [base := New("base")], [c := New("c")], [p := base.WrapCause("p", c)],
    [n := p.Wrap("n")] *)
Definition heap_C9 : heap :=
  [ ErrorExV (mkErrorEx None None None "base" false []);
    ErrorExV (mkErrorEx None None None "c" false []);
    ErrorExV (mkErrorEx (Some 1) None (Some 0) "p" false []);
    ErrorExV (mkErrorEx None None (Some 2) "n" false []) ].

(** [base := New("base").WrapCause("base error", New("basecause"))], then
    [base.WrapFormat("%s").Wrap("").Wrap("head")] *)
Definition heap_C3 : heap :=
  [ ErrorExV (mkErrorEx None None None "base" false []);
    ErrorExV (mkErrorEx None None None "basecause" false []);
    ErrorExV (mkErrorEx (Some 1) None (Some 0) "base error" false []);
    ErrorExV (mkErrorEx None None (Some 2) "%s" true []);
    ErrorExV (mkErrorEx None None (Some 3) "" false []);
    ErrorExV (mkErrorEx None None (Some 4) "head" false []) ].

(** [err := New("base error")], [err.Extra(New("Extra 1"))],
    [err.Extra(New("Extra 2"))], and a rank under which the extra errors
    are smaller than [err] *)
Definition heap_C8 : heap :=
  [ ErrorExV (mkErrorEx None None None "base error" false [Some 1; Some 2]);
    ErrorExV (mkErrorEx None None None "Extra 1" false []);
    ErrorExV (mkErrorEx None None None "Extra 2" false []) ].

Definition rank_C8 (l : loc) : nat :=
  match l with
  | 0 => 1
  | S _ => 0
  end.

(** [a := New("a")], [a.Extra(nil)] *)
Definition heap_nil_extra : heap :=
  [ ErrorExV (mkErrorEx None None None "a" false [None]) ].

(** [a := New("a")], [a.Extra(a)] *)
Definition heap_self_extra : heap :=
  [ ErrorExV (mkErrorEx None None None "a" false [Some 0]) ].

(** ** Further specification-level notions *)

(** A nil error, or a pointer in the set [S]. *)
Definition in_set (S : loc -> Prop) (e : error) : Prop :=
  match e with
  | None => True
  | Some l => S l
  end.

(** The wrapped errors, causes and extra errors of the objects in [S] are
    themselves in [S]. *)
Definition closed_in (S : loc -> Prop) (h : heap) : Prop :=
  forall l o, S l -> h !! l = Some o ->
    Forall (in_set S) (links o) /\
    (forall v, o = ErrorExV v -> Forall (in_set S) (extra v)).

(** [h'] has the objects of [h] at the pointers in [S]. *)
Definition agree_on (S : loc -> Prop) (h h' : heap) : Prop :=
  forall l, S l -> h' !! l = h !! l.

(** Every wrapped error, cause and extra error in the heap is nil or
    allocated. *)
Definition closed (h : heap) : Prop := closed_in (fun l => l < length h) h.

(** [h'] is [h] with one more object: the objects of [h] are unchanged and
    the heap is still one that the constructors build. *)
Definition kept_by (h h' : heap) : Prop :=
  heap_ok h' /\ closed h' /\ length h' = S (length h) /\
  agree_on (fun l => l < length h) h h'.

(** *** [fmt.Sprint] in words *)

(** The arguments in their default format one after the other, with a
    space between two neighbours when neither of them is a string. *)
Fixpoint spaced (args : list value) : string :=
  match args with
  | [] => ""
  | a :: rest =>
    match rest with
    | [] => fmtValue a
    | b :: _ =>
      fmtValue a +:+ (if isString a || isString b then "" else " ")
        +:+ spaced rest
    end
  end.

(** *** A nil pointer in use *)

(** [var np *ErrorEx], [b := New("b")], [x := b.WrapCause("m", np)] and
    [d := x.Wrap("d")]: the cause of [x] is an [error] that is not nil and
    holds the nil pointer. *)
Definition heap_np : heap :=
  [ nilErrorEx;
    ErrorExV (mkErrorEx None None None "b" false []);
    ErrorExV (mkErrorEx (Some 0) None (Some 1) "m" false []);
    ErrorExV (mkErrorEx None None (Some 2) "d" false []) ].

(** The errors of the example in the README (src/unnamed/part_000), up to
    the call of [WrapCauseArgs] in [App.Bad]:
    [ErrApp], [ErrAppSub], [ErrAppSubVar], [ErrPkg], [ErrPkgSub],
    [ErrPkgSubVar], [ErrMiddle], [ErrMiddleSub], [ErrMiddleSubVar], the
    result of [Middle.Bad] and the result of [Pkg.Bad]. *)
Definition heap_readme : heap :=
  [ ErrorExV (mkErrorEx None None None "command" false []);
    ErrorExV (mkErrorEx None None (Some 0) "method" false []);
    ErrorExV (mkErrorEx None None (Some 1) "detail '%s'" true []);
    ErrorExV (mkErrorEx None None None "package" false []);
    ErrorExV (mkErrorEx None None (Some 3) "method" false []);
    ErrorExV (mkErrorEx None None (Some 4) "detail: '%s'" true []);
    ErrorExV (mkErrorEx None None None "middleware" false []);
    ErrorExV (mkErrorEx None None (Some 6) "method" false []);
    ErrorExV (mkErrorEx None None (Some 7) "detail: '%s'" true []);
    ErrorExV (mkErrorEx None None (Some 8) "detail: '1337'" false []);
    ErrorExV (mkErrorEx (Some 9) None (Some 5) "detail: '69'" false []) ].

(** *** The wrap stack of src/errorex.go *)

(** The call [e.Error()] of src/errorex.go returns [s]. *)
Definition ErrorexGo_renders (h : heap) (e : error) (s : string) : Prop :=
  exists fuel, ErrorexGo.error_Error fuel h e = Ok s.

(** What an ancestor contributes to the stack: the rendered cause and then
    its text when it has a cause, nothing when it is a format placeholder
    without a cause, and its text otherwise. *)
Inductive ErrorexGo_entries (h : heap) (eex : ErrorEx) : list string -> Prop :=
| entries_cause c :
    cause eex <> None -> ErrorexGo_renders h (cause eex) c ->
    ErrorexGo_entries h eex [c; txt eex]
| entries_placeholder :
    cause eex = None -> fmt eex = true -> ErrorexGo_entries h eex []
| entries_text :
    cause eex = None -> fmt eex = false -> ErrorexGo_entries h eex [txt eex].

(** The [*ErrorEx] ancestors met on the walk from the wrapped error [e],
    nearest first; the walk ends at the first error that is not an
    [*ErrorEx]. *)
Inductive ancestors (h : heap) : error -> list ErrorEx -> Prop :=
| ancestors_end e :
    (forall l eex, e = Some l -> h !! l <> Some (ErrorExV eex)) ->
    (forall l, e = Some l -> h !! l <> Some nilErrorEx) ->
    ancestors h e []
| ancestors_cons l eex ks :
    h !! l = Some (ErrorExV eex) -> ancestors h (err eex) ks ->
    ancestors h (Some l) (eex :: ks).

(** ** The oldest revision (src/unnamed/part_004, second file)

    [is] walks the wrapped [*ErrorEx] chain comparing pointers and hands
    the cause of the error it started from to [errors.Is] at the end of
    the chain.  [Error] has no extra errors to append, and it treats an
    error that carries data as it treats a format placeholder. *)
Module Part004Old.

Fixpoint errors_Is (fuel : nat) (h : heap) (e target : error) {struct fuel}
  : result bool :=
  match fuel with
  | 0 => OutOfFuel
  | S f =>
    match target with
    | None => Ok (bool_decide (e = None))
    | Some t =>
      match e with
      | None => Ok false
      | Some l =>
        if bool_decide (l = t) then Ok true
        else
          match h !! l with
          | Some (ErrorExV v) =>
            b ← Is f h l target;
            if b : bool then Ok true else errors_Is f h (err v) target
          | Some (wrapError _ e') => errors_Is f h e' target
          | Some (errorString _) => Ok false
          | Some nilErrorEx => Panic
          | None => Panic
          end
      end
    end
  end
with Is (fuel : nat) (h : heap) (ee : loc) (target : error) {struct fuel}
  : result bool :=
  match fuel with
  | 0 => OutOfFuel
  | S f => v ← deref h ee; is_ f h ee target (cause v)
  end
with is_ (fuel : nat) (h : heap) (ee : loc) (target cause : error) {struct fuel}
  : result bool :=
  match fuel with
  | 0 => OutOfFuel
  | S f =>
    v ← deref h ee;
    if bool_decide (Some ee = target) then Ok true
    else
      match err v with
      | Some p =>
        match h !! p with
        | Some (ErrorExV _) => is_ f h p target cause
        | Some nilErrorEx =>
          if bool_decide (Some p = target) then Ok true else Panic
        | Some _ => errors_Is f h cause target
        | None => Panic
        end
      | None => errors_Is f h cause target
      end
  end.

(** [ee.data != nil] *)
Definition has_data (v : ErrorEx) : bool :=
  match data v with
  | Some _ => true
  | None => false
  end.

(** The first lines of [Error], up to the loop; [Err] is the dynamic call
    [e.Error()]. *)
Definition base_message (h : heap) (Err : error -> result string)
  (v : ErrorEx) : result string :=
  let message := txt v in
  let message := if fmt v || has_data v then "" else message in
  match cause v with
  | None => Ok message
  | Some _ =>
    c ← handleMethods h (cause v) (Err (cause v));
    Ok (message +:+ " < " +:+ c)
  end.

(** The lines of [Error] after the loop. *)
Definition format_stack (stack : list string) (message : string) : string :=
  match reverse stack with
  | [] => message
  | last :: rest =>
    match rest with
    | [] => last +:+ ": " +:+ message
    | _ :: _ => format_rest rest (last +:+ ":") +:+ " > " +:+ message
    end
  end.

Fixpoint error_Error (fuel : nat) (h : heap) (e : error) {struct fuel}
  : result string :=
  match fuel with
  | 0 => OutOfFuel
  | S f =>
    match e with
    | None => Panic
    | Some l =>
      match h !! l with
      | Some (errorString s) => Ok s
      | Some (wrapError msg _) => Ok msg
      | Some (ErrorExV _) => Error f h l
      | Some nilErrorEx => Panic
      | None => Panic
      end
    end
  end
with Error (fuel : nat) (h : heap) (ee : loc) {struct fuel} : result string :=
  match fuel with
  | 0 => OutOfFuel
  | S f =>
    v ← deref h ee;
    message ← base_message h (error_Error f h) v;
    stack ← wrap_stack f h (err v) [];
    Ok (format_stack stack message)
  end
with wrap_stack (fuel : nat) (h : heap) (e : error) (stack : list string)
  {struct fuel} : result (list string) :=
  match fuel with
  | 0 => OutOfFuel
  | S f =>
    match e with
    | None => Ok stack
    | Some l =>
      match h !! l with
      | Some (ErrorExV eex) =>
        match cause eex with
        | Some _ =>
          s ← error_Error f h (cause eex);
          wrap_stack f h (err eex) ((stack ++ [s]) ++ [txt eex])
        | None =>
          if fmt eex || has_data eex then wrap_stack f h (err eex) stack
          else wrap_stack f h (err eex) (stack ++ [txt eex])
        end
      | Some nilErrorEx => Panic
      | _ => Ok stack
      end
    end
  end.

End Part004Old.

(** * Properties *)

(** ** The heap *)

Lemma lookup_snoc_new (h : heap) (o : object) : (h ++ [o]) !! length h = Some o.
Proof. rewrite lookup_app_r by lia. by rewrite Nat.sub_diag. Qed.

Lemma lookup_alloc_new (h : heap) (o : object) :
  (alloc h o).1 !! (alloc h o).2 = Some o.
Proof. unfold alloc. simpl. apply lookup_snoc_new. Qed.

Lemma lookup_snoc_Some (h : heap) (o x : object) (l : loc) :
  h !! l = Some x -> (h ++ [o]) !! l = Some x.
Proof. intros Hl. rewrite lookup_app_l; [done|]. by eapply lookup_lt_Some. Qed.

Lemma alter_snoc {A : Type} (f : A -> A) (l : list A) (x : A) :
  alter f (length l) (l ++ [x]) = l ++ [f x].
Proof. induction l as [|y l IH]; simpl; [done|]. f_equal. exact IH. Qed.

Lemma NewFormat_alloc (h : heap) (format : string) :
  NewFormat h format = alloc h (ErrorExV (mkErrorEx None None None format true [])).
Proof. unfold NewFormat, New, alloc. by rewrite alter_snoc. Qed.

Lemma WrapFormat_alloc (h : heap) (ee : loc) (format : string) :
  WrapFormat h ee format =
  alloc h (ErrorExV (mkErrorEx None None (Some ee) format true [])).
Proof. unfold WrapFormat, Wrap, alloc. by rewrite alter_snoc. Qed.

Lemma deref_Some (h : heap) (l : loc) (v : ErrorEx) :
  h !! l = Some (ErrorExV v) -> deref h l = Ok v.
Proof. unfold deref. by intros ->. Qed.

Lemma deref_Ok (h : heap) (l : loc) (v : ErrorEx) :
  deref h l = Ok v -> h !! l = Some (ErrorExV v).
Proof.
  unfold deref. destruct (h !! l) as [[| |w|]|]; try discriminate.
  by intros [= ->].
Qed.

(** The example heaps are what the constructors build. *)
Lemma example_heaps_built :
  (let '(h, a) := New [] "p3" in
   let '(h, b) := Wrap h a "p2" in
   let '(h, c) := Wrap h b "p1" in
   Wrap h c "m") = (heap_p3, 3) /\
  (let '(h, a) := New [] "C" in Wrap h a "D") = (heap_C4, 1) /\
  (let '(h, a) := errors_New [] "test" in errors_New h "cause")
    = (heap_wrap, Some 1) /\
  (let '(h, base) := New [] "base" in
   let '(h, c) := New h "c" in
   let '(h, p) := WrapCause h base "p" (Some c) in
   Wrap h p "n") = (heap_C9, 3) /\
  (let '(h, b) := New [] "base" in
   let '(h, c) := New h "basecause" in
   let '(h, base) := WrapCause h b "base error" (Some c) in
   let '(h, f) := WrapFormat h base "%s" in
   let '(h, e) := Wrap h f "" in
   Wrap h e "head") = (heap_C3, 5) /\
  (let '(h, e) := New [] "base error" in
   let '(h, x1) := New h "Extra 1" in
   h ← ErrorexGo.Extra h e (Some x1);
   let '(h, x2) := New h "Extra 2" in
   ErrorexGo.Extra h e (Some x2)) = Ok heap_C8 /\
  (let '(h, a) := New [] "a" in ErrorexGo.Extra h a None) = Ok heap_nil_extra /\
  (let '(h, a) := New [] "a" in ErrorexGo.Extra h a (Some a))
    = Ok heap_self_extra.
Proof. repeat split. Qed.

(** ** Strings *)

Lemma append_nil_r (s : string) : s +:+ "" = s.
Proof.
  induction s as [|c s IH]; [done|].
  change (String c (s +:+ "") = String c s). by rewrite IH.
Qed.

Lemma append_assoc (a b c : string) : (a +:+ b) +:+ c = a +:+ (b +:+ c).
Proof.
  induction a as [|x a IH]; [done|].
  change (String x ((a +:+ b) +:+ c) = String x (a +:+ (b +:+ c))).
  by rewrite IH.
Qed.

Lemma length_eqb_0 (s : string) : s <> "" -> (String.length s =? 0) = false.
Proof. destruct s; [done|]. by intros _. Qed.

Lemma eqb_nonempty (s : string) : s <> "" -> String.eqb s "" = false.
Proof. intros H. by apply String.eqb_neq. Qed.

(** ** One step of each function that takes fuel *)

Lemma errors_Is_S (f : nat) (h : heap) (e target : error) :
  errors_Is (S f) h e target =
  match target with
  | None => Ok (bool_decide (e = None))
  | Some t =>
    match e with
    | None => Ok false
    | Some l =>
      if bool_decide (l = t) then Ok true
      else
        match h !! l with
        | Some (ErrorExV v) =>
          b ← Is f h l target;
          if b : bool then Ok true else errors_Is f h (err v) target
        | Some (wrapError _ e') => errors_Is f h e' target
        | Some (errorString _) => Ok false
        | Some nilErrorEx => Panic
        | None => Panic
        end
    end
  end.
Proof. reflexivity. Qed.

Lemma Is_S (f : nat) (h : heap) (ee : loc) (target : error) :
  Is (S f) h ee target = (v ← deref h ee; is_ f h ee target (cause v)).
Proof. reflexivity. Qed.

Lemma is_S (f : nat) (h : heap) (ee : loc) (target c : error) :
  is_ (S f) h ee target c =
  (v ← deref h ee;
   let is0 := bool_decide (Some ee = target) in
   is1 ← (if is0 then Ok is0 else errors_Is f h (err v) target);
   if is1 : bool then Ok is1 else errors_Is f h c target).
Proof. reflexivity. Qed.

Lemma ErrorexGo_error_Error_S (f : nat) (h : heap) (e : error) :
  ErrorexGo.error_Error (S f) h e =
  match e with
  | None => Panic
  | Some l =>
    match h !! l with
    | Some (errorString s) => Ok s
    | Some (wrapError msg _) => Ok msg
    | Some (ErrorExV _) => ErrorexGo.Error f h l
    | Some nilErrorEx => Panic
    | None => Panic
    end
  end.
Proof. reflexivity. Qed.

Lemma ErrorexGo_Error_S (f : nat) (h : heap) (ee : loc) :
  ErrorexGo.Error (S f) h ee =
  (v ← deref h ee;
   message ← ErrorexGo.base_message h (ErrorexGo.error_Error f h) v;
   stack ← ErrorexGo.wrap_stack f h (err v) [];
   range_extra (ErrorexGo.error_Error f h) "; " (extra v)
     (ErrorexGo.format_stack stack message)).
Proof. reflexivity. Qed.

Lemma ErrorexGo_wrap_stack_S (f : nat) (h : heap) (e : error)
  (stack : list string) :
  ErrorexGo.wrap_stack (S f) h e stack =
  match e with
  | None => Ok stack
  | Some l =>
    match h !! l with
    | Some (ErrorExV eex) =>
      match cause eex with
      | Some _ =>
        s ← ErrorexGo.error_Error f h (cause eex);
        ErrorexGo.wrap_stack f h (err eex) ((stack ++ [s]) ++ [txt eex])
      | None =>
        if fmt eex then ErrorexGo.wrap_stack f h (err eex) stack
        else ErrorexGo.wrap_stack f h (err eex) (stack ++ [txt eex])
      end
    | Some nilErrorEx => Panic
    | _ => Ok stack
    end
  end.
Proof. reflexivity. Qed.

Lemma Part004_error_Error_S (f : nat) (h : heap) (e : error) :
  Part004.error_Error (S f) h e =
  match e with
  | None => Panic
  | Some l =>
    match h !! l with
    | Some (errorString s) => Ok s
    | Some (wrapError msg _) => Ok msg
    | Some (ErrorExV _) => Part004.Error f h l
    | Some nilErrorEx => Panic
    | None => Panic
    end
  end.
Proof. reflexivity. Qed.

Lemma Part004_Error_S (f : nat) (h : heap) (ee : loc) :
  Part004.Error (S f) h ee =
  (v ← deref h ee;
   message ← Part004.base_message h (Part004.error_Error f h) v;
   stack ← Part004.wrap_stack f h (err v) [];
   x ← Part004.extrastring (Part004.error_Error f h) v;
   Ok (Part004.format_stack stack message +:+ x)).
Proof. reflexivity. Qed.

Lemma Part004_wrap_stack_S (f : nat) (h : heap) (e : error)
  (stack : list string) :
  Part004.wrap_stack (S f) h e stack =
  match e with
  | None => Ok stack
  | Some l =>
    match h !! l with
    | Some (ErrorExV eex) =>
      if fmt eex || (String.length (txt eex) =? 0)
      then Part004.wrap_stack f h (err eex) stack
      else
        x ← Part004.extrastring (Part004.error_Error f h) eex;
        let stack := stack ++ [txt eex +:+ x] in
        match cause eex with
        | Some _ =>
          c ← Part004.error_Error f h (cause eex);
          Part004.wrap_stack f h (err eex)
            (Part004.append_to_last stack (" < " +:+ c))
        | None => Part004.wrap_stack f h (err eex) stack
        end
    | Some nilErrorEx => Panic
    | _ => Ok stack
    end
  end.
Proof. reflexivity. Qed.

#[local] Arguments errors_Is : simpl never.
#[local] Arguments Is : simpl never.
#[local] Arguments is_ : simpl never.
#[local] Arguments ErrorexGo.error_Error : simpl never.
#[local] Arguments ErrorexGo.Error : simpl never.
#[local] Arguments ErrorexGo.wrap_stack : simpl never.
#[local] Arguments Part004.error_Error : simpl never.
#[local] Arguments Part004.Error : simpl never.
#[local] Arguments Part004.wrap_stack : simpl never.

(** ** Identity: [errors.Is], [Is] and [is] *)

(** Whatever [Is] accepts is matched through wrapped errors and causes. *)
Lemma Is_sound_aux (h : heap) (fuel : nat) :
  (forall e t, errors_Is fuel h e t = Ok true -> Matches h e t) /\
  (forall l t, Is fuel h l t = Ok true -> Matches h (Some l) t) /\
  (forall l t c, is_ fuel h l t c = Ok true ->
     Matches h (Some l) t \/ Matches h c t).
Proof.
  induction fuel as [|f (IHe & IHI & IHi)]; [by repeat split|].
  split; [|split].
  - intros e t. rewrite errors_Is_S.
    destruct t as [t|].
    + destruct e as [l|]; [|done].
      case_bool_decide as Hlt; [subst; intros _; constructor|].
      destruct (h !! l) as [[s|msg e'|v|]|] eqn:Hl; try done.
      * intros H. eapply Matches_unwrap; eauto.
      * destruct (Is f h l (Some t)) as [[|]| |] eqn:HI; simpl; try done.
        -- intros _. by apply IHI.
        -- intros H. eapply Matches_err; eauto.
    + intros [= H]. apply bool_decide_eq_true in H. subst. constructor.
  - intros l t. rewrite Is_S. unfold deref.
    destruct (h !! l) as [[s|msg e'|v|]|] eqn:Hl; simpl; try done.
    intros H. destruct (IHi _ _ _ H) as [|Hc]; [done|].
    eapply Matches_cause; eauto.
  - intros l t c. rewrite is_S. unfold deref.
    destruct (h !! l) as [[s|msg e'|v|]|] eqn:Hl; simpl; try done.
    case_bool_decide as Hlt; simpl.
    + intros _. left. subst. constructor.
    + destruct (errors_Is f h (err v) t) as [[|]| |] eqn:He; simpl; try done.
      * intros _. left. eapply Matches_err; eauto.
      * intros H. right. by apply IHe.
Qed.

Lemma Is_sound (h : heap) (fuel : nat) (l : loc) (t : error) :
  Is fuel h l t = Ok true -> Matches h (Some l) t.
Proof. apply Is_sound_aux. Qed.

Lemma link_ok_rank (rk : loc -> nat) (h : heap) (l : loc) (e : error) :
  link_ok rk h l e -> allocated h e /\ rank_of rk e <= rk l.
Proof. destruct e as [l'|]; simpl; [lia|]. intros _. split; [done|lia]. Qed.

Lemma links_ok_links (rk : loc -> nat) (h : heap) (l : loc) (o : object) :
  links_ok rk h -> h !! l = Some o -> Forall (link_ok rk h l) (links o).
Proof. intros Hok Hl. apply (Hok _ _ Hl). Qed.

Lemma links_ok_not_nil (rk : loc -> nat) (h : heap) (l : loc) :
  links_ok rk h -> h !! l <> Some nilErrorEx.
Proof. intros Hok Hl. by destruct (Hok _ _ Hl). Qed.

Lemma links_ok_ErrorEx (rk : loc -> nat) (h : heap) (l : loc) (v : ErrorEx) :
  links_ok rk h -> h !! l = Some (ErrorExV v) ->
  link_ok rk h l (err v) /\ link_ok rk h l (cause v).
Proof.
  intros Hok Hl. pose proof (links_ok_links _ _ _ _ Hok Hl) as H. simpl in H.
  inversion_clear H as [|?? H1 H2]. inversion_clear H2 as [|?? H3 _]. done.
Qed.

Lemma links_ok_wrapError (rk : loc -> nat) (h : heap) (l : loc) (msg : string)
  (e : error) :
  links_ok rk h -> h !! l = Some (wrapError msg e) -> link_ok rk h l e.
Proof.
  intros Hok Hl. pose proof (links_ok_links _ _ _ _ Hok Hl) as H. simpl in H.
  by inversion_clear H.
Qed.

(** Under [links_ok], [errors.Is] returns, and it accepts every match. *)
Lemma errors_Is_complete (rk : loc -> nat) (h : heap) :
  links_ok rk h ->
  forall n e t fuel,
    rank_of rk e <= n -> allocated h e -> 3 * n + 1 <= fuel ->
    exists b, errors_Is fuel h e (Some t) = Ok b /\
              (Matches h e (Some t) -> b = true).
Proof.
  intros Hok. induction n as [|n IH]; intros e t fuel Hr Ha Hf.
  - destruct e as [l|]; simpl in Hr; [lia|].
    destruct fuel as [|f]; [lia|]. exists false. split; [done|].
    inversion 1.
  - destruct fuel as [|f]; [lia|]. rewrite errors_Is_S.
    destruct e as [l|]; [|exists false; split; [done|inversion 1]].
    simpl in Hr, Ha.
    case_bool_decide as Hlt; [by exists true|].
    destruct (lookup_lt_is_Some_2 h l Ha) as [o Hl]. rewrite Hl.
    destruct o as [s|msg e'|v|].
    + exists false. split; [done|].
      inversion 1; simplify_eq.
    + pose proof (links_ok_wrapError _ _ _ _ _ Hok Hl) as [Ha' Hr']%link_ok_rank.
      destruct (IH e' t f) as (b & Hb & Hm); [lia|done|lia|].
      exists b. split; [done|].
      inversion 1; simplify_eq; naive_solver.
    + pose proof (links_ok_ErrorEx _ _ _ _ Hok Hl) as
        [[Hae Hre]%link_ok_rank [Hac Hrc]%link_ok_rank].
      destruct f as [|[|f]]; [lia|lia|].
      rewrite Is_S, (deref_Some _ _ _ Hl). simpl.
      rewrite is_S, (deref_Some _ _ _ Hl). simpl.
      rewrite bool_decide_eq_false_2 by congruence.
      destruct (IH (err v) t f) as (b1 & Hb1 & Hm1); [lia|done|lia|].
      destruct (IH (cause v) t f) as (b2 & Hb2 & Hm2); [lia|done|lia|].
      destruct (IH (err v) t (S (S f))) as (b3 & Hb3 & Hm3); [lia|done|lia|].
      rewrite Hb1. simpl. destruct b1; simpl; [by exists true|].
      rewrite Hb2. simpl. destruct b2; simpl; [by exists true|].
      rewrite Hb3. exists b3. split; [done|].
      inversion 1; simplify_eq; naive_solver.
    + by destruct (links_ok_not_nil _ _ _ Hok Hl).
Qed.

Lemma Is_complete (rk : loc -> nat) (h : heap) (l : loc) (v : ErrorEx) (t : loc)
  (fuel : nat) :
  links_ok rk h -> h !! l = Some (ErrorExV v) -> 3 * rk l + 3 <= fuel ->
  exists b, Is fuel h l (Some t) = Ok b /\
            (Matches h (Some l) (Some t) -> b = true).
Proof.
  intros Hok Hl Hf.
  pose proof (links_ok_ErrorEx _ _ _ _ Hok Hl) as
    [[Hae Hre]%link_ok_rank [Hac Hrc]%link_ok_rank].
  destruct fuel as [|[|f]]; [lia|lia|].
  rewrite Is_S, (deref_Some _ _ _ Hl). simpl.
  rewrite is_S, (deref_Some _ _ _ Hl). simpl.
  case_bool_decide as Hlt; simpl; [by exists true|].
  destruct (errors_Is_complete rk h Hok (rk l) (err v) t f) as (b1 & Hb1 & Hm1);
    [lia|done|lia|].
  destruct (errors_Is_complete rk h Hok (rk l) (cause v) t f) as (b2 & Hb2 & Hm2);
    [lia|done|lia|].
  rewrite Hb1. simpl. destruct b1; simpl; [by exists true|].
  rewrite Hb2. exists b2. split; [done|].
  inversion 1; simplify_eq; naive_solver.
Qed.

(** ** Rendering of chains made by [New] and [Wrap] *)

Lemma format_rest_join (x : string) (m : list string) (msg : string) :
  format_rest (x :: m) msg = msg +:+ " " +:+ join "; " (x :: m).
Proof.
  revert x msg. induction m as [|y m IH]; intros x msg; [done|].
  change (format_rest (x :: y :: m) msg)
    with (format_rest (y :: m) (msg +:+ " " +:+ x +:+ ";")).
  rewrite IH.
  change (join "; " (x :: y :: m)) with (x +:+ "; " +:+ join "; " (y :: m)).
  by rewrite !append_assoc.
Qed.

Lemma ErrorexGo_format_stack_chain (root : string) (middle : list string)
  (head : string) :
  ErrorexGo.format_stack (reverse middle ++ [root]) head =
  chain_text root middle head.
Proof.
  unfold ErrorexGo.format_stack.
  rewrite reverse_app, reverse_involutive. simpl.
  destruct middle as [|x m]; [done|].
  rewrite format_rest_join. unfold chain_text. by rewrite !append_assoc.
Qed.

Lemma Part004_format_stack_chain (root : string) (middle : list string)
  (head : string) :
  head <> "" ->
  Part004.format_stack (reverse middle ++ [root]) head =
  chain_text root middle head.
Proof.
  intros Hh. unfold Part004.format_stack.
  rewrite reverse_app, reverse_involutive. simpl.
  destruct middle as [|x m]; [by rewrite (eqb_nonempty _ Hh)|].
  rewrite format_rest_join. unfold chain_text. by rewrite !append_assoc.
Qed.

Lemma ErrorexGo_wrap_stack_plain (h : heap) (p : loc) (ts : list string) :
  PlainChain h p ts -> forall fuel acc, length ts < fuel ->
  ErrorexGo.wrap_stack fuel h (Some p) acc = Ok (acc ++ ts).
Proof.
  induction 1 as [l t d Hl|l p t d ts Hl Hp IH]; intros fuel acc Hf.
  - destruct fuel as [|[|f]]; simpl in Hf; try lia.
    rewrite ErrorexGo_wrap_stack_S, Hl. simpl.
    by rewrite ErrorexGo_wrap_stack_S.
  - destruct fuel as [|f]; simpl in Hf; try lia.
    rewrite ErrorexGo_wrap_stack_S, Hl. simpl.
    rewrite IH by lia. by rewrite <- app_assoc.
Qed.

Lemma ErrorexGo_Error_plain (h : heap) (l : loc) (t : string)
  (ts : list string) :
  PlainChain h l (t :: ts) -> forall fuel, length ts + 2 <= fuel ->
  ErrorexGo.Error fuel h l = Ok (ErrorexGo.format_stack ts t).
Proof.
  intros Hc fuel Hf. destruct fuel as [|f]; [lia|].
  rewrite ErrorexGo_Error_S.
  inversion Hc as [l' t' d Hl|l' p t' d ts' Hl Hp]; subst;
    rewrite (deref_Some _ _ _ Hl); simpl.
  - destruct f as [|f]; [simpl in Hf; lia|].
    by rewrite ErrorexGo_wrap_stack_S.
  - by rewrite (ErrorexGo_wrap_stack_plain _ _ _ Hp) by lia.
Qed.

Lemma Part004_wrap_stack_plain (h : heap) (p : loc) (ts : list string) :
  PlainChain h p ts -> Forall (fun s => s <> "") ts ->
  forall fuel acc, length ts < fuel ->
  Part004.wrap_stack fuel h (Some p) acc = Ok (acc ++ ts).
Proof.
  induction 1 as [l t d Hl|l p t d ts Hl Hp IH]; intros Hne fuel acc Hf.
  - destruct fuel as [|[|f]]; simpl in Hf; try lia.
    inversion_clear Hne as [|?? Ht _].
    rewrite Part004_wrap_stack_S, Hl. simpl.
    rewrite (length_eqb_0 _ Ht). simpl.
    by rewrite Part004_wrap_stack_S, append_nil_r.
  - destruct fuel as [|f]; simpl in Hf; try lia.
    inversion_clear Hne as [|?? Ht Hts].
    rewrite Part004_wrap_stack_S, Hl. simpl.
    rewrite (length_eqb_0 _ Ht). simpl. rewrite append_nil_r.
    rewrite IH by (done || lia). by rewrite <- app_assoc.
Qed.

Lemma Part004_Error_plain (h : heap) (l : loc) (t : string)
  (ts : list string) :
  PlainChain h l (t :: ts) -> Forall (fun s => s <> "") (t :: ts) ->
  forall fuel, length ts + 2 <= fuel ->
  Part004.Error fuel h l = Ok (Part004.format_stack ts t).
Proof.
  intros Hc Hne fuel Hf. destruct fuel as [|f]; [lia|].
  inversion_clear Hne as [|?? Ht Hts].
  rewrite Part004_Error_S.
  inversion Hc as [l' t' d Hl|l' p t' d ts' Hl Hp]; subst;
    rewrite (deref_Some _ _ _ Hl); unfold Part004.base_message; simpl;
    rewrite (eqb_nonempty _ Ht); simpl.
  - destruct f as [|f]; [simpl in Hf; lia|].
    rewrite Part004_wrap_stack_S. simpl. by rewrite append_nil_r.
  - rewrite (Part004_wrap_stack_plain _ _ _ Hp Hts) by lia. simpl.
    by rewrite append_nil_r.
Qed.

Ltac solve_lookup :=
  solve [repeat first [apply lookup_snoc_new | apply lookup_snoc_Some]].

Ltac solve_chain :=
  repeat first
    [ eapply PlainChain_root; solve_lookup
    | eapply PlainChain_wrap; [solve_lookup|] ].

(** C1. A chain built with [New] and [Wrap] alone renders as the root text,
    [':'], the middle ancestors oldest first joined with [';'], and the
    head's own text after [' > ']; from the root ["base"] the renderings are
    ["base"], ["base: s1"], ["base: s1 > s2"], ["base: s1; s2 > s3"] and
    ["base: s1; s2; s3 > s4"].  Both revisions of [Error] agree (the later
    one for non-empty texts, which it would otherwise skip). *)
Theorem C1_wrap_chain_render (h : heap) (k : nat) :
  (let '(h0, b) := New h "base" in
   let '(h1, e1) := Wrap h0 b "s1" in
   let '(h2, e2) := Wrap h1 e1 "s2" in
   let '(h3, e3) := Wrap h2 e2 "s3" in
   let '(h4, e4) := Wrap h3 e3 "s4" in
   (ErrorexGo.Error (6 + k) h4 b = Ok "base" /\
    ErrorexGo.Error (6 + k) h4 e1 = Ok "base: s1" /\
    ErrorexGo.Error (6 + k) h4 e2 = Ok "base: s1 > s2" /\
    ErrorexGo.Error (6 + k) h4 e3 = Ok "base: s1; s2 > s3" /\
    ErrorexGo.Error (6 + k) h4 e4 = Ok "base: s1; s2; s3 > s4") /\
   (Part004.Error (6 + k) h4 b = Ok "base" /\
    Part004.Error (6 + k) h4 e1 = Ok "base: s1" /\
    Part004.Error (6 + k) h4 e2 = Ok "base: s1 > s2" /\
    Part004.Error (6 + k) h4 e3 = Ok "base: s1; s2 > s3" /\
    Part004.Error (6 + k) h4 e4 = Ok "base: s1; s2; s3 > s4")) /\
  (forall l root middle head,
     PlainChain h l (head :: reverse middle ++ [root]) ->
     ErrorexGo.Error (length middle + 3 + k) h l =
       Ok (chain_text root middle head) /\
     (Forall (fun s => s <> "") (head :: reverse middle ++ [root]) ->
      Part004.Error (length middle + 3 + k) h l =
        Ok (chain_text root middle head))).
Proof.
  split.
  - cbv beta iota delta [New Wrap alloc].
    split; repeat split.
    1-5: (etrans;
          [eapply ErrorexGo_Error_plain; [solve_chain | simpl; lia]
          | reflexivity]).
    all: (etrans;
          [eapply Part004_Error_plain;
           [solve_chain | repeat constructor; discriminate | simpl; lia]
          | reflexivity]).
  - intros l root middle head Hc. split.
    + rewrite (ErrorexGo_Error_plain _ _ _ _ Hc)
        by (rewrite length_app, length_reverse; simpl; lia).
      by rewrite ErrorexGo_format_stack_chain.
    + intros Hne.
      rewrite (Part004_Error_plain _ _ _ _ Hc Hne)
        by (rewrite length_app, length_reverse; simpl; lia).
      rewrite Part004_format_stack_chain; [done|].
      by inversion Hne.
Qed.

Lemma C1_wrap_chain_render_witness :
  ErrorexGo.Error 5 heap_p3 3 = Ok "p3: p2; p1 > m" /\
  Part004.Error 5 heap_p3 3 = Ok "p3: p2; p1 > m".
Proof.
  assert (PlainChain heap_p3 3 ("m" :: reverse ["p2"; "p1"] ++ ["p3"])) as Hc.
  { eapply PlainChain_wrap; [reflexivity|].
    eapply PlainChain_wrap; [reflexivity|].
    eapply PlainChain_wrap; [reflexivity|].
    eapply PlainChain_root. reflexivity. }
  destruct (C1_wrap_chain_render heap_p3 0) as [_ H].
  destruct (H 3 "p3" ["p2"; "p1"] "m" Hc) as [H1 H2].
  split; [exact H1|].
  apply H2. repeat constructor; discriminate.
Defined.

(** ** A stack of three ancestors *)

Lemma format_three (p1 p2 p3 m : string) :
  ErrorexGo.format_stack [p1; p2; p3] m =
    p3 +:+ ": " +:+ p2 +:+ "; " +:+ p1 +:+ " > " +:+ m /\
  Part004.format_stack [p1; p2; p3] m =
    p3 +:+ ": " +:+ p2 +:+ "; " +:+ p1 +:+ " > " +:+ m.
Proof.
  unfold ErrorexGo.format_stack, Part004.format_stack. simpl.
  rewrite !append_assoc. split; reflexivity.
Qed.

(** C2, as the specification words it, fails: with the stack [p1; p2; p3] ([p1] the
    nearest ancestor) and the message [m], [Error] returns
    ["p3: p2; p1 > m"] and not ["p3: p1; p2 > m"]. *)
Lemma C2_counterexample :
  (let '(h, a) := New [] "p3" in
   let '(h, b) := Wrap h a "p2" in
   let '(h, c) := Wrap h b "p1" in
   Wrap h c "m") = (heap_p3, 3) /\
  ErrorexGo.wrap_stack 4 heap_p3 (Some 2) [] = Ok ["p1"; "p2"; "p3"] /\
  ErrorexGo.Error 5 heap_p3 3 = Ok "p3: p2; p1 > m" /\
  ErrorexGo.Error 5 heap_p3 3 <> Ok "p3: p1; p2 > m" /\
  Part004.wrap_stack 4 heap_p3 (Some 2) [] = Ok ["p1"; "p2"; "p3"] /\
  Part004.Error 5 heap_p3 3 = Ok "p3: p2; p1 > m" /\
  Part004.Error 5 heap_p3 3 <> Ok "p3: p1; p2 > m".
Proof. repeat split; try reflexivity; vm_compute; discriminate. Qed.

(** C2, amended.  For a node whose ancestor stack is [p1; p2; p3] ([p1] the
    nearest ancestor, [p3] the farthest) and whose own message is [m], the
    rendering is ["p3: p2; p1 > m"], the middle entries oldest first,
    followed by the node's extra errors. *)
Theorem C2_stack_of_three (fuel : nat) (h : heap) (ee : loc) (v : ErrorEx)
  (p1 p2 p3 : string) :
  deref h ee = Ok v ->
  (forall m,
    ErrorexGo.base_message h (ErrorexGo.error_Error fuel h) v = Ok m ->
    ErrorexGo.wrap_stack fuel h (err v) [] = Ok [p1; p2; p3] ->
    ErrorexGo.Error (S fuel) h ee =
      range_extra (ErrorexGo.error_Error fuel h) "; " (extra v)
        (p3 +:+ ": " +:+ p2 +:+ "; " +:+ p1 +:+ " > " +:+ m)) /\
  (forall m,
    Part004.base_message h (Part004.error_Error fuel h) v = Ok m ->
    Part004.wrap_stack fuel h (err v) [] = Ok [p1; p2; p3] ->
    Part004.Error (S fuel) h ee =
      (x ← Part004.extrastring (Part004.error_Error fuel h) v;
       Ok ((p3 +:+ ": " +:+ p2 +:+ "; " +:+ p1 +:+ " > " +:+ m) +:+ x))).
Proof.
  intros Hv. split; intros m Hm Hs.
  - rewrite ErrorexGo_Error_S, Hv. simpl. rewrite Hm. simpl. rewrite Hs. simpl.
    by rewrite (proj1 (format_three p1 p2 p3 m)).
  - rewrite Part004_Error_S, Hv. simpl. rewrite Hm. simpl. rewrite Hs. simpl.
    by rewrite (proj2 (format_three p1 p2 p3 m)).
Qed.

Lemma C2_stack_of_three_witness :
  ErrorexGo.Error 5 heap_p3 3 = Ok "p3: p2; p1 > m" /\
  Part004.Error 5 heap_p3 3 = Ok "p3: p2; p1 > m".
Proof.
  destruct (C2_stack_of_three 4 heap_p3 3
              (mkErrorEx None None (Some 2) "m" false []) "p1" "p2" "p3"
              eq_refl) as [H1 H2].
  split.
  - exact (H1 "m" eq_refl eq_refl).
  - exact (H2 "m" eq_refl eq_refl).
Defined.

(** ** The heaps that the constructors build *)

Lemma heap_ok_nil : heap_ok [].
Proof. intros l o Hl. by rewrite lookup_nil in Hl. Qed.

Lemma link_ok_snoc (rk : loc -> nat) (h : heap) (o : object) (l : loc)
  (e : error) :
  link_ok rk h l e -> link_ok rk (h ++ [o]) l e.
Proof. destruct e as [l'|]; simpl; [|done]. rewrite length_app. lia. Qed.

Lemma heap_ok_snoc (h : heap) (o : object) :
  heap_ok h -> o <> nilErrorEx -> Forall (allocated h) (links o) ->
  heap_ok (h ++ [o]).
Proof.
  intros Hok Hn Ho l o' Hl.
  apply lookup_app_Some in Hl as [Hl|[Hge Hl]].
  - destruct (Hok _ _ Hl) as [Hn' Hl']. split; [done|].
    eapply Forall_impl; [|exact Hl'].
    intros e. apply link_ok_snoc.
  - apply list_lookup_singleton_Some in Hl as [Hz <-].
    assert (l = length h) as -> by lia. split; [done|].
    eapply Forall_impl; [|exact Ho].
    intros [l'|]; simpl; [|done]. rewrite length_app. simpl. unfold id. lia.
Qed.

Lemma heap_ok_New (h : heap) (s : string) : heap_ok h -> heap_ok (New h s).1.
Proof. intros Hok. apply heap_ok_snoc; [done|done|]. by repeat constructor. Qed.

Lemma heap_ok_Wrap (h : heap) (ee : loc) (s : string) :
  heap_ok h -> ee < length h -> heap_ok (Wrap h ee s).1.
Proof. intros Hok Hl. apply heap_ok_snoc; [done|done|]. by repeat constructor. Qed.

Lemma heap_ok_WrapCause (h : heap) (ee : loc) (s : string) (c : error) :
  heap_ok h -> ee < length h -> allocated h c -> heap_ok (WrapCause h ee s c).1.
Proof. intros Hok Hl Hc. apply heap_ok_snoc; [done|done|]. by repeat constructor. Qed.

(** [Extra] changes no link. *)
Lemma links_ok_insert_extra (rk : loc -> nat) (h : heap) (ee : loc)
  (v : ErrorEx) (ex : list error) :
  links_ok rk h -> h !! ee = Some (ErrorExV v) ->
  links_ok rk (<[ee := ErrorExV (set_extra ex v)]> h).
Proof.
  intros Hok Hv l o Hl.
  assert (o <> nilErrorEx /\ Forall (link_ok rk h l) (links o)) as [Hn Ho].
  { destruct (decide (l = ee)) as [->|Hne].
    - rewrite list_lookup_insert_eq in Hl by (by eapply lookup_lt_Some).
      injection Hl as <-. split; [done|]. exact (links_ok_links _ _ _ _ Hok Hv).
    - rewrite list_lookup_insert_ne in Hl by done. exact (Hok _ _ Hl). }
  split; [done|].
  eapply Forall_impl; [|exact Ho].
  intros [l'|]; simpl; [|done]. by rewrite length_insert.
Qed.

(** In such a heap a match never leads to a younger object. *)
Lemma Matches_le (h : heap) (e t : error) :
  heap_ok h -> Matches h e t ->
  forall l a, e = Some l -> t = Some a -> a <= l.
Proof.
  intros Hok. induction 1 as [e|l v t Hl Hm IH|l v t Hl Hm IH|l msg e t Hl Hm IH];
    intros l0 a He Ht; simplify_eq.
  - done.
  - pose proof (links_ok_ErrorEx _ _ _ _ Hok Hl) as [He _].
    destruct (err v) as [l'|] eqn:E; [|inversion Hm].
    simpl in He. unfold id in He. specialize (IH _ _ eq_refl eq_refl). lia.
  - pose proof (links_ok_ErrorEx _ _ _ _ Hok Hl) as [_ Hc].
    destruct (cause v) as [l'|] eqn:E; [|inversion Hm].
    simpl in Hc. unfold id in Hc. specialize (IH _ _ eq_refl eq_refl). lia.
  - pose proof (links_ok_wrapError _ _ _ _ _ Hok Hl) as He.
    destruct e as [l'|]; [|inversion Hm].
    simpl in He. unfold id in He. specialize (IH _ _ eq_refl eq_refl). lia.
Qed.

Lemma Ancestor_Matches (h : heap) (a : loc) (e : error) :
  Ancestor h a e -> Matches h e (Some a).
Proof.
  induction 1 as [|l Hu IH]; [constructor|].
  simpl in Hu, IH.
  destruct (h !! l) as [[s|msg e'|v|]|] eqn:Hl; try by inversion Hu.
  - eapply Matches_unwrap; eauto.
  - eapply Matches_err; eauto.
Qed.

Lemma Matches_snoc (h : heap) (o : object) (e t : error) :
  Matches h e t -> Matches (h ++ [o]) e t.
Proof.
  induction 1 as [e|l v t Hl Hm IH|l v t Hl Hm IH|l msg e t Hl Hm IH].
  - constructor.
  - eapply Matches_err; [by apply lookup_snoc_Some|done].
  - eapply Matches_cause; [by apply lookup_snoc_Some|done].
  - eapply Matches_unwrap; [by apply lookup_snoc_Some|done].
Qed.

(** A node is matched for itself, for the ancestors of its wrapped chain
    and for the ancestors of its cause. *)
Lemma Is_ancestor (h : heap) (n : loc) (v : ErrorEx) (a : loc) (fuel : nat) :
  heap_ok h -> h !! n = Some (ErrorExV v) -> 3 * n + 3 <= fuel ->
  Ancestor h a (Some n) \/ Ancestor h a (cause v) ->
  Is fuel h n (Some a) = Ok true.
Proof.
  intros Hok Hn Hf Ha.
  destruct (Is_complete id h n v a fuel Hok Hn Hf) as (b & -> & Hb).
  f_equal. apply Hb. destruct Ha as [Ha|Ha].
  - by apply Ancestor_Matches.
  - eapply Matches_cause; [done|]. by apply Ancestor_Matches.
Qed.

(** A node allocated later is never matched. *)
Lemma Is_younger (h : heap) (n : loc) (v : ErrorEx) (x : loc) (fuel : nat) :
  heap_ok h -> h !! n = Some (ErrorExV v) -> 3 * n + 3 <= fuel -> n < x ->
  Is fuel h n (Some x) = Ok false.
Proof.
  intros Hok Hn Hf Hx.
  destruct (Is_complete id h n v x fuel Hok Hn Hf) as (b & Hb & _).
  destruct b; [|done].
  apply Is_sound in Hb.
  pose proof (Matches_le _ _ _ Hok Hb _ _ eq_refl eq_refl). lia.
Qed.

Lemma Ancestor_wrapped (h : heap) (a l : loc) (v : ErrorEx) :
  h !! l = Some (ErrorExV v) -> Ancestor h a (err v) -> Ancestor h a (Some l).
Proof. intros Hl Ha. apply Ancestor_step. simpl. by rewrite Hl. Qed.

Lemma Ancestor_snoc (h : heap) (o : object) (a : loc) (e : error) :
  Ancestor h a e -> Ancestor (h ++ [o]) a e.
Proof.
  induction 1 as [|l Hu IH]; [constructor|].
  apply Ancestor_step. simpl in *.
  destruct (h !! l) as [x|] eqn:Hl; [|inversion Hu].
  by rewrite (lookup_snoc_Some _ o _ _ Hl).
Qed.

(** C4. A node answers [Is] true for itself, for every ancestor of its
    wrapped chain and for every ancestor of its cause; it answers false for
    a node constructed afresh with the same text.  Stated for the heaps the
    constructors build, first in general and then for [base := New("X")],
    [mid := base.Wrap("Y")], [leaf := mid.Wrap("Z")], [New("X")] and
    [mid.WrapCause("E", c)]. *)
Theorem C4_Is_identity (h : heap) :
  heap_ok h ->
  (forall n v a fuel,
     h !! n = Some (ErrorExV v) -> 3 * n + 3 <= fuel ->
     Ancestor h a (Some n) \/ Ancestor h a (cause v) ->
     Is fuel h n (Some a) = Ok true) /\
  (forall fuel,
     let '(h1, base) := New h "X" in
     let '(h2, mid) := Wrap h1 base "Y" in
     let '(h3, leaf) := Wrap h2 mid "Z" in
     let '(h4, other) := New h3 "X" in
     3 * leaf + 3 <= fuel ->
     Is fuel h4 leaf (Some leaf) = Ok true /\
     Is fuel h4 leaf (Some mid) = Ok true /\
     Is fuel h4 leaf (Some base) = Ok true /\
     Is fuel h4 leaf (Some other) = Ok false) /\
  (forall c a fuel,
     c < length h -> Ancestor h a (Some c) ->
     let '(h1, base) := New h "X" in
     let '(h2, mid) := Wrap h1 base "Y" in
     let '(h3, leaf2) := WrapCause h2 mid "E" (Some c) in
     3 * leaf2 + 3 <= fuel ->
     Is fuel h3 leaf2 (Some a) = Ok true).
Proof.
  intros Hok. split; [|split].
  - intros n v a fuel Hn Hf Ha. by eapply Is_ancestor.
  - intros fuel. cbv beta iota delta [New Wrap alloc].
    set (ob := ErrorExV (mkErrorEx None None None "X" false [])).
    set (h1 := h ++ [ob]).
    set (om := ErrorExV (mkErrorEx None None (Some (length h)) "Y" false [])).
    set (h2 := h1 ++ [om]).
    set (ol := ErrorExV (mkErrorEx None None (Some (length h1)) "Z" false [])).
    set (h3 := h2 ++ [ol]).
    intros Hf.
    assert (length h1 = S (length h)) as L1
      by (unfold h1; rewrite length_app; simpl; lia).
    assert (length h2 = S (length h1)) as L2
      by (unfold h2; rewrite length_app; simpl; lia).
    assert (length h3 = S (length h2)) as L3
      by (unfold h3; rewrite length_app; simpl; lia).
    assert (heap_ok h1) as Hok1 by (apply heap_ok_snoc; [done|done|repeat constructor]).
    assert (heap_ok h2) as Hok2.
    { apply heap_ok_snoc; [done|done|]. repeat constructor. simpl. lia. }
    assert (heap_ok h3) as Hok3.
    { apply heap_ok_snoc; [done|done|]. repeat constructor. simpl. lia. }
    assert (heap_ok (h3 ++ [ob])) as Hok4
      by (apply heap_ok_snoc; [done|done|repeat constructor]).
    assert ((h3 ++ [ob]) !! length h2 = Some ol) as Hl by solve_lookup.
    assert ((h3 ++ [ob]) !! length h1 = Some om) as Hm by solve_lookup.
    assert ((h3 ++ [ob]) !! length h = Some ob) as Hb by solve_lookup.
    repeat split.
    + eapply Is_ancestor; eauto. left. constructor.
    + eapply Is_ancestor; eauto. left.
      eapply Ancestor_wrapped; [exact Hl|]. constructor.
    + eapply Is_ancestor; eauto. left.
      eapply Ancestor_wrapped; [exact Hl|].
      eapply Ancestor_wrapped; [exact Hm|]. constructor.
    + eapply Is_younger; eauto. lia.
  - intros c a fuel Hc Ha. cbv beta iota delta [New Wrap WrapCause alloc].
    set (ob := ErrorExV (mkErrorEx None None None "X" false [])).
    set (h1 := h ++ [ob]).
    set (om := ErrorExV (mkErrorEx None None (Some (length h)) "Y" false [])).
    set (h2 := h1 ++ [om]).
    set (ol := ErrorExV (mkErrorEx (Some c) None (Some (length h1)) "E" false [])).
    intros Hf.
    assert (length h1 = S (length h)) as L1
      by (unfold h1; rewrite length_app; simpl; lia).
    assert (length h2 = S (length h1)) as L2
      by (unfold h2; rewrite length_app; simpl; lia).
    assert (heap_ok h1) as Hok1 by (apply heap_ok_snoc; [done|done|repeat constructor]).
    assert (heap_ok h2) as Hok2.
    { apply heap_ok_snoc; [done|done|]. repeat constructor. simpl. lia. }
    assert (heap_ok (h2 ++ [ol])) as Hok3.
    { apply heap_ok_snoc; [done|done|]. repeat constructor; simpl; lia. }
    eapply Is_ancestor; [done|apply lookup_snoc_new|done|].
    right. simpl. by do 3 apply Ancestor_snoc.
Qed.

Lemma heap_C4_ok : heap_ok heap_C4.
Proof.
  apply (heap_ok_snoc [_]);
    [apply (heap_ok_snoc []); [apply heap_ok_nil|done|]|done|];
    repeat constructor.
Qed.

Lemma C4_Is_identity_witness :
  Is 20 heap_C4 1 (Some 0) = Ok true /\
  (let '(h1, base) := New heap_C4 "X" in
   let '(h2, mid) := Wrap h1 base "Y" in
   let '(h3, leaf) := Wrap h2 mid "Z" in
   let '(h4, other) := New h3 "X" in
   Is 20 h4 leaf (Some base) = Ok true /\
   Is 20 h4 leaf (Some other) = Ok false) /\
  (let '(h1, base) := New heap_C4 "X" in
   let '(h2, mid) := Wrap h1 base "Y" in
   let '(h3, leaf2) := WrapCause h2 mid "E" (Some 1) in
   Is 20 h3 leaf2 (Some 0) = Ok true).
Proof.
  destruct (C4_Is_identity heap_C4 heap_C4_ok) as (H1 & H2 & H3).
  split; [|split].
  - apply (H1 1 (mkErrorEx None None (Some 0) "D" false []) 0 20 eq_refl);
      [simpl; lia|].
    left. apply Ancestor_step. simpl. constructor.
  - specialize (H2 20). simpl in H2. simpl.
    destruct H2 as (_ & _ & Hb & Ho); [lia|]. by split.
  - assert (Ancestor heap_C4 0 (Some 1)) as Ha
      by (apply Ancestor_step; simpl; constructor).
    specialize (H3 1 0 20 ltac:(simpl; lia) Ha). simpl in H3. simpl.
    apply H3. lia.
Defined.

(** ** Format placeholders *)

Lemma Sprintf_v7 : Sprintf "v=%d" [VInt 7] = "v=7".
Proof. vm_compute. reflexivity. Qed.

Lemma ErrorexGo_Error_template_root (h : heap) (format : string) (k : nat) :
  ErrorexGo.Error (2 + k) (h ++ [ErrorExV (mkErrorEx None None None format true [])])
    (length h) = Ok "".
Proof.
  change (2 + k) with (S (S k)).
  rewrite ErrorexGo_Error_S, (deref_Some _ _ _ (lookup_snoc_new _ _)). simpl.
  by rewrite ?ErrorexGo_wrap_stack_S.
Qed.

Lemma Part004_Error_template_root (h : heap) (format : string) (k : nat) :
  Part004.Error (2 + k) (h ++ [ErrorExV (mkErrorEx None None None format true [])])
    (length h) = Ok "".
Proof.
  change (2 + k) with (S (S k)).
  rewrite Part004_Error_S, (deref_Some _ _ _ (lookup_snoc_new _ _)).
  unfold Part004.base_message. simpl.
  destruct (String.eqb format ""); simpl; by rewrite ?Part004_wrap_stack_S.
Qed.

Lemma ErrorexGo_WrapArgs_Some (h : heap) (n : loc) (v : ErrorEx)
  (args : list value) :
  h !! n = Some (ErrorExV v) ->
  ErrorexGo.WrapArgs h n args = Ok (Wrap h n (Sprintf (txt v) args)).
Proof. intros Hn. unfold ErrorexGo.WrapArgs. by rewrite (deref_Some _ _ _ Hn). Qed.

Lemma Part004_WrapArgs_Some (h : heap) (n : loc) (v : ErrorEx)
  (args : list value) :
  h !! n = Some (ErrorExV v) ->
  Part004.WrapArgs h n args = Ok (Wrap h n (Part004.autoformat v args)).
Proof. intros Hn. unfold Part004.WrapArgs. by rewrite (deref_Some _ _ _ Hn). Qed.

Lemma ErrorexGo_Error_filled (h : heap) (format s : string) (k : nat) :
  ErrorexGo.Error (3 + k)
    ((h ++ [ErrorExV (mkErrorEx None None None format true [])]) ++
     [ErrorExV (mkErrorEx None None (Some (length h)) s false [])])
    (length (h ++ [ErrorExV (mkErrorEx None None None format true [])])) = Ok s.
Proof.
  change (3 + k) with (S (S (S k))).
  rewrite ErrorexGo_Error_S, (deref_Some _ _ _ (lookup_snoc_new _ _)). simpl.
  rewrite ?ErrorexGo_wrap_stack_S.
  rewrite (lookup_snoc_Some _ _ _ _ (lookup_snoc_new _ _)). simpl.
  by rewrite ?ErrorexGo_wrap_stack_S.
Qed.

Lemma Part004_Error_filled (h : heap) (format s : string) (k : nat) :
  s <> "" ->
  Part004.Error (3 + k)
    ((h ++ [ErrorExV (mkErrorEx None None None format true [])]) ++
     [ErrorExV (mkErrorEx None None (Some (length h)) s false [])])
    (length (h ++ [ErrorExV (mkErrorEx None None None format true [])])) = Ok s.
Proof.
  intros Hs. change (3 + k) with (S (S (S k))).
  rewrite Part004_Error_S, (deref_Some _ _ _ (lookup_snoc_new _ _)).
  unfold Part004.base_message. simpl. rewrite (eqb_nonempty _ Hs). simpl.
  rewrite ?Part004_wrap_stack_S.
  rewrite (lookup_snoc_Some _ _ _ _ (lookup_snoc_new _ _)). simpl.
  rewrite ?Part004_wrap_stack_S. simpl. by rewrite append_nil_r.
Qed.

(** C6. [NewFormat("v=%d").WrapArgs(7)] renders as ["v=7"], the placeholder
    contributing nothing, and a placeholder root that is rendered itself
    gives the empty string, whatever its format. *)
Theorem C6_template_round_trip (h : heap) (k : nat) :
  (let '(h1, t) := NewFormat h "v=%d" in
   (exists h2 d, ErrorexGo.WrapArgs h1 t [VInt 7] = Ok (h2, d) /\
                 ErrorexGo.Error (3 + k) h2 d = Ok "v=7") /\
   (exists h2 d, Part004.WrapArgs h1 t [VInt 7] = Ok (h2, d) /\
                 Part004.Error (3 + k) h2 d = Ok "v=7") /\
   ErrorexGo.Error (2 + k) h1 t = Ok "" /\
   Part004.Error (2 + k) h1 t = Ok "") /\
  (forall format,
     let '(h1, t) := NewFormat h format in
     ErrorexGo.Error (2 + k) h1 t = Ok "" /\
     Part004.Error (2 + k) h1 t = Ok "").
Proof.
  split.
  - rewrite NewFormat_alloc. cbv beta iota delta [alloc].
    split; [|split; [|split]].
    + eexists _, _.
      rewrite (ErrorexGo_WrapArgs_Some _ _ _ _ (lookup_snoc_new _ _)).
      cbn [txt]. rewrite Sprintf_v7. split; [reflexivity|].
      apply ErrorexGo_Error_filled.
    + eexists _, _.
      rewrite (Part004_WrapArgs_Some _ _ _ _ (lookup_snoc_new _ _)).
      unfold Part004.autoformat. cbn [txt fmt]. rewrite Sprintf_v7.
      split; [reflexivity|].
      by apply Part004_Error_filled.
    + apply ErrorexGo_Error_template_root.
    + apply Part004_Error_template_root.
  - intros format. rewrite NewFormat_alloc. cbv beta iota delta [alloc].
    split.
    + apply ErrorexGo_Error_template_root.
    + apply Part004_Error_template_root.
Qed.

(** ** Deriving with arguments *)

Lemma doPrint_strings (args : list value) (prev : bool) (n : nat) :
  Forall (fun a => isString a = true) args ->
  doPrint prev n args = String.concat "" (map fmtValue args).
Proof.
  intros H. revert prev n.
  induction H as [|a args Ha _ IH]; intros prev n; [done|].
  cbn [doPrint map]. rewrite Ha, andb_false_r. cbn [negb andb].
  rewrite (IH true (S n)).
  destruct args as [|b args]; [by rewrite append_nil_r|done].
Qed.

Lemma doPrint_spaced (args : list value) (prev : bool) (n : nat) :
  doPrint prev n args =
  match args with
  | [] => ""
  | a :: _ =>
    (if (0 <? n) && negb (isString a) && negb prev then " " else "")
      +:+ spaced args
  end.
Proof.
  revert prev n. induction args as [|a rest IH]; intros prev n; [done|].
  cbn [doPrint spaced]. rewrite IH.
  destruct rest as [|b rest']; [by rewrite append_nil_r|].
  change (0 <? S n) with true.
  destruct (isString a), (isString b); reflexivity.
Qed.

Lemma Sprint_spaced (args : list value) : Sprint args = spaced args.
Proof. unfold Sprint. rewrite doPrint_spaced. by destruct args. Qed.

(** The claim as written fails on three counts.  In the later revision
    [New("x").WrapArgs(1, 2)] has the text ["1 2"], not the concatenation
    ["12"]; in src/errorex.go [New("%s error").WrapArgs("test")] formats
    the receiver's text; and on a nil receiver [WrapArgs] panics in both
    revisions. *)
Lemma C7_counterexample :
  (Part004.WrapArgs (New [] "x").1 0 [VInt 1; VInt 2] =
     Ok (Wrap (New [] "x").1 0 "1 2") /\
   String.concat "" (map fmtValue [VInt 1; VInt 2]) = "12" /\
   "1 2" <> "12") /\
  (ErrorexGo.WrapArgs (New [] "%s error").1 0 [VStr "test"] =
     Ok (Wrap (New [] "%s error").1 0 "test error") /\
   "test error" <> "test") /\
  (Part004.WrapArgs [nilErrorEx] 0 [VStr "test"] = Panic /\
   ErrorexGo.WrapArgs [nilErrorEx] 0 [VStr "test"] = Panic).
Proof. repeat split; done. Qed.

(** C7, amended.  On a node that is not a placeholder, [WrapArgs] of the
    later revision does not use the node's text as a format: the new
    node's text is [fmt.Sprint] of the arguments, whatever the receiver's
    text is, that is the arguments in their default format one after the
    other with a space between two neighbours when neither is a string
    (the plain concatenation when all are strings).  [WrapArgs] of
    src/errorex.go formats the receiver's text whatever the flag.  On
    every receiver that is not the nil pointer, placeholder or not, both
    return a new node wrapping the receiver. *)
Theorem C7_WrapArgs_fallback (h : heap) (n : loc) (v : ErrorEx)
  (args : list value) :
  h !! n = Some (ErrorExV v) ->
  (exists d,
     Part004.WrapArgs h n args = Ok (h ++ [ErrorExV d], length h) /\
     err d = Some n /\ cause d = None /\ fmt d = false /\
     txt d = Part004.autoformat v args) /\
  (fmt v = false ->
     Part004.autoformat v args = Sprint args /\
     Sprint args = spaced args /\
     (Forall (fun a => isString a = true) args ->
      Sprint args = String.concat "" (map fmtValue args)) /\
     Part004.WrapArgs h n args = Ok (Wrap h n (spaced args)) /\
     Part004.WrapCauseArgs h n None args = Ok (WrapCause h n (spaced args) None) /\
     (forall d, Part004.WrapDataArgs h n d args = Ok (WrapData h n (spaced args) d))) /\
  ErrorexGo.WrapArgs h n args = Ok (Wrap h n (Sprintf (txt v) args)).
Proof.
  intros Hn. split; [|split].
  - eexists. unfold Part004.WrapArgs. rewrite (deref_Some _ _ _ Hn). simpl.
    split; [reflexivity|]. simpl. repeat split; reflexivity.
  - intros Hf.
    unfold Part004.WrapArgs, Part004.WrapCauseArgs, Part004.WrapDataArgs,
      Part004.autoformat.
    rewrite (deref_Some _ _ _ Hn). simpl. rewrite !Hf, <- !Sprint_spaced.
    split; [reflexivity|]. split; [reflexivity|].
    split; [apply doPrint_strings|].
    repeat split; reflexivity.
  - unfold ErrorexGo.WrapArgs. by rewrite (deref_Some _ _ _ Hn).
Qed.

Lemma C7_WrapArgs_fallback_witness :
  Part004.WrapArgs (New [] "%s error").1 0 [VStr "test"] =
    Ok (Wrap (New [] "%s error").1 0 "test") /\
  (exists h d, Part004.WrapArgs (New [] "%s error").1 0 [VStr "test"] = Ok (h, d) /\
               Part004.Error 4 h d = Ok "%s error: test") /\
  Part004.WrapArgs (New [] "x").1 0 [VInt 1; VStr "a"; VInt 2; VInt 3] =
    Ok (Wrap (New [] "x").1 0 "1a2 3").
Proof.
  destruct (C7_WrapArgs_fallback (New [] "%s error").1 0
              (mkErrorEx None None None "%s error" false []) [VStr "test"]
              eq_refl) as (_ & H & _).
  destruct (H eq_refl) as (_ & _ & _ & H1 & _).
  split; [exact H1|].
  split; [eexists _, _; split; [exact H1|reflexivity]|].
  destruct (C7_WrapArgs_fallback (New [] "x").1 0
              (mkErrorEx None None None "x" false [])
              [VInt 1; VStr "a"; VInt 2; VInt 3] eq_refl) as (_ & H' & _).
  exact (proj1 (proj2 (proj2 (proj2 (H' eq_refl))))).
Defined.

(** The earlier revision formats the receiver's text whatever the flag is. *)
Lemma ErrorexGo_WrapArgs_formats_text :
  exists h d,
    ErrorexGo.WrapArgs (New [] "%s error").1 0 [VStr "test"] = Ok (h, d) /\
    ErrorexGo.Error 4 h d = Ok "%s error: test error".
Proof. eexists _, _. split; reflexivity. Qed.

(** ** Deriving with a nil cause *)

(** C10. [n.WrapCause(m, nil)] builds the very struct that [n.Wrap(m)]
    builds: from the same heap the two calls give the same heap and the
    same node, so that [Error], [Cause] (which is nil) and [Is] on every
    target agree.  With both nodes allocated one after the other, they
    render alike, [Cause] is nil for both, and [Is] agrees on every target
    other than the two nodes themselves, each of which answers for
    itself. *)
Theorem C10_WrapCause_nil (h : heap) (n : loc) (m : string) :
  (WrapCause h n m None = Wrap h n m /\
   let '(ha, a) := WrapCause h n m None in
   let '(hb, b) := Wrap h n m in
   Cause ha a = Ok None /\
   (forall fuel, ErrorexGo.Error fuel ha a = ErrorexGo.Error fuel hb b) /\
   (forall fuel, Part004.Error fuel ha a = Part004.Error fuel hb b) /\
   (forall fuel t, Is fuel ha a t = Is fuel hb b t)) /\
  (let '(h1, a) := WrapCause h n m None in
   let '(h2, b) := Wrap h1 n m in
   Cause h2 a = Ok None /\ Cause h2 b = Ok None /\
   (forall fuel, ErrorexGo.Error fuel h2 a = ErrorexGo.Error fuel h2 b) /\
   (forall fuel, Part004.Error fuel h2 a = Part004.Error fuel h2 b) /\
   (forall fuel t, t <> Some a -> t <> Some b ->
      Is fuel h2 a t = Is fuel h2 b t) /\
   (forall fuel, Is fuel h2 a (Some a) = Is fuel h2 b (Some b))).
Proof.
  split.
  { split; [reflexivity|].
    cbv beta iota delta [WrapCause Wrap alloc].
    split; [|by repeat split].
    unfold Cause. by rewrite (deref_Some _ _ _ (lookup_snoc_new _ _)). }
  cbv beta iota delta [WrapCause Wrap alloc].
  set (o := ErrorExV (mkErrorEx None None (Some n) m false [])).
  assert (((h ++ [o]) ++ [o]) !! length h = Some o) as Ha
    by (apply lookup_snoc_Some, lookup_snoc_new).
  assert (((h ++ [o]) ++ [o]) !! length (h ++ [o]) = Some o) as Hb
    by apply lookup_snoc_new.
  assert (length h <> length (h ++ [o])) as Hne
    by (rewrite length_app; simpl; lia).
  unfold Cause. rewrite (deref_Some _ _ _ Ha), (deref_Some _ _ _ Hb).
  repeat split.
  - intros [|f]; [done|].
    by rewrite !ErrorexGo_Error_S, (deref_Some _ _ _ Ha), (deref_Some _ _ _ Hb).
  - intros [|f]; [done|].
    by rewrite !Part004_Error_S, (deref_Some _ _ _ Ha), (deref_Some _ _ _ Hb).
  - intros [|f] t Hta Htb; [done|].
    rewrite !Is_S, (deref_Some _ _ _ Ha), (deref_Some _ _ _ Hb). simpl.
    destruct f as [|f]; [done|].
    rewrite !is_S, (deref_Some _ _ _ Ha), (deref_Some _ _ _ Hb). simpl.
    by rewrite !bool_decide_eq_false_2 by congruence.
  - intros [|f]; [done|].
    rewrite !Is_S, (deref_Some _ _ _ Ha), (deref_Some _ _ _ Hb). simpl.
    destruct f as [|f]; [done|].
    rewrite !is_S, (deref_Some _ _ _ Ha), (deref_Some _ _ _ Hb). simpl.
    by rewrite !bool_decide_eq_true_2 by done.
Qed.

Lemma C10_WrapCause_nil_witness :
  let '(h1, a) := WrapCause heap_C4 1 "m" None in
  let '(h2, b) := Wrap h1 1 "m" in
  Is 9 h2 a (Some 0) = Is 9 h2 b (Some 0) /\
  Is 9 h2 a (Some 0) = Ok true /\
  ErrorexGo.Error 9 h2 a = Ok "C: D > m".
Proof.
  destruct (C10_WrapCause_nil heap_C4 1 "m") as [_ H].
  cbv beta iota delta [WrapCause Wrap alloc] in *.
  destruct H as (_ & _ & _ & _ & HI & _).
  split; [|by split].
  apply HI; discriminate.
Defined.

(** ** [Is] and the extra errors *)

Lemma same_links_refl (o : object) : same_links o o.
Proof. by destruct o. Qed.

Lemma same_links_lookup (h h' : heap) (l : loc) :
  Forall2 same_links h h' ->
  match h !! l, h' !! l with
  | Some o, Some o' => same_links o o'
  | None, None => True
  | _, _ => False
  end.
Proof.
  intros H. pose proof (proj1 (Forall2_lookup _ _ _) H l) as Hl.
  by destruct Hl.
Qed.

(** [errors.Is] reads wrapped errors and causes only. *)
Lemma Is_same_links (h h' : heap) :
  Forall2 same_links h h' ->
  forall fuel,
    (forall e t, errors_Is fuel h e t = errors_Is fuel h' e t) /\
    (forall l t, Is fuel h l t = Is fuel h' l t) /\
    (forall l t c, is_ fuel h l t c = is_ fuel h' l t c).
Proof.
  intros H. induction fuel as [|f (IHe & IHI & IHi)]; [done|].
  split; [|split].
  - intros e t. rewrite !errors_Is_S.
    destruct t as [t|]; [|done]. destruct e as [l|]; [|done].
    case_bool_decide; [done|].
    pose proof (same_links_lookup _ _ l H) as Hl.
    destruct (h !! l) as [o|], (h' !! l) as [o'|]; try done.
    destruct o as [s|msg e|v|], o' as [s'|msg' e'|v'|]; simpl in Hl;
      simplify_eq; try done.
    destruct Hl as (_ & _ & He & _). by rewrite IHI, He, IHe.
  - intros l t. rewrite !Is_S. unfold deref.
    pose proof (same_links_lookup _ _ l H) as Hl.
    destruct (h !! l) as [o|], (h' !! l) as [o'|]; try done.
    destruct o as [s|msg e|v|], o' as [s'|msg' e'|v'|]; simpl in Hl;
      simplify_eq; try done.
    destruct Hl as (Hc & _). simpl. by rewrite IHi, Hc.
  - intros l t c. rewrite !is_S. unfold deref.
    pose proof (same_links_lookup _ _ l H) as Hl.
    destruct (h !! l) as [o|], (h' !! l) as [o'|]; try done.
    destruct o as [s|msg e|v|], o' as [s'|msg' e'|v'|]; simpl in Hl;
      simplify_eq; try done.
    destruct Hl as (_ & _ & He & _). simpl. by rewrite !IHe, He.
Qed.

Lemma same_links_insert_extra (h : heap) (n : loc) (v : ErrorEx)
  (ex : list error) :
  h !! n = Some (ErrorExV v) ->
  Forall2 same_links h (<[n := ErrorExV (set_extra ex v)]> h).
Proof.
  intros Hn. apply Forall2_lookup. intros i.
  destruct (decide (i = n)) as [->|Hne].
  - rewrite list_lookup_insert_eq by (by eapply lookup_lt_Some).
    rewrite Hn. by constructor.
  - rewrite list_lookup_insert_ne by done.
    destruct (h !! i); constructor. apply same_links_refl.
Qed.

Lemma ErrorexGo_Extra_Ok (h h' : heap) (n : loc) (e : error) :
  ErrorexGo.Extra h n e = Ok h' ->
  exists v, h !! n = Some (ErrorExV v) /\
            h' = <[n := ErrorExV (set_extra (extra v ++ [e]) v)]> h.
Proof.
  unfold ErrorexGo.Extra. destruct (deref h n) as [v| |] eqn:Hv; try done.
  simpl. intros [= <-]. exists v. split; [by apply deref_Ok|done].
Qed.

Lemma Part004_Extra_Ok (h h' : heap) (n r : loc) (e : error) :
  Part004.Extra h n e = Ok (h', r) ->
  r = n /\
  exists v, h !! n = Some (ErrorExV v) /\
            h' = <[n := ErrorExV (set_extra (extra v ++ [e]) v)]> h.
Proof.
  unfold Part004.Extra. destruct (deref h n) as [v| |] eqn:Hv; try done.
  simpl. intros [= <- <-]. split; [done|].
  exists v. split; [by apply deref_Ok|done].
Qed.

Lemma Is_insert_extra (h : heap) (n : loc) (v : ErrorEx) (ex : list error) :
  h !! n = Some (ErrorExV v) ->
  let h' := <[n := ErrorExV (set_extra ex v)]> h in
  (forall fuel l t, Is fuel h' l t = Is fuel h l t) /\
  (forall fuel l t, Is fuel h' l t = Ok true -> Matches h (Some l) t) /\
  (forall fuel l x, heap_ok h -> l < x -> Is fuel h' l (Some x) <> Ok true).
Proof.
  intros Hn h'.
  pose proof (Is_same_links _ _ (same_links_insert_extra h n v ex Hn)) as HI.
  assert (forall fuel l t, Is fuel h' l t = Is fuel h l t) as H1.
  { intros fuel l t. symmetry. apply HI. }
  split; [done|]. split.
  - intros fuel l t. rewrite H1. apply Is_sound.
  - intros fuel l x Hok Hlt. rewrite H1. intros Ht%Is_sound.
    pose proof (Matches_le _ _ _ Hok Ht _ _ eq_refl eq_refl). lia.
Qed.

(** C9, as the specification words it, fails in its second half: with
    [p := base.WrapCause("p", c)] and [n := p.Wrap("n")], after
    [n.Extra(c)] the call [n.Is(c)] is true although [c] is not [n], is
    not an ancestor of [n] and is not matched through the cause of [n],
    which is nil: it is matched through the cause of the ancestor [p]. *)
Lemma C9_counterexample :
  (let '(h, base) := New [] "base" in
   let '(h, c) := New h "c" in
   let '(h, p) := WrapCause h base "p" (Some c) in
   Wrap h p "n") = (heap_C9, 3) /\
  exists h',
    ErrorexGo.Extra heap_C9 3 (Some 1) = Ok h' /\
    Is 9 h' 3 (Some 1) = Ok true /\
    1 <> 3 /\
    ~ Ancestor h' 1 (Some 3) /\
    Cause h' 3 = Ok None /\
    errors_Is 9 h' None (Some 1) = Ok false.
Proof.
  split; [reflexivity|].
  eexists. split; [reflexivity|]. repeat split; try done.
  intros H.
  inversion H as [|? H1]; subst. simpl in H1.
  inversion H1 as [|? H2]; subst. simpl in H2.
  inversion H2 as [|? H3]; subst. simpl in H3.
  inversion H3.
Qed.

(** C9, amended.  [Is] never consults the extra errors: appending [e] with
    [n.Extra(e)] changes no answer of [Is], and [n.Is(e)] is true only if
    [e] is [n] itself or is found from [n] through wrapped errors and causes
    (the causes of the ancestors of [n] included).  In particular an error
    allocated after [n] is not matched. *)
Theorem C9_Is_ignores_extra (h : heap) (n : loc) (e : error) :
  (forall h', ErrorexGo.Extra h n e = Ok h' ->
     (forall fuel l t, Is fuel h' l t = Is fuel h l t) /\
     (forall fuel, Is fuel h' n e = Ok true -> Matches h (Some n) e) /\
     (forall fuel x, heap_ok h -> n < x -> Is fuel h' n (Some x) <> Ok true)) /\
  (forall h' r, Part004.Extra h n e = Ok (h', r) ->
     r = n /\
     (forall fuel l t, Is fuel h' l t = Is fuel h l t) /\
     (forall fuel, Is fuel h' n e = Ok true -> Matches h (Some n) e) /\
     (forall fuel x, heap_ok h -> n < x -> Is fuel h' n (Some x) <> Ok true)).
Proof.
  split.
  - intros h' (v & Hn & ->)%ErrorexGo_Extra_Ok.
    destruct (Is_insert_extra h n v (extra v ++ [e]) Hn) as (H1 & H2 & H3).
    split; [done|]. split; [intros fuel; apply H2|intros fuel x; apply H3].
  - intros h' r (-> & v & Hn & ->)%Part004_Extra_Ok.
    destruct (Is_insert_extra h n v (extra v ++ [e]) Hn) as (H1 & H2 & H3).
    split; [done|]. split; [done|].
    split; [intros fuel; apply H2|intros fuel x; apply H3].
Qed.

Lemma C9_Is_ignores_extra_witness :
  exists h',
    ErrorexGo.Extra heap_C4 0 (Some 1) = Ok h' /\
    Is 9 h' 0 (Some 1) = Is 9 heap_C4 0 (Some 1) /\
    Is 9 h' 1 (Some 0) = Is 9 heap_C4 1 (Some 0) /\
    Is 9 h' 0 (Some 1) <> Ok true.
Proof.
  destruct (C9_Is_ignores_extra heap_C4 0 (Some 1)) as [H _].
  eexists. split; [reflexivity|].
  destruct (H _ eq_refl) as (H1 & _ & H3).
  split; [apply H1|]. split; [apply H1|].
  apply H3; [apply heap_C4_ok|lia].
Defined.

(** ** src/wrap.go *)

Lemma handleMethods_Ok (h : heap) (arg : error) (r : result string)
  (d : string) :
  r = Ok d -> handleMethods h arg r = Ok d.
Proof. by intros ->. Qed.

(** C5. [Wrap(err, message)] (the spec's [WrapMessage]) gives nil exactly
    when [err] is nil, [err] itself when [message] is empty, and otherwise a
    new error that displays ["<err>: <message>"] and unwraps to [err].
    [WrapCause(err, cause, message)] (the spec's [WrapWithCause]) gives nil
    exactly when [err] is nil, is [Wrap(err, message)] when [cause] is nil,
    and otherwise a new error that unwraps to [err] and displays
    ["<err>: <cause>"] for an empty message and
    ["<err>: <message>: <cause>"] else.  [E] is the [Error] method of the
    operands. *)
Theorem C5_wrap_functions (E : nat -> heap -> error -> result string)
  (fuel : nat) (h : heap) (e c : error) (message : string) :
  (* Wrap *)
  ((forall h' r, WrapGo.Wrap E fuel h e message = Ok (h', r) ->
      (r = None <-> e = None)) /\
   WrapGo.Wrap E fuel h None message = Ok (h, None) /\
   (e <> None -> WrapGo.Wrap E fuel h e "" = Ok (h, e)) /\
   (forall d, e <> None -> message <> "" -> E fuel h e = Ok d ->
      let msg := d +:+ ": " +:+ message in
      WrapGo.Wrap E fuel h e message =
        Ok (h ++ [wrapError msg e], Some (length h)) /\
      (forall f, ErrorexGo.error_Error (S f) (h ++ [wrapError msg e])
                   (Some (length h)) = Ok msg) /\
      (forall f, Part004.error_Error (S f) (h ++ [wrapError msg e])
                   (Some (length h)) = Ok msg) /\
      errors_Unwrap (h ++ [wrapError msg e]) (Some (length h)) = e)) /\
  (* WrapCause *)
  ((forall h' r, WrapGo.WrapCause E fuel h e c message = Ok (h', r) ->
      (r = None <-> e = None)) /\
   WrapGo.WrapCause E fuel h None c message = Ok (h, None) /\
   WrapGo.WrapCause E fuel h e None message = WrapGo.Wrap E fuel h e message /\
   (forall d dc, e <> None -> c <> None ->
      E fuel h e = Ok d -> E fuel h c = Ok dc ->
      let msg := if String.eqb message "" then d +:+ ": " +:+ dc
                 else d +:+ ": " +:+ message +:+ ": " +:+ dc in
      WrapGo.WrapCause E fuel h e c message =
        Ok (h ++ [wrapError msg e], Some (length h)) /\
      (forall f, ErrorexGo.error_Error (S f) (h ++ [wrapError msg e])
                   (Some (length h)) = Ok msg) /\
      (forall f, Part004.error_Error (S f) (h ++ [wrapError msg e])
                   (Some (length h)) = Ok msg) /\
      errors_Unwrap (h ++ [wrapError msg e]) (Some (length h)) = e)).
Proof.
  split.
  - split; [|split; [done|split]].
    + intros h' r. unfold WrapGo.Wrap.
      destruct e as [l|]; [|by intros [= _ <-]].
      destruct (String.eqb message ""); [by intros [= _ <-]|].
      destruct (handleMethods h (Some l) (E fuel h (Some l))); simpl; try done.
      by intros [= _ <-].
    + unfold WrapGo.Wrap. by destruct e.
    + intros d He Hm Hd msg. unfold WrapGo.Wrap.
      destruct e as [l|]; [|done].
      rewrite (eqb_nonempty _ Hm), (handleMethods_Ok _ _ _ _ Hd). simpl.
      split; [done|].
      repeat split; try intros f;
        rewrite ?ErrorexGo_error_Error_S, ?Part004_error_Error_S; simpl;
        by rewrite ?lookup_snoc_new.
  - split; [|split; [done|split; [|]]].
    + intros h' r. unfold WrapGo.WrapCause, WrapGo.Wrap.
      destruct e as [l|]; [|by intros [= _ <-]].
      destruct c as [lc|].
      * destruct (String.eqb message "");
          destruct (handleMethods h (Some l) (E fuel h (Some l))); simpl; try done;
          destruct (handleMethods h (Some lc) (E fuel h (Some lc))); simpl; try done;
          by intros [= _ <-].
      * destruct (String.eqb message ""); [by intros [= _ <-]|].
        destruct (handleMethods h (Some l) (E fuel h (Some l))); simpl; try done.
        by intros [= _ <-].
    + unfold WrapGo.WrapCause, WrapGo.Wrap.
      destruct e as [l|]; [|done]. by destruct (String.eqb message "").
    + intros d dc He Hc Hd Hdc msg. unfold WrapGo.WrapCause.
      destruct e as [l|]; [|done]. destruct c as [lc|]; [|done].
      rewrite (handleMethods_Ok _ _ _ _ Hd), (handleMethods_Ok _ _ _ _ Hdc).
      subst msg. destruct (String.eqb message ""); simpl;
        (split; [done|]);
        repeat split; try intros f;
        rewrite ?ErrorexGo_error_Error_S, ?Part004_error_Error_S; simpl;
        by rewrite ?lookup_snoc_new.
Qed.

Lemma C5_wrap_functions_witness :
  (exists h r, WrapGo.Wrap ErrorexGo.error_Error 2 heap_wrap (Some 0) "message"
                 = Ok (h, r) /\
               ErrorexGo.error_Error 2 h r = Ok "test: message" /\
               errors_Unwrap h r = Some 0) /\
  (exists h r, WrapGo.WrapCause ErrorexGo.error_Error 2 heap_wrap (Some 0)
                 (Some 1) "message" = Ok (h, r) /\
               ErrorexGo.error_Error 2 h r = Ok "test: message: cause" /\
               errors_Unwrap h r = Some 0) /\
  (exists h r, WrapGo.WrapCause ErrorexGo.error_Error 2 heap_wrap (Some 0)
                 (Some 1) "" = Ok (h, r) /\
               ErrorexGo.error_Error 2 h r = Ok "test: cause" /\
               errors_Unwrap h r = Some 0).
Proof.
  split; [|split].
  - destruct (C5_wrap_functions ErrorexGo.error_Error 2 heap_wrap (Some 0)
                None "message") as [(_ & _ & _ & H) _].
    destruct (H "test" ltac:(done) ltac:(done) eq_refl) as (H1 & H2 & _ & H3).
    eexists _, _. split; [exact H1|]. split; [exact (H2 1)|exact H3].
  - destruct (C5_wrap_functions ErrorexGo.error_Error 2 heap_wrap (Some 0)
                (Some 1) "message") as [_ (_ & _ & _ & H)].
    destruct (H "test" "cause" ltac:(done) ltac:(done) eq_refl eq_refl)
      as (H1 & H2 & _ & H3).
    eexists _, _. split; [exact H1|]. split; [exact (H2 1)|exact H3].
  - destruct (C5_wrap_functions ErrorexGo.error_Error 2 heap_wrap (Some 0)
                (Some 1) "") as [_ (_ & _ & _ & H)].
    destruct (H "test" "cause" ltac:(done) ltac:(done) eq_refl eq_refl)
      as (H1 & H2 & _ & H3).
    eexists _, _. split; [exact H1|]. split; [exact (H2 1)|exact H3].
Defined.

(** The message comes before the cause; the test of [WrapCause] kept in
    src/unnamed/part_003 expects the other order. *)
Lemma WrapGo_WrapCause_order :
  exists h r,
    WrapGo.WrapCause ErrorexGo.error_Error 2 heap_wrap (Some 0) (Some 1)
      "message" = Ok (h, r) /\
    ErrorexGo.error_Error 2 h r = Ok "test: message: cause" /\
    ErrorexGo.error_Error 2 h r <> Ok "test: cause: message".
Proof. eexists _, _. repeat split; [reflexivity..|discriminate]. Qed.

(** ** More fuel does not change a result *)

Lemma le_res_refl {A : Type} (r : result A) : le_res r r.
Proof. by right. Qed.

Lemma le_res_trans {A : Type} (r1 r2 r3 : result A) :
  le_res r1 r2 -> le_res r2 r3 -> le_res r1 r3.
Proof.
  intros [-> | H12] [H2|H23]; unfold le_res; subst; auto.
Qed.

Lemma le_res_OutOfFuel {A : Type} (r : result A) : le_res OutOfFuel r.
Proof. by left. Qed.

Lemma le_res_bind {A B : Type} (r r' : result A) (k k' : A -> result B) :
  le_res r r' -> (forall a, le_res (k a) (k' a)) ->
  le_res (r ≫= k) (r' ≫= k').
Proof.
  intros [-> | ->] Hk; [by left|].
  destruct r as [a| |]; simpl; [apply Hk|by right|by left].
Qed.

Lemma le_res_handleMethods (h : heap) (arg : error) (r r' : result string) :
  le_res r r' -> le_res (handleMethods h arg r) (handleMethods h arg r').
Proof. intros [-> | ->]; [by left|by right]. Qed.

Lemma le_res_range_extra (Err Err' : error -> result string) (sep : string)
  (exs : list error) (message : string) :
  (forall e, le_res (Err e) (Err' e)) ->
  le_res (range_extra Err sep exs message) (range_extra Err' sep exs message).
Proof.
  intros HE. revert message.
  induction exs as [|ex exs IH]; intros message; simpl; [apply le_res_refl|].
  apply le_res_bind; [apply HE|]. intros s. apply IH.
Qed.

Lemma le_res_Ok {A : Type} (r r' : result A) (a : A) :
  le_res r r' -> r = Ok a -> r' = Ok a.
Proof. intros [-> | ->]; [done|done]. Qed.

Lemma ErrorexGo_base_message_mono (h : heap)
  (Err Err' : error -> result string) (v : ErrorEx) :
  (forall e, le_res (Err e) (Err' e)) ->
  le_res (ErrorexGo.base_message h Err v) (ErrorexGo.base_message h Err' v).
Proof.
  intros HE. unfold ErrorexGo.base_message.
  destruct (cause v); [|apply le_res_refl].
  apply le_res_bind; [by apply le_res_handleMethods|].
  intros c. apply le_res_refl.
Qed.

Lemma Part004_base_message_mono (h : heap)
  (Err Err' : error -> result string) (v : ErrorEx) :
  (forall e, le_res (Err e) (Err' e)) ->
  le_res (Part004.base_message h Err v) (Part004.base_message h Err' v).
Proof.
  intros HE. unfold Part004.base_message.
  apply le_res_bind.
  - destruct (String.eqb (txt v) ""); [|apply le_res_refl].
    destruct (err v); [apply HE|apply le_res_refl].
  - intros m. destruct (cause v); [|apply le_res_refl].
    apply le_res_bind; [by apply le_res_handleMethods|].
    intros c. apply le_res_refl.
Qed.

Lemma ErrorexGo_mono_S (h : heap) (fuel : nat) :
  (forall e, le_res (ErrorexGo.error_Error fuel h e)
                    (ErrorexGo.error_Error (S fuel) h e)) /\
  (forall l, le_res (ErrorexGo.Error fuel h l) (ErrorexGo.Error (S fuel) h l)) /\
  (forall e acc, le_res (ErrorexGo.wrap_stack fuel h e acc)
                        (ErrorexGo.wrap_stack (S fuel) h e acc)).
Proof.
  induction fuel as [|f (IHe & IHE & IHw)];
    [repeat split; intros; apply le_res_OutOfFuel|].
  split; [|split].
  - intros e. rewrite !ErrorexGo_error_Error_S.
    destruct e as [l|]; [|apply le_res_refl].
    destruct (h !! l) as [[s|msg e'|v|]|]; try apply le_res_refl. apply IHE.
  - intros l. rewrite !ErrorexGo_Error_S.
    apply le_res_bind; [apply le_res_refl|]. intros v.
    apply le_res_bind; [by apply ErrorexGo_base_message_mono|]. intros m.
    apply le_res_bind; [apply IHw|]. intros stack.
    by apply le_res_range_extra.
  - intros e acc. rewrite !ErrorexGo_wrap_stack_S.
    destruct e as [l|]; [|apply le_res_refl].
    destruct (h !! l) as [[s|msg e'|v|]|]; try apply le_res_refl.
    destruct (cause v).
    + apply le_res_bind; [apply IHe|]. intros s. apply IHw.
    + destruct (fmt v); apply IHw.
Qed.

Lemma Part004_mono_S (h : heap) (fuel : nat) :
  (forall e, le_res (Part004.error_Error fuel h e)
                    (Part004.error_Error (S fuel) h e)) /\
  (forall l, le_res (Part004.Error fuel h l) (Part004.Error (S fuel) h l)) /\
  (forall e acc, le_res (Part004.wrap_stack fuel h e acc)
                        (Part004.wrap_stack (S fuel) h e acc)).
Proof.
  induction fuel as [|f (IHe & IHE & IHw)];
    [repeat split; intros; apply le_res_OutOfFuel|].
  split; [|split].
  - intros e. rewrite !Part004_error_Error_S.
    destruct e as [l|]; [|apply le_res_refl].
    destruct (h !! l) as [[s|msg e'|v|]|]; try apply le_res_refl. apply IHE.
  - intros l. rewrite !Part004_Error_S.
    apply le_res_bind; [apply le_res_refl|]. intros v.
    apply le_res_bind; [by apply Part004_base_message_mono|]. intros m.
    apply le_res_bind; [apply IHw|]. intros stack.
    apply le_res_bind; [by apply le_res_range_extra|]. intros x.
    apply le_res_refl.
  - intros e acc. rewrite !Part004_wrap_stack_S.
    destruct e as [l|]; [|apply le_res_refl].
    destruct (h !! l) as [[s|msg e'|v|]|]; try apply le_res_refl.
    destruct (fmt v || (String.length (txt v) =? 0)); [apply IHw|].
    apply le_res_bind; [by apply le_res_range_extra|]. intros x.
    cbv zeta. destruct (cause v); [|apply IHw].
    apply le_res_bind; [apply IHe|]. intros c. apply IHw.
Qed.

Lemma Part004_error_Error_mono (h : heap) (fuel fuel' : nat) (e : error) :
  fuel <= fuel' ->
  le_res (Part004.error_Error fuel h e) (Part004.error_Error fuel' h e).
Proof.
  induction 1 as [|m _ IH]; [apply le_res_refl|].
  eapply le_res_trans; [exact IH|]. apply Part004_mono_S.
Qed.

Lemma Part004_wrap_stack_mono (h : heap) (fuel fuel' : nat) (e : error)
  (acc : list string) :
  fuel <= fuel' ->
  le_res (Part004.wrap_stack fuel h e acc) (Part004.wrap_stack fuel' h e acc).
Proof.
  induction 1 as [|m _ IH]; [apply le_res_refl|].
  eapply le_res_trans; [exact IH|]. apply Part004_mono_S.
Qed.

Lemma Part004_Error_mono (h : heap) (fuel fuel' : nat) (l : loc) :
  fuel <= fuel' ->
  le_res (Part004.Error fuel h l) (Part004.Error fuel' h l).
Proof.
  induction 1 as [|m _ IH]; [apply le_res_refl|].
  eapply le_res_trans; [exact IH|]. apply Part004_mono_S.
Qed.

Lemma ErrorexGo_error_Error_mono (h : heap) (fuel fuel' : nat) (e : error) :
  fuel <= fuel' ->
  le_res (ErrorexGo.error_Error fuel h e) (ErrorexGo.error_Error fuel' h e).
Proof.
  induction 1 as [|m _ IH]; [apply le_res_refl|].
  eapply le_res_trans; [exact IH|]. apply ErrorexGo_mono_S.
Qed.

Lemma ErrorexGo_Error_mono (h : heap) (fuel fuel' : nat) (l : loc) :
  fuel <= fuel' ->
  le_res (ErrorexGo.Error fuel h l) (ErrorexGo.Error fuel' h l).
Proof.
  induction 1 as [|m _ IH]; [apply le_res_refl|].
  eapply le_res_trans; [exact IH|]. apply ErrorexGo_mono_S.
Qed.

Lemma Part004_extrastring_mono (h : heap) (fuel fuel' : nat) (v : ErrorEx) :
  fuel <= fuel' ->
  le_res (Part004.extrastring (Part004.error_Error fuel h) v)
         (Part004.extrastring (Part004.error_Error fuel' h) v).
Proof.
  intros Hf. apply le_res_range_extra. intros e.
  by apply Part004_error_Error_mono.
Qed.

Lemma Is_mono_S (h : heap) (fuel : nat) :
  (forall e t, le_res (errors_Is fuel h e t) (errors_Is (S fuel) h e t)) /\
  (forall l t, le_res (Is fuel h l t) (Is (S fuel) h l t)) /\
  (forall l t c, le_res (is_ fuel h l t c) (is_ (S fuel) h l t c)).
Proof.
  induction fuel as [|f (IHe & IHI & IHi)];
    [repeat split; intros; apply le_res_OutOfFuel|].
  split; [|split].
  - intros e t. rewrite !errors_Is_S.
    destruct t as [t|]; [|apply le_res_refl].
    destruct e as [l|]; [|apply le_res_refl].
    case_bool_decide; [apply le_res_refl|].
    destruct (h !! l) as [[s|msg e'|v|]|]; try apply le_res_refl.
    + apply IHe.
    + apply le_res_bind; [apply IHI|].
      intros [|]; [apply le_res_refl|apply IHe].
  - intros l t. rewrite !Is_S.
    apply le_res_bind; [apply le_res_refl|]. intros v. apply IHi.
  - intros l t c. rewrite !is_S.
    apply le_res_bind; [apply le_res_refl|]. intros v. cbv zeta.
    apply le_res_bind.
    { case_bool_decide; [apply le_res_refl|apply IHe]. }
    intros [|]; [apply le_res_refl|apply IHe].
Qed.

Lemma Is_mono (h : heap) (fuel fuel' : nat) (l : loc) (t : error) :
  fuel <= fuel' -> le_res (Is fuel h l t) (Is fuel' h l t).
Proof.
  induction 1 as [|m _ IH]; [apply le_res_refl|].
  eapply le_res_trans; [exact IH|]. apply Is_mono_S.
Qed.

(** A rendering does not depend on the fuel that produced it. *)
Lemma renders_det (h : heap) (e : error) (s s' : string) :
  renders h e s -> renders h e s' -> s = s'.
Proof.
  intros [f1 H1] [f2 H2].
  pose proof (le_res_Ok _ _ _
    (Part004_error_Error_mono h f1 (max f1 f2) e ltac:(lia)) H1) as H1'.
  pose proof (le_res_Ok _ _ _
    (Part004_error_Error_mono h f2 (max f1 f2) e ltac:(lia)) H2) as H2'.
  congruence.
Qed.

Lemma ErrorexGo_Error_det (h : heap) (l : loc) (f1 f2 : nat) (s s' : string) :
  ErrorexGo.Error f1 h l = Ok s -> ErrorexGo.Error f2 h l = Ok s' -> s = s'.
Proof.
  intros H1 H2.
  pose proof (le_res_Ok _ _ _
    (ErrorexGo_Error_mono h f1 (max f1 f2) l ltac:(lia)) H1) as H1'.
  pose proof (le_res_Ok _ _ _
    (ErrorexGo_Error_mono h f2 (max f1 f2) l ltac:(lia)) H2) as H2'.
  congruence.
Qed.

Lemma Part004_Error_det (h : heap) (l : loc) (f1 f2 : nat) (s s' : string) :
  Part004.Error f1 h l = Ok s -> Part004.Error f2 h l = Ok s' -> s = s'.
Proof.
  intros H1 H2.
  pose proof (le_res_Ok _ _ _
    (Part004_Error_mono h f1 (max f1 f2) l ltac:(lia)) H1) as H1'.
  pose proof (le_res_Ok _ _ _
    (Part004_Error_mono h f2 (max f1 f2) l ltac:(lia)) H2) as H2'.
  congruence.
Qed.

(** ** The wrap stack of the later revision *)

Lemma append_to_last_snoc (acc : list string) (y s : string) :
  Part004.append_to_last (acc ++ [y]) s = acc ++ [y +:+ s].
Proof.
  unfold Part004.append_to_last. rewrite length_app. simpl.
  replace (length acc + 1 - 1) with (length acc) by lia.
  exact (alter_snoc (fun x => x +:+ s) acc y).
Qed.

Lemma skipped_test (v : ErrorEx) :
  fmt v || (String.length (txt v) =? 0) = true <-> skipped v.
Proof.
  unfold skipped. destruct (fmt v); simpl; [by split; [left|]|].
  destruct (txt v); simpl.
  - by split; [right|].
  - split; [done|]. by intros [H|H].
Qed.

Lemma wrap_stack_kept (h : heap) (fuel : nat) :
  forall e acc stk,
    Part004.wrap_stack fuel h e acc = Ok stk ->
    exists ks stk', stk = acc ++ stk' /\ kept h e ks /\
                    Forall2 (stack_entry h) ks stk'.
Proof.
  induction fuel as [|f IH]; intros e acc stk; [done|].
  rewrite Part004_wrap_stack_S.
  destruct e as [l|].
  2:{ intros [= <-]. exists [], []. rewrite app_nil_r.
      split; [done|]. split; [by constructor|constructor]. }
  destruct (h !! l) as [o|] eqn:Hl.
  2:{ intros [= <-]. exists [], []. rewrite app_nil_r.
      split; [done|]. split; [|constructor].
      constructor; [intros ?? [= <-]|intros ? [= <-]]; by rewrite Hl. }
  destruct o as [s|msg e'|v|]; [| | |done].
  1,2: intros [= <-]; exists [], []; rewrite app_nil_r;
       (split; [done|]); (split; [|constructor]);
       (constructor; [intros ?? [= <-]|intros ? [= <-]]); by rewrite Hl.
  destruct (fmt v || (String.length (txt v) =? 0)) eqn:Hs.
  - intros (ks & stk' & -> & Hk & HF)%IH.
    exists ks, stk'. split; [done|]. split; [|done].
    eapply kept_skip; [done|by apply skipped_test|done].
  - assert (~ skipped v) as Hns.
    { intros H%skipped_test. congruence. }
    destruct (Part004.extrastring (Part004.error_Error f h) v) as [x| |] eqn:Hx;
      simpl; try done.
    destruct (cause v) as [c|] eqn:Hc.
    + destruct (Part004.error_Error f h (Some c)) as [cs| |] eqn:Hcs;
        simpl; try done.
      rewrite append_to_last_snoc.
      intros (ks & stk' & -> & Hk & HF)%IH.
      exists (v :: ks), (((txt v +:+ x) +:+ " < " +:+ cs) :: stk').
      split; [by rewrite <- app_assoc|]. split; [by eapply kept_push|].
      constructor; [|done].
      apply stack_entry_cause; [congruence|by exists f|].
      exists f. by rewrite Hc.
    + intros (ks & stk' & -> & Hk & HF)%IH.
      exists (v :: ks), ((txt v +:+ x) :: stk').
      split; [by rewrite <- app_assoc|]. split; [by eapply kept_push|].
      constructor; [|done].
      apply stack_entry_plain; [done|by exists f].
Qed.

Lemma kept_wrap_stack (h : heap) (e : error) (ks : list ErrorEx) :
  kept h e ks ->
  forall stk', Forall2 (stack_entry h) ks stk' ->
  exists fuel0, forall fuel acc,
    fuel0 <= fuel -> Part004.wrap_stack fuel h e acc = Ok (acc ++ stk').
Proof.
  induction 1 as [e He Hn|l v ks Hl Hs Hk IH|l v ks Hl Hs Hk IH]; intros stk' HF.
  - inversion HF; subst. exists 1. intros [|f] acc Hf; [lia|].
    rewrite Part004_wrap_stack_S, app_nil_r.
    destruct e as [l|]; [|done].
    destruct (h !! l) as [[s|msg e'|v|]|] eqn:Hl; try done.
    + by destruct (He l v eq_refl).
    + by destruct (Hn l eq_refl).
  - destruct (IH _ HF) as [fuel0 H0]. exists (S fuel0).
    intros [|f] acc Hf; [lia|].
    rewrite Part004_wrap_stack_S, Hl.
    rewrite (proj2 (skipped_test v) Hs). apply H0. lia.
  - inversion HF as [|? s ? stk'' Hentry HF']; subst.
    destruct (IH _ HF') as [fuel0 H0].
    assert (fmt v || (String.length (txt v) =? 0) = false) as Hns.
    { destruct (fmt v || (String.length (txt v) =? 0)) eqn:E; [|done].
      by apply skipped_test in E. }
    inversion Hentry as [x Hc [fx Hx]|x c Hc [fx Hx] [fc Hcs]]; subst.
    + exists (S (max fuel0 fx)). intros [|f] acc Hf; [lia|].
      rewrite Part004_wrap_stack_S, Hl, Hns.
      rewrite (le_res_Ok _ _ _ (Part004_extrastring_mono h fx f v ltac:(lia)) Hx).
      simpl. rewrite Hc, H0 by lia. by rewrite <- app_assoc.
    + exists (S (max fuel0 (max fx fc))). intros [|f] acc Hf; [lia|].
      rewrite Part004_wrap_stack_S, Hl, Hns.
      rewrite (le_res_Ok _ _ _ (Part004_extrastring_mono h fx f v ltac:(lia)) Hx).
      simpl. destruct (cause v) as [c'|] eqn:Hc'; [|done].
      rewrite (le_res_Ok _ _ _
                 (Part004_error_Error_mono h fc f (Some c') ltac:(lia)) Hcs).
      simpl. rewrite append_to_last_snoc, H0 by lia. by rewrite <- app_assoc.
Qed.

(** C3. The walk over the wrapped ancestors leaves out every ancestor that
    is a format placeholder or has an empty text, and every ancestor it
    keeps contributes exactly one entry: its stacked text, to which
    [" < "] and the rendered cause are appended when it has a cause.  The
    walk returns that stack whenever the pieces render. *)
Theorem C3_wrap_stack (h : heap) (e : error) :
  (forall fuel acc stk,
     Part004.wrap_stack fuel h e acc = Ok stk ->
     exists ks stk', stk = acc ++ stk' /\ kept h e ks /\
                     Forall2 (stack_entry h) ks stk') /\
  (forall ks stk',
     kept h e ks -> Forall2 (stack_entry h) ks stk' ->
     exists fuel0, forall fuel acc,
       fuel0 <= fuel -> Part004.wrap_stack fuel h e acc = Ok (acc ++ stk')).
Proof.
  split.
  - intros fuel. apply wrap_stack_kept.
  - intros ks stk' Hk HF. by eapply kept_wrap_stack.
Qed.

Lemma C3_wrap_stack_witness :
  exists ks,
    kept heap_C3 (Some 4) ks /\
    length ks = 2 /\
    Forall2 (stack_entry heap_C3) ks ["base error < basecause"; "base"] /\
    Part004.wrap_stack 8 heap_C3 (Some 4) [] =
      Ok ["base error < basecause"; "base"].
Proof.
  destruct (C3_wrap_stack heap_C3 (Some 4)) as [H _].
  destruct (H 8 [] ["base error < basecause"; "base"] eq_refl)
    as (ks & stk' & Hs & Hk & HF).
  simpl in Hs. subst stk'. exists ks.
  split; [done|]. split; [|by split].
  by apply Forall2_length in HF.
Defined.

(** The earlier revision keeps the ancestor with the empty text and pushes
    the rendered cause as an entry of its own. *)
Lemma ErrorexGo_wrap_stack_cause_entry :
  ErrorexGo.wrap_stack 8 heap_C3 (Some 4) [] =
    Ok [""; "basecause"; "base error"; "base"] /\
  ErrorexGo.Error 9 heap_C3 5 = Ok "base: base error; basecause;  > head" /\
  Part004.Error 9 heap_C3 5 = Ok "base: base error < basecause > head".
Proof. repeat split. Qed.

(** ** No fault *)

Lemma range_extra_total (Err : error -> result string) (sep : string)
  (exs : list error) :
  Forall (fun e => exists s, Err e = Ok s) exs ->
  forall message, exists s, range_extra Err sep exs message = Ok s.
Proof.
  induction 1 as [|ex exs [s Hs] _ IH]; intros message; simpl; [by eexists|].
  rewrite Hs. simpl. apply IH.
Qed.

(** With all links and extra errors leading to allocated objects of smaller
    rank, rendering returns. *)
Lemma ErrorexGo_total (rk : loc -> nat) (h : heap) :
  links_ok rk h -> extras_ok rk h ->
  forall n,
    (forall e fuel, e <> None -> rank_of rk e <= n -> allocated h e ->
       2 * n + 1 <= fuel -> exists s, ErrorexGo.error_Error fuel h e = Ok s) /\
    (forall l v fuel, h !! l = Some (ErrorExV v) -> rk l < n ->
       2 * n <= fuel -> exists s, ErrorexGo.Error fuel h l = Ok s) /\
    (forall e fuel acc, rank_of rk e <= n -> allocated h e ->
       2 * n + 1 <= fuel ->
       exists stk, ErrorexGo.wrap_stack fuel h e acc = Ok stk).
Proof.
  intros Hlk Hex. induction n as [|n (IHe & IHE & IHw)].
  - split; [|split].
    + intros [l|] fuel He Hr; simpl in Hr; [lia|done].
    + intros l v fuel _ Hr. lia.
    + intros [l|] fuel acc Hr _ Hf; simpl in Hr; [lia|].
      destruct fuel as [|f]; [lia|]. by eexists.
  - assert (forall l v fuel, h !! l = Some (ErrorExV v) -> rk l < S n ->
              2 * S n <= fuel -> exists s, ErrorexGo.Error fuel h l = Ok s)
      as HE.
    { intros l v fuel Hl Hr Hf. destruct fuel as [|f]; [lia|].
      rewrite ErrorexGo_Error_S, (deref_Some _ _ _ Hl). simpl.
      pose proof (links_ok_ErrorEx _ _ _ _ Hlk Hl) as
        [[Hae Hre]%link_ok_rank [Hac Hrc]%link_ok_rank].
      assert (exists m, ErrorexGo.base_message h (ErrorexGo.error_Error f h) v
                        = Ok m) as [m ->].
      { unfold ErrorexGo.base_message. destruct (cause v) as [c|] eqn:Hc;
          [|by eexists].
        destruct (IHe (Some c) f) as [s ->]; [done|lia|done|lia|].
        simpl. by eexists. }
      simpl.
      destruct (IHw (err v) f []) as [stk ->]; [lia|done|lia|]. simpl.
      apply range_extra_total.
      eapply Forall_impl; [|exact (Hex _ _ Hl)].
      intros ex [Hne [Ha Hr']%link_ok_rank]. simpl in Hr'.
      apply IHe; [done|lia|done|lia]. }
    split; [|split; [exact HE|]].
    + intros [l|] fuel He Hr Ha Hf; [|done]. simpl in Hr, Ha.
      destruct fuel as [|f]; [lia|]. rewrite ErrorexGo_error_Error_S.
      destruct (lookup_lt_is_Some_2 h l Ha) as [o Hl]. rewrite Hl.
      destruct o as [s|msg e'|v|];
        [by eexists|by eexists| |by destruct (links_ok_not_nil _ _ _ Hlk Hl)].
      eapply HE; [done|lia|lia].
    + intros e fuel acc Hr Ha Hf. destruct fuel as [|f]; [lia|].
      rewrite ErrorexGo_wrap_stack_S.
      destruct e as [l|]; [|by eexists]. simpl in Hr, Ha.
      destruct (lookup_lt_is_Some_2 h l Ha) as [o Hl]. rewrite Hl.
      destruct o as [s|msg e'|v|];
        [by eexists|by eexists| |by destruct (links_ok_not_nil _ _ _ Hlk Hl)].
      pose proof (links_ok_ErrorEx _ _ _ _ Hlk Hl) as
        [[Hae Hre]%link_ok_rank [Hac Hrc]%link_ok_rank].
      destruct (cause v) as [c|] eqn:Hc.
      * destruct (IHe (Some c) f) as [s ->]; [done|lia|done|lia|]. simpl.
        apply IHw; [lia|done|lia].
      * destruct (fmt v); apply IHw; (lia || done).
Qed.

Lemma Part004_total (rk : loc -> nat) (h : heap) :
  links_ok rk h -> extras_ok rk h ->
  forall n,
    (forall e fuel, e <> None -> rank_of rk e <= n -> allocated h e ->
       2 * n + 1 <= fuel -> exists s, Part004.error_Error fuel h e = Ok s) /\
    (forall l v fuel, h !! l = Some (ErrorExV v) -> rk l < n ->
       2 * n <= fuel -> exists s, Part004.Error fuel h l = Ok s) /\
    (forall e fuel acc, rank_of rk e <= n -> allocated h e ->
       2 * n + 1 <= fuel ->
       exists stk, Part004.wrap_stack fuel h e acc = Ok stk).
Proof.
  intros Hlk Hex. induction n as [|n (IHe & IHE & IHw)].
  - split; [|split].
    + intros [l|] fuel He Hr; simpl in Hr; [lia|done].
    + intros l v fuel _ Hr. lia.
    + intros [l|] fuel acc Hr _ Hf; simpl in Hr; [lia|].
      destruct fuel as [|f]; [lia|]. by eexists.
  - assert (forall l v f, h !! l = Some (ErrorExV v) -> rk l <= n ->
              2 * n + 1 <= f ->
              exists x, Part004.extrastring (Part004.error_Error f h) v = Ok x)
      as HX.
    { intros l v f Hl Hr Hf. apply range_extra_total.
      eapply Forall_impl; [|exact (Hex _ _ Hl)].
      intros ex [Hne [Ha Hr']%link_ok_rank]. simpl in Hr'.
      apply IHe; [done|lia|done|lia]. }
    assert (forall l v fuel, h !! l = Some (ErrorExV v) -> rk l < S n ->
              2 * S n <= fuel -> exists s, Part004.Error fuel h l = Ok s)
      as HE.
    { intros l v fuel Hl Hr Hf. destruct fuel as [|f]; [lia|].
      rewrite Part004_Error_S, (deref_Some _ _ _ Hl). simpl.
      pose proof (links_ok_ErrorEx _ _ _ _ Hlk Hl) as
        [[Hae Hre]%link_ok_rank [Hac Hrc]%link_ok_rank].
      assert (exists m, Part004.base_message h (Part004.error_Error f h) v
                        = Ok m) as [m ->].
      { unfold Part004.base_message.
        assert (exists m0,
                  (if String.eqb (txt v) "" then
                     match err v with
                     | Some _ => Part004.error_Error f h (err v)
                     | None => Ok ""
                     end
                   else Ok "") = Ok m0) as [m0 ->].
        { destruct (String.eqb (txt v) ""); [|by eexists].
          destruct (err v) as [p|] eqn:Hp; [|by eexists].
          apply IHe; [done|lia|done|lia]. }
        simpl. destruct (cause v) as [c|] eqn:Hc; [|by eexists].
        destruct (IHe (Some c) f) as [s ->]; [done|lia|done|lia|].
        simpl. by eexists. }
      simpl.
      destruct (IHw (err v) f []) as [stk ->]; [lia|done|lia|]. simpl.
      destruct (HX l v f Hl) as [x ->]; [lia|lia|]. simpl. by eexists. }
    split; [|split; [exact HE|]].
    + intros [l|] fuel He Hr Ha Hf; [|done]. simpl in Hr, Ha.
      destruct fuel as [|f]; [lia|]. rewrite Part004_error_Error_S.
      destruct (lookup_lt_is_Some_2 h l Ha) as [o Hl]. rewrite Hl.
      destruct o as [s|msg e'|v|];
        [by eexists|by eexists| |by destruct (links_ok_not_nil _ _ _ Hlk Hl)].
      eapply HE; [done|lia|lia].
    + intros e fuel acc Hr Ha Hf. destruct fuel as [|f]; [lia|].
      rewrite Part004_wrap_stack_S.
      destruct e as [l|]; [|by eexists]. simpl in Hr, Ha.
      destruct (lookup_lt_is_Some_2 h l Ha) as [o Hl]. rewrite Hl.
      destruct o as [s|msg e'|v|];
        [by eexists|by eexists| |by destruct (links_ok_not_nil _ _ _ Hlk Hl)].
      pose proof (links_ok_ErrorEx _ _ _ _ Hlk Hl) as
        [[Hae Hre]%link_ok_rank [Hac Hrc]%link_ok_rank].
      destruct (fmt v || (String.length (txt v) =? 0));
        [apply IHw; (lia || done)|].
      destruct (HX l v f Hl) as [x ->]; [lia|lia|]. simpl.
      destruct (cause v) as [c|] eqn:Hc.
      * destruct (IHe (Some c) f) as [s ->]; [done|lia|done|lia|]. simpl.
        apply IHw; [lia|done|lia].
      * apply IHw; (lia || done).
Qed.

Lemma errors_Unwrap_rank (rk : loc -> nat) (h : heap) (l : loc) :
  links_ok rk h ->
  allocated h (errors_Unwrap h (Some l)) /\
  rank_of rk (errors_Unwrap h (Some l)) <= rk l.
Proof.
  intros Hlk. simpl.
  destruct (h !! l) as [[s|msg e|v|]|] eqn:Hl; simpl; try (split; [done|lia]).
  - by apply link_ok_rank, (links_ok_wrapError _ _ _ _ _ Hlk Hl).
  - by apply link_ok_rank, (links_ok_ErrorEx _ _ _ _ Hlk Hl).
Qed.

Lemma AnyData_loop_total (rk : loc -> nat) (h : heap) :
  links_ok rk h ->
  forall n e d fuel, rank_of rk e <= n -> n + 1 <= fuel ->
    exists r, Part004.AnyData_loop fuel h e d = Ok r.
Proof.
  intros Hlk. induction n as [|n IH]; intros e d fuel Hr Hf.
  - destruct e as [l|]; simpl in Hr; [lia|].
    destruct fuel as [|f]; [lia|]. by eexists.
  - destruct fuel as [|f]; [lia|].
    destruct e as [l|]; [|by eexists]. simpl in Hr.
    destruct (errors_Unwrap_rank rk h l Hlk) as [_ Hu].
    cbn [Part004.AnyData_loop].
    destruct (h !! l) as [[s|msg e|v|]|] eqn:Hl.
    1,2,5: apply IH; lia.
    2: by destruct (links_ok_not_nil _ _ _ Hlk Hl).
    destruct (data v); [by eexists|]. apply IH; lia.
Qed.

Lemma Is_nil_total (h : heap) (l : loc) (v : ErrorEx) (fuel : nat) :
  h !! l = Some (ErrorExV v) -> 3 <= fuel ->
  exists b, Is fuel h l None = Ok b.
Proof.
  intros Hl Hf. destruct fuel as [|[|[|f]]]; try lia.
  rewrite Is_S, (deref_Some _ _ _ Hl). simpl.
  rewrite is_S, (deref_Some _ _ _ Hl). simpl.
  rewrite ?errors_Is_S. simpl.
  destruct (bool_decide (err v = None)); simpl; by eexists.
Qed.

(** C8, as the specification words it, fails: after [a.Extra(nil)] the call
    [a.Error()] panics, in both revisions. *)
Lemma C8_counterexample :
  ErrorexGo.Extra (New [] "a").1 0 None = Ok heap_nil_extra /\
  Part004.Extra (New [] "a").1 0 None = Ok (heap_nil_extra, 0) /\
  (forall k, ErrorexGo.Error (2 + k) heap_nil_extra 0 = Panic) /\
  (forall k, Part004.Error (2 + k) heap_nil_extra 0 = Panic).
Proof. repeat split. Qed.

(** After [a.Extra(a)] the call [a.Error()] never returns. *)
Lemma Error_self_extra (fuel : nat) :
  ErrorexGo.Extra (New [] "a").1 0 (Some 0) = Ok heap_self_extra /\
  ErrorexGo.error_Error fuel heap_self_extra (Some 0) = OutOfFuel /\
  ErrorexGo.Error fuel heap_self_extra 0 = OutOfFuel.
Proof.
  split; [done|]. induction fuel as [|f [IHe IHE]]; [done|].
  split.
  - rewrite ErrorexGo_error_Error_S. simpl. exact IHE.
  - rewrite ErrorexGo_Error_S. simpl.
    destruct f as [|f]; [done|].
    rewrite ErrorexGo_wrap_stack_S. simpl. by rewrite IHe.
Qed.

(** A result reached with some fuel is the result with more. *)
Lemma le_res_val {A : Type} (r r' v : result A) :
  le_res r r' -> r = v -> v <> OutOfFuel -> r' = v.
Proof. intros [-> | ->] <- Hv; [done|done]. Qed.

Ltac fuel_val mono Hk :=
  eapply le_res_val; [apply mono; exact Hk|vm_compute; reflexivity|discriminate].

(** A nil [*ErrorEx] in use faults as well.  With [var np *ErrorEx],
    [b := New("b")], [x := b.WrapCause("m", np)] and [d := x.Wrap("d")]:
    [x.Error()] returns, fmt printing ["<nil>"] for the cause, but [x.Is(d)]
    panics, since [errors.Is] calls the method [Is] of the cause, and
    [d.Error()] panics, since the walk calls the method [Error] of the
    cause of [x].  Every method that reads a field panics on the receiver
    [np]; [np.Wrap] returns.  After [b.Extra(np)] the call [b.Error()]
    panics. *)
Lemma nil_pointer_faults (k : nat) :
  (let '(h, b) := New [nilErrorEx] "b" in
   let '(h, x) := WrapCause h b "m" (Some 0) in
   Wrap h x "d") = (heap_np, 3) /\
  (ErrorexGo.Error (9 + k) heap_np 2 = Ok "b: m < <nil>" /\
   Part004.Error (9 + k) heap_np 2 = Ok "b: m < <nil>" /\
   Is (9 + k) heap_np 2 (Some 3) = Panic /\
   ErrorexGo.Error (9 + k) heap_np 3 = Panic /\
   Part004.Error (9 + k) heap_np 3 = Panic) /\
  (ErrorexGo.Error (9 + k) heap_np 0 = Panic /\
   Part004.Error (9 + k) heap_np 0 = Panic /\
   Is (9 + k) heap_np 0 (Some 1) = Panic /\
   Part004.AnyData (9 + k) heap_np 0 = Panic /\
   Unwrap heap_np 0 = Panic /\ Cause heap_np 0 = Panic /\
   Data heap_np 0 = Panic /\ Extras heap_np 0 = Panic /\
   ErrorexGo.WrapArgs heap_np 0 [] = Panic /\
   Part004.WrapArgs heap_np 0 [] = Panic /\
   ErrorexGo.Extra heap_np 0 None = Panic /\
   (Wrap heap_np 0 "m").2 = 4) /\
  (exists h',
     ErrorexGo.Extra heap_np 1 (Some 0) = Ok h' /\
     ErrorexGo.Error (9 + k) h' 1 = Panic /\
     Part004.Error (9 + k) h' 1 = Panic).
Proof.
  assert (9 <= 9 + k) as Hk by lia.
  split; [done|]. split; [|split].
  - split; [|split; [|split; [|split]]].
    + fuel_val ErrorexGo_Error_mono Hk.
    + fuel_val Part004_Error_mono Hk.
    + fuel_val Is_mono Hk.
    + fuel_val ErrorexGo_Error_mono Hk.
    + fuel_val Part004_Error_mono Hk.
  - split; [|split; [|split; [|split; [|by repeat split]]]].
    + fuel_val ErrorexGo_Error_mono Hk.
    + fuel_val Part004_Error_mono Hk.
    + fuel_val Is_mono Hk.
    + change (9 + k) with (S (8 + k)). reflexivity.
  - eexists. split; [reflexivity|]. split.
    + fuel_val ErrorexGo_Error_mono Hk.
    + fuel_val Part004_Error_mono Hk.
Qed.

(** C8, amended.  Provided no nil [*ErrorEx] is in use (the heap holds
    objects only, and the receiver is one of them), every extra error is a
    non-nil pointer and the links and extra errors are acyclic (they lead
    to objects of smaller rank), no operation on a node faults: [Error] and
    [Is] return in both revisions, the accessors and [AnyData] return, and
    the derivations with arguments return whatever the arguments and the
    cause are. *)
Theorem C8_no_fault (rk : loc -> nat) (h : heap) (l : loc) (v : ErrorEx) :
  links_ok rk h -> extras_ok rk h -> h !! l = Some (ErrorExV v) ->
  (forall fuel, 2 * rk l + 2 <= fuel ->
     (exists s, ErrorexGo.Error fuel h l = Ok s) /\
     (exists s, Part004.Error fuel h l = Ok s)) /\
  (forall t fuel, 3 * rk l + 3 <= fuel -> exists b, Is fuel h l t = Ok b) /\
  (forall fuel, rk l + 2 <= fuel -> exists d, Part004.AnyData fuel h l = Ok d) /\
  (Unwrap h l = Ok (err v) /\ Cause h l = Ok (cause v) /\
   Data h l = Ok (data v) /\ Extras h l = Ok (extra v)) /\
  (forall c d args,
     (exists r, ErrorexGo.WrapArgs h l args = Ok r) /\
     (exists r, ErrorexGo.WrapCauseArgs h l c args = Ok r) /\
     (exists r, ErrorexGo.WrapDataArgs h l d args = Ok r) /\
     (exists r, Part004.WrapArgs h l args = Ok r) /\
     (exists r, Part004.WrapCauseArgs h l c args = Ok r) /\
     (exists r, Part004.WrapDataArgs h l d args = Ok r)) /\
  (forall e, (exists h', ErrorexGo.Extra h l e = Ok h') /\
             (exists r, Part004.Extra h l e = Ok r)).
Proof.
  intros Hlk Hex Hl.
  split; [|split; [|split]].
  - intros fuel Hf.
    destruct (ErrorexGo_total rk h Hlk Hex (S (rk l))) as (_ & HE & _).
    destruct (Part004_total rk h Hlk Hex (S (rk l))) as (_ & HE4 & _).
    split; [eapply HE|eapply HE4]; (done || lia).
  - intros [t|] fuel Hf.
    + destruct (Is_complete rk h l v t fuel Hlk Hl Hf) as (b & Hb & _).
      by exists b.
    + eapply Is_nil_total; [done|lia].
  - intros fuel Hf. unfold Part004.AnyData.
    eapply (AnyData_loop_total rk h Hlk (S (rk l))); simpl; lia.
  - unfold Unwrap, Cause, Data, Extras, ErrorexGo.WrapArgs,
      ErrorexGo.WrapCauseArgs, ErrorexGo.WrapDataArgs, ErrorexGo.Extra,
      Part004.WrapArgs, Part004.WrapCauseArgs, Part004.WrapDataArgs,
      Part004.Extra.
    rewrite (deref_Some _ _ _ Hl). simpl.
    repeat split; intros; by eexists.
Qed.

Lemma heap_C8_ok : links_ok rank_C8 heap_C8 /\ extras_ok rank_C8 heap_C8.
Proof.
  split.
  - intros [|[|[|l]]] o Hl; simpl in Hl; simplify_eq; by repeat constructor.
  - intros [|[|[|l]]] v Hl; simpl in Hl; simplify_eq; repeat constructor;
      simpl; (done || lia).
Qed.

Lemma C8_no_fault_witness :
  (exists s, ErrorexGo.Error 4 heap_C8 0 = Ok s) /\
  (exists s, Part004.Error 4 heap_C8 0 = Ok s) /\
  (exists b, Is 6 heap_C8 0 (Some 1) = Ok b) /\
  (exists r, ErrorexGo.WrapArgs heap_C8 0 [VInt 1; VStr "x"] = Ok r).
Proof.
  destruct heap_C8_ok as [Hlk Hex].
  destruct (C8_no_fault rank_C8 heap_C8 0
              (mkErrorEx None None None "base error" false [Some 1; Some 2])
              Hlk Hex eq_refl)
    as (HE & HI & _ & _ & HW & _).
  destruct (HE 4) as [H1 H2]; [simpl; lia|].
  split; [exact H1|]. split; [exact H2|].
  split; [apply HI; simpl; lia|].
  apply (HW None None [VInt 1; VStr "x"]).
Defined.

(** The example of the README kept in src/unnamed/part_001. *)
Lemma Error_extras_example :
  ErrorexGo.Error 4 heap_C8 0 = Ok "base error; Extra 1; Extra 2" /\
  Part004.Error 4 heap_C8 0 = Ok "base error + Extra 1 + Extra 2".
Proof. by split. Qed.

(** ** What a call reads *)

Lemma range_extra_ext (Err Err' : error -> result string) (sep : string)
  (exs : list error) (message : string) :
  Forall (fun e => Err e = Err' e) exs ->
  range_extra Err sep exs message = range_extra Err' sep exs message.
Proof.
  intros H. revert message.
  induction H as [|ex exs He _ IH]; intros message; simpl; [done|].
  rewrite He. destruct (Err' ex); simpl; [apply IH|done|done].
Qed.

Lemma range_extra_app (Err : error -> result string) (sep : string)
  (xs ys : list error) (message : string) :
  range_extra Err sep (xs ++ ys) message =
  (m ← range_extra Err sep xs message; range_extra Err sep ys m).
Proof.
  revert message. induction xs as [|x xs IH]; intros message; simpl; [done|].
  destruct (Err x); simpl; [apply IH|done|done].
Qed.

Lemma closed_in_ErrorEx (S : loc -> Prop) (h : heap) (l : loc) (v : ErrorEx) :
  closed_in S h -> S l -> h !! l = Some (ErrorExV v) ->
  in_set S (err v) /\ in_set S (cause v) /\ Forall (in_set S) (extra v).
Proof.
  intros Hc Hs Hl. destruct (Hc _ _ Hs Hl) as [H1 H2]. simpl in H1.
  inversion_clear H1 as [|?? He H1']. inversion_clear H1' as [|?? Hca _].
  split; [done|]. split; [done|]. by apply H2.
Qed.

Lemma closed_in_wrapError (S : loc -> Prop) (h : heap) (l : loc)
  (msg : string) (e : error) :
  closed_in S h -> S l -> h !! l = Some (wrapError msg e) -> in_set S e.
Proof.
  intros Hc Hs Hl. destruct (Hc _ _ Hs Hl) as [H1 _]. simpl in H1.
  by inversion_clear H1.
Qed.

Lemma deref_agree (S : loc -> Prop) (h h' : heap) (l : loc) :
  agree_on S h h' -> S l -> deref h' l = deref h l.
Proof. intros Ha Hs. unfold deref. by rewrite (Ha _ Hs). Qed.

Lemma handleMethods_agree (S : loc -> Prop) (h h' : heap) (e : error)
  (r : result string) :
  agree_on S h h' -> in_set S e -> handleMethods h' e r = handleMethods h e r.
Proof.
  intros Ha Hs. unfold handleMethods, is_nilErrorEx.
  destruct e as [l|]; [|done]. by rewrite (Ha _ Hs).
Qed.

(** Rendering reads only what it reaches through wrapped errors, causes
    and extra errors. *)
Lemma ErrorexGo_frame (S : loc -> Prop) (h h' : heap) :
  closed_in S h -> agree_on S h h' ->
  forall fuel,
    (forall e, in_set S e ->
       ErrorexGo.error_Error fuel h' e = ErrorexGo.error_Error fuel h e) /\
    (forall l, S l -> ErrorexGo.Error fuel h' l = ErrorexGo.Error fuel h l) /\
    (forall e acc, in_set S e ->
       ErrorexGo.wrap_stack fuel h' e acc = ErrorexGo.wrap_stack fuel h e acc).
Proof.
  intros Hc Ha. induction fuel as [|f (IHe & IHE & IHw)]; [done|].
  split; [|split].
  - intros [l|] Hs; [|done]. simpl in Hs.
    rewrite !ErrorexGo_error_Error_S, (Ha _ Hs).
    destruct (h !! l) as [[s|msg e'|v|]|]; try done. by apply IHE.
  - intros l Hs. rewrite !ErrorexGo_Error_S, (deref_agree _ _ _ _ Ha Hs).
    destruct (deref h l) as [v| |] eqn:Hv; try done. simpl.
    apply deref_Ok in Hv.
    destruct (closed_in_ErrorEx _ _ _ _ Hc Hs Hv) as (He & Hca & Hex).
    assert (ErrorexGo.base_message h' (ErrorexGo.error_Error f h') v =
            ErrorexGo.base_message h (ErrorexGo.error_Error f h) v) as ->.
    { unfold ErrorexGo.base_message. destruct (cause v) eqn:E; [|done].
      by rewrite IHe, (handleMethods_agree _ _ _ _ _ Ha Hca). }
    destruct (ErrorexGo.base_message h (ErrorexGo.error_Error f h) v);
      simpl; try done.
    rewrite IHw by done.
    destruct (ErrorexGo.wrap_stack f h (err v) []); simpl; try done.
    apply range_extra_ext.
    eapply Forall_impl; [|exact Hex]. intros e. apply IHe.
  - intros [l|] acc Hs; [|done]. simpl in Hs.
    rewrite !ErrorexGo_wrap_stack_S, (Ha _ Hs).
    destruct (h !! l) as [[s|msg e'|v|]|] eqn:Hl; try done.
    destruct (closed_in_ErrorEx _ _ _ _ Hc Hs Hl) as (He & Hca & Hex).
    destruct (cause v) as [c|] eqn:Hcv.
    + rewrite IHe by done.
      destruct (ErrorexGo.error_Error f h (Some c)); simpl; try done.
      by apply IHw.
    + destruct (fmt v); by apply IHw.
Qed.

Lemma Part004_frame (S : loc -> Prop) (h h' : heap) :
  closed_in S h -> agree_on S h h' ->
  forall fuel,
    (forall e, in_set S e ->
       Part004.error_Error fuel h' e = Part004.error_Error fuel h e) /\
    (forall l, S l -> Part004.Error fuel h' l = Part004.Error fuel h l) /\
    (forall e acc, in_set S e ->
       Part004.wrap_stack fuel h' e acc = Part004.wrap_stack fuel h e acc).
Proof.
  intros Hc Ha. induction fuel as [|f (IHe & IHE & IHw)]; [done|].
  assert (forall l v, S l -> h !! l = Some (ErrorExV v) ->
            Part004.extrastring (Part004.error_Error f h') v =
            Part004.extrastring (Part004.error_Error f h) v) as HX.
  { intros l v Hs Hl.
    destruct (closed_in_ErrorEx _ _ _ _ Hc Hs Hl) as (_ & _ & Hex).
    apply range_extra_ext.
    eapply Forall_impl; [|exact Hex]. intros e. apply IHe. }
  split; [|split].
  - intros [l|] Hs; [|done]. simpl in Hs.
    rewrite !Part004_error_Error_S, (Ha _ Hs).
    destruct (h !! l) as [[s|msg e'|v|]|]; try done. by apply IHE.
  - intros l Hs. rewrite !Part004_Error_S, (deref_agree _ _ _ _ Ha Hs).
    destruct (deref h l) as [v| |] eqn:Hv; try done. simpl.
    apply deref_Ok in Hv.
    destruct (closed_in_ErrorEx _ _ _ _ Hc Hs Hv) as (He & Hca & Hex).
    assert (Part004.base_message h' (Part004.error_Error f h') v =
            Part004.base_message h (Part004.error_Error f h) v) as ->.
    { unfold Part004.base_message.
      rewrite (IHe (err v) He), (IHe (cause v) Hca).
      by rewrite (handleMethods_agree _ _ _ _ _ Ha Hca). }
    destruct (Part004.base_message h (Part004.error_Error f h) v);
      simpl; try done.
    rewrite IHw by done.
    destruct (Part004.wrap_stack f h (err v) []); simpl; try done.
    by rewrite (HX l v).
  - intros [l|] acc Hs; [|done]. simpl in Hs.
    rewrite !Part004_wrap_stack_S, (Ha _ Hs).
    destruct (h !! l) as [[s|msg e'|v|]|] eqn:Hl; try done.
    destruct (closed_in_ErrorEx _ _ _ _ Hc Hs Hl) as (He & Hca & Hex).
    destruct (fmt v || (String.length (txt v) =? 0)); [by apply IHw|].
    rewrite (HX l v) by done.
    destruct (Part004.extrastring (Part004.error_Error f h) v);
      simpl; try done.
    destruct (cause v) as [c|] eqn:Hcv; [|by apply IHw].
    rewrite IHe by done.
    destruct (Part004.error_Error f h (Some c)); simpl; try done.
    by apply IHw.
Qed.

Lemma Is_frame (S : loc -> Prop) (h h' : heap) :
  closed_in S h -> agree_on S h h' ->
  forall fuel,
    (forall e t, in_set S e -> errors_Is fuel h' e t = errors_Is fuel h e t) /\
    (forall l t, S l -> Is fuel h' l t = Is fuel h l t) /\
    (forall l t c, S l -> in_set S c ->
       is_ fuel h' l t c = is_ fuel h l t c).
Proof.
  intros Hc Ha. induction fuel as [|f (IHe & IHI & IHi)]; [done|].
  split; [|split].
  - intros e t Hs. rewrite !errors_Is_S.
    destruct t as [t|]; [|done]. destruct e as [l|]; [|done]. simpl in Hs.
    case_bool_decide; [done|]. rewrite (Ha _ Hs).
    destruct (h !! l) as [[s|msg e'|v|]|] eqn:Hl; try done.
    + apply IHe. by eapply closed_in_wrapError.
    + destruct (closed_in_ErrorEx _ _ _ _ Hc Hs Hl) as (He & _).
      rewrite IHI by done. by rewrite IHe.
  - intros l t Hs. rewrite !Is_S, (deref_agree _ _ _ _ Ha Hs).
    destruct (deref h l) as [v| |] eqn:Hv; try done. simpl.
    apply deref_Ok in Hv.
    destruct (closed_in_ErrorEx _ _ _ _ Hc Hs Hv) as (_ & Hca & _).
    by apply IHi.
  - intros l t c Hs Hcs. rewrite !is_S, (deref_agree _ _ _ _ Ha Hs).
    destruct (deref h l) as [v| |] eqn:Hv; try done. simpl.
    apply deref_Ok in Hv.
    destruct (closed_in_ErrorEx _ _ _ _ Hc Hs Hv) as (He & _).
    by rewrite !IHe.
Qed.

Lemma errors_Unwrap_agree (S : loc -> Prop) (h h' : heap) (l : loc) :
  closed_in S h -> agree_on S h h' -> S l ->
  errors_Unwrap h' (Some l) = errors_Unwrap h (Some l) /\
  in_set S (errors_Unwrap h (Some l)).
Proof.
  intros Hc Ha Hs. simpl. rewrite (Ha _ Hs).
  destruct (h !! l) as [[s|msg e'|v|]|] eqn:Hl; try done.
  - split; [done|]. by eapply closed_in_wrapError.
  - split; [done|]. by destruct (closed_in_ErrorEx _ _ _ _ Hc Hs Hl).
Qed.

Lemma AnyData_frame (S : loc -> Prop) (h h' : heap) :
  closed_in S h -> agree_on S h h' ->
  forall fuel e d, in_set S e ->
    Part004.AnyData_loop fuel h' e d = Part004.AnyData_loop fuel h e d.
Proof.
  intros Hc Ha. induction fuel as [|f IH]; intros e d Hs; [done|].
  destruct e as [l|]; [|done]. simpl in Hs.
  destruct (errors_Unwrap_agree _ _ _ _ Hc Ha Hs) as [Hu Hin].
  cbn [Part004.AnyData_loop]. rewrite Hu, (Ha _ Hs).
  destruct (h !! l) as [[s|msg e'|v|]|]; [by apply IH..| |done|by apply IH].
  destruct (data v); [done|]. by apply IH.
Qed.

(** *** The two uses: a later allocation, and an append to a node of
    higher rank *)

Lemma closed_closed_in (h : heap) : closed h -> closed_in (fun l => l < length h) h.
Proof. done. Qed.

Lemma agree_on_snoc (h : heap) (o : object) :
  agree_on (fun l => l < length h) h (h ++ [o]).
Proof. intros l Hl. by rewrite lookup_app_l. Qed.

(** ** The heap that the operations keep *)

Lemma closed_nil : closed [].
Proof. intros l o Hl. simpl in Hl. lia. Qed.

Lemma in_set_allocated_snoc (h : heap) (o : object) (e : error) :
  allocated h e -> in_set (fun l => l < length (h ++ [o])) e.
Proof. destruct e as [l|]; simpl; [|done]. rewrite length_app. simpl. lia. Qed.

Lemma closed_snoc (h : heap) (o : object) :
  closed h -> Forall (allocated h) (links o) ->
  (forall v, o = ErrorExV v -> Forall (allocated h) (extra v)) ->
  closed (h ++ [o]).
Proof.
  intros Hc Hl Hx l o' _ Hlo.
  apply lookup_app_Some in Hlo as [Hlo|[Hge Hlo]].
  - destruct (Hc l o' (lookup_lt_Some _ _ _ Hlo) Hlo) as [H1 H2]. split.
    + eapply Forall_impl; [|exact H1]. intros e. apply in_set_allocated_snoc.
    + intros v Hv. eapply Forall_impl; [|exact (H2 v Hv)].
      intros e. apply in_set_allocated_snoc.
  - apply list_lookup_singleton_Some in Hlo as [_ <-]. split.
    + eapply Forall_impl; [|exact Hl]. intros e. apply in_set_allocated_snoc.
    + intros v Hv. eapply Forall_impl; [|exact (Hx v Hv)].
      intros e. apply in_set_allocated_snoc.
Qed.

Lemma closed_insert_extra (h : heap) (n : loc) (v : ErrorEx) (e : error) :
  closed h -> h !! n = Some (ErrorExV v) -> allocated h e ->
  closed (<[n := ErrorExV (set_extra (extra v ++ [e]) v)]> h).
Proof.
  intros Hc Hn Ha l o _ Hl.
  assert (forall x, allocated h x ->
            in_set (fun l0 => l0 <
              length (<[n := ErrorExV (set_extra (extra v ++ [e]) v)]> h)) x)
    as Hin.
  { intros [x|]; simpl; [|done]. by rewrite length_insert. }
  destruct (Hc n _ (lookup_lt_Some _ _ _ Hn) Hn) as [Hn1 Hn2].
  destruct (decide (l = n)) as [->|Hne].
  - rewrite list_lookup_insert_eq in Hl by (by eapply lookup_lt_Some).
    injection Hl as <-. split.
    + eapply Forall_impl; [|exact Hn1]. exact Hin.
    + intros v' [= <-]. simpl. apply Forall_app. split.
      * eapply Forall_impl; [|exact (Hn2 v eq_refl)]. exact Hin.
      * constructor; [by apply Hin|constructor].
  - rewrite list_lookup_insert_ne in Hl by done.
    destruct (Hc l o (lookup_lt_Some _ _ _ Hl) Hl) as [H1 H2]. split.
    + eapply Forall_impl; [|exact H1]. exact Hin.
    + intros v' Hv. eapply Forall_impl; [|exact (H2 v' Hv)]. exact Hin.
Qed.

Lemma WrapDataFormat_alloc (h : heap) (ee : loc) (format : string)
  (d : option value) :
  Part004.WrapDataFormat h ee format d =
  alloc h (ErrorExV (mkErrorEx None d (Some ee) format true [])).
Proof.
  unfold Part004.WrapDataFormat. rewrite WrapFormat_alloc.
  unfold alloc. by rewrite alter_snoc.
Qed.

(** What an allocation keeps. *)
Lemma alloc_keeps (h : heap) (o : object) :
  heap_ok h -> closed h -> o <> nilErrorEx -> Forall (allocated h) (links o) ->
  (forall v, o = ErrorExV v -> extra v = []) ->
  heap_ok (alloc h o).1 /\ closed (alloc h o).1 /\
  length (alloc h o).1 = S (length h) /\
  agree_on (fun l => l < length h) h (alloc h o).1.
Proof.
  intros Hok Hc Hn Hl Hx. unfold alloc. simpl.
  split; [by apply heap_ok_snoc|]. split.
  - apply closed_snoc; [done|done|]. intros v Hv. by rewrite (Hx v Hv).
  - split; [rewrite length_app; simpl; lia|apply agree_on_snoc].
Qed.

Lemma heap_C4_closed : closed heap_C4.
Proof.
  apply (closed_snoc [_]); [apply (closed_snoc []); [apply closed_nil|..]|..];
    repeat constructor; by intros v [= <-].
Qed.

(** X1. Every constructor and every derivation allocates exactly one
    object and changes no existing one, and the heap stays one in which
    wrapped errors and causes are older than the object that refers to them
    and every pointer is allocated.  [Extra] allocates nothing and changes
    only the [extra] field of its receiver, to which it appends. *)
Theorem operations_keep_heap (h : heap) (ee : loc) (c : error)
  (d : option value) (s : string) (args : list value) :
  heap_ok h -> closed h -> ee < length h -> allocated h c ->
  (kept_by h (New h s).1 /\ kept_by h (NewFormat h s).1 /\
   kept_by h (Wrap h ee s).1 /\ kept_by h (WrapFormat h ee s).1 /\
   kept_by h (WrapCause h ee s c).1 /\ kept_by h (WrapData h ee s d).1 /\
   kept_by h (Part004.WrapDataFormat h ee s d).1) /\
  (forall r,
     ErrorexGo.WrapArgs h ee args = Ok r \/
     ErrorexGo.WrapCauseArgs h ee c args = Ok r \/
     ErrorexGo.WrapDataArgs h ee d args = Ok r \/
     Part004.WrapArgs h ee args = Ok r \/
     Part004.WrapCauseArgs h ee c args = Ok r \/
     Part004.WrapDataArgs h ee d args = Ok r ->
     kept_by h r.1) /\
  (forall h',
     ErrorexGo.Extra h ee c = Ok h' \/ Part004.Extra h ee c = Ok (h', ee) ->
     heap_ok h' /\ closed h' /\ length h' = length h /\
     (forall l, l <> ee -> h' !! l = h !! l) /\
     exists v, h !! ee = Some (ErrorExV v) /\
               h' !! ee = Some (ErrorExV (set_extra (extra v ++ [c]) v))).
Proof.
  intros Hok Hc Hee Hca.
  assert (forall t e x f, allocated h e -> kept_by h
            (alloc h (ErrorExV (mkErrorEx e x (Some ee) t f []))).1) as HW.
  { intros t e x f He.
    apply alloc_keeps; try done; [by repeat constructor|by intros v [= <-]]. }
  assert (forall t f, kept_by h
            (alloc h (ErrorExV (mkErrorEx None None None t f []))).1) as HN.
  { intros t f.
    apply alloc_keeps; try done; [by repeat constructor|by intros v [= <-]]. }
  split; [|split].
  - rewrite NewFormat_alloc, WrapFormat_alloc, WrapDataFormat_alloc.
    unfold New, Wrap, WrapCause, WrapData.
    split; [apply HN|]. split; [apply HN|].
    repeat (split; [by apply HW|]). by apply HW.
  - intros r.
    unfold ErrorexGo.WrapArgs, ErrorexGo.WrapCauseArgs, ErrorexGo.WrapDataArgs,
      Part004.WrapArgs, Part004.WrapCauseArgs, Part004.WrapDataArgs, Wrap.
    destruct (deref h ee) as [v| |]; simpl;
      [|intros [H|[H|[H|[H|[H|H]]]]]; discriminate H..].
    intros [H|[H|[H|[H|[H|H]]]]]; injection H as <-; by apply HW.
  - intros h' H.
    assert (exists v, h !! ee = Some (ErrorExV v) /\
              h' = <[ee := ErrorExV (set_extra (extra v ++ [c]) v)]> h)
      as (v & Hv & ->).
    { destruct H as [H|H].
      - by apply ErrorexGo_Extra_Ok.
      - by apply Part004_Extra_Ok in H as [_ H]. }
    split; [by apply links_ok_insert_extra|].
    split; [by apply closed_insert_extra|].
    split; [by rewrite length_insert|].
    split; [intros l Hl; by rewrite list_lookup_insert_ne|].
    exists v. split; [done|].
    by rewrite list_lookup_insert_eq.
Qed.

Lemma operations_keep_heap_witness :
  kept_by heap_C4 (WrapCause heap_C4 1 "E" (Some 0)).1 /\
  (forall r, Part004.WrapArgs heap_C4 1 [VInt 7] = Ok r -> kept_by heap_C4 r.1) /\
  (forall h', ErrorexGo.Extra heap_C4 1 (Some 0) = Ok h' -> heap_ok h').
Proof.
  destruct (operations_keep_heap heap_C4 1 (Some 0) None "E" [VInt 7]
              heap_C4_ok heap_C4_closed ltac:(simpl; lia) ltac:(simpl; lia))
    as ((_ & _ & _ & _ & H1 & _) & H2 & H3).
  split; [exact H1|]. split.
  - intros r Hr. apply H2. auto.
  - intros h' Hh. apply H3. by left.
Defined.

(** ** What a result depends on *)

(** X2. What [Error], [Is] and [AnyData] return for an error depends only
    on the objects that are reached from it through wrapped errors, causes
    and extra errors: in a heap that has the same objects at a set of
    pointers closed under these links, the calls on a pointer of the set
    return the same. *)
Theorem results_depend_on_reachable (S : loc -> Prop) (h h' : heap) (l : loc) :
  closed_in S h -> agree_on S h h' -> S l ->
  forall fuel,
    ErrorexGo.Error fuel h' l = ErrorexGo.Error fuel h l /\
    Part004.Error fuel h' l = Part004.Error fuel h l /\
    (forall t, Is fuel h' l t = Is fuel h l t) /\
    Part004.AnyData fuel h' l = Part004.AnyData fuel h l /\
    Unwrap h' l = Unwrap h l /\ Cause h' l = Cause h l /\
    Data h' l = Data h l /\ Extras h' l = Extras h l.
Proof.
  intros Hc Ha Hs fuel.
  split; [by apply (ErrorexGo_frame S h h' Hc Ha fuel)|].
  split; [by apply (Part004_frame S h h' Hc Ha fuel)|].
  split; [intros t; by apply (Is_frame S h h' Hc Ha fuel)|].
  split; [by apply (AnyData_frame S h h' Hc Ha)|].
  unfold Unwrap, Cause, Data, Extras.
  by rewrite (deref_agree _ _ _ _ Ha Hs).
Qed.

Lemma results_depend_on_reachable_witness :
  ErrorexGo.Error 5 (Wrap heap_C4 1 "x").1 1 = ErrorexGo.Error 5 heap_C4 1 /\
  Part004.Error 5 (Wrap heap_C4 1 "x").1 1 = Part004.Error 5 heap_C4 1 /\
  Is 5 (Wrap heap_C4 1 "x").1 1 (Some 0) = Is 5 heap_C4 1 (Some 0).
Proof.
  destruct (results_depend_on_reachable (fun l => l < 2) heap_C4
              (Wrap heap_C4 1 "x").1 1 heap_C4_closed (agree_on_snoc heap_C4 _)
              ltac:(simpl; lia) 5) as (H1 & H2 & H3 & _).
  split; [exact H1|]. split; [exact H2|]. apply H3.
Defined.

(** ** Extra errors *)

Lemma closed_in_below (rk : loc -> nat) (h : heap) (n : loc) :
  links_ok rk h -> extras_ok rk h -> closed_in (fun l => rk l < rk n) h.
Proof.
  intros Hl Hx l o Hs Hlo. split.
  - eapply Forall_impl; [|exact (links_ok_links _ _ _ _ Hl Hlo)].
    intros [l'|]; simpl; [|done]. lia.
  - intros v ->. eapply Forall_impl; [|exact (Hx l v Hlo)].
    intros [l'|]; simpl; [|done]. lia.
Qed.

Lemma agree_on_insert_below (rk : loc -> nat) (h : heap) (n : loc) (o : object) :
  agree_on (fun l => rk l < rk n) h (<[n := o]> h).
Proof.
  intros l Hl. apply list_lookup_insert_ne. intros ->. lia.
Qed.

Lemma in_set_below (rk : loc -> nat) (h : heap) (n : loc) (e : error) :
  link_ok rk h n e -> in_set (fun l => rk l < rk n) e.
Proof. destruct e as [l|]; simpl; [|done]. lia. Qed.

Lemma result_bind_assoc {A B C : Type} (r : result A) (k : A -> result B)
  (k' : B -> result C) :
  (r ≫= k) ≫= k' = r ≫= (fun a => k a ≫= k').
Proof. by destruct r. Qed.

Lemma result_bind_ext {A B : Type} (r : result A) (k k' : A -> result B) :
  (forall a, k a = k' a) -> r ≫= k = r ≫= k'.
Proof. intros H. destruct r; simpl; [apply H|done|done]. Qed.

(** X3. [Extra] appends to the rendering.  When [x] and everything the
    receiver refers to are of smaller rank than the receiver, the receiver
    renders after [Extra(x)] as it did before, followed by the separator of
    the revision (["; "] in src/errorex.go, [" + "] in the later one) and
    the rendering of [x]; [Extras] returns the earlier extra errors
    followed by [x]. *)
Theorem Extra_appends (rk : loc -> nat) (h : heap) (n : loc) (v : ErrorEx)
  (x : error) :
  links_ok rk h -> extras_ok rk h -> h !! n = Some (ErrorExV v) ->
  link_ok rk h n x ->
  exists h',
    ErrorexGo.Extra h n x = Ok h' /\ Part004.Extra h n x = Ok (h', n) /\
    Extras h' n = Ok (extra v ++ [x]) /\
    (forall f,
       ErrorexGo.Error (S f) h' n =
         (s ← ErrorexGo.Error (S f) h n;
          xs ← ErrorexGo.error_Error f h x;
          Ok (s +:+ "; " +:+ xs)) /\
       Part004.Error (S f) h' n =
         (s ← Part004.Error (S f) h n;
          xs ← Part004.error_Error f h x;
          Ok (s +:+ " + " +:+ xs))).
Proof.
  intros Hl Hx Hn Hxn.
  exists (<[n := ErrorExV (set_extra (extra v ++ [x]) v)]> h).
  pose proof (lookup_lt_Some _ _ _ Hn) as Hlt.
  pose proof (closed_in_below rk h n Hl Hx) as Hc.
  pose proof (agree_on_insert_below rk h n
                (ErrorExV (set_extra (extra v ++ [x]) v))) as Ha.
  destruct (links_ok_ErrorEx _ _ _ _ Hl Hn) as [He Hca].
  apply in_set_below in He, Hca, Hxn.
  assert (Forall (in_set (fun l => rk l < rk n)) (extra v)) as Hex.
  { eapply Forall_impl; [|exact (Hx n v Hn)].
    intros e [_ H]. by eapply in_set_below. }
  unfold ErrorexGo.Extra, Part004.Extra, Extras.
  rewrite (deref_Some _ _ _ Hn). simpl.
  split; [done|]. split; [done|].
  split.
  { unfold deref. by rewrite list_lookup_insert_eq. }
  intros f. split.
  - destruct (ErrorexGo_frame _ _ _ Hc Ha f) as (HE & _ & HW).
    rewrite !ErrorexGo_Error_S, (deref_Some _ _ _ Hn).
    unfold deref at 1. rewrite list_lookup_insert_eq by done. simpl.
    assert (ErrorexGo.base_message
              (<[n := ErrorExV (set_extra (extra v ++ [x]) v)]> h)
              (ErrorexGo.error_Error f
                 (<[n := ErrorExV (set_extra (extra v ++ [x]) v)]> h))
              (set_extra (extra v ++ [x]) v) =
            ErrorexGo.base_message h (ErrorexGo.error_Error f h) v) as ->.
    { unfold ErrorexGo.base_message. simpl.
      destruct (cause v) eqn:E; [|done].
      by rewrite HE, (handleMethods_agree _ _ _ _ _ Ha Hca). }
    rewrite !result_bind_assoc. apply result_bind_ext. intros message.
    rewrite HW by done.
    rewrite !result_bind_assoc. apply result_bind_ext. intros stack.
    rewrite range_extra_app.
    rewrite (range_extra_ext _ (ErrorexGo.error_Error f h)).
    2:{ eapply Forall_impl; [|exact Hex]. intros e. apply HE. }
    apply result_bind_ext. intros m. simpl. rewrite HE by done.
    by destruct (ErrorexGo.error_Error f h x).
  - destruct (Part004_frame _ _ _ Hc Ha f) as (HE & _ & HW).
    rewrite !Part004_Error_S, (deref_Some _ _ _ Hn).
    unfold deref at 1. rewrite list_lookup_insert_eq by done. simpl.
    assert (Part004.base_message
              (<[n := ErrorExV (set_extra (extra v ++ [x]) v)]> h)
              (Part004.error_Error f
                 (<[n := ErrorExV (set_extra (extra v ++ [x]) v)]> h))
              (set_extra (extra v ++ [x]) v) =
            Part004.base_message h (Part004.error_Error f h) v) as ->.
    { unfold Part004.base_message. simpl.
      rewrite (HE (err v) He), (HE (cause v) Hca).
      by rewrite (handleMethods_agree _ _ _ _ _ Ha Hca). }
    rewrite !result_bind_assoc. apply result_bind_ext. intros message.
    rewrite HW by done.
    rewrite !result_bind_assoc. apply result_bind_ext. intros stack.
    unfold Part004.extrastring. simpl.
    rewrite range_extra_app.
    rewrite (range_extra_ext _ (Part004.error_Error f h)).
    2:{ eapply Forall_impl; [|exact Hex]. intros e. apply HE. }
    rewrite !result_bind_assoc. apply result_bind_ext. intros m. simpl.
    rewrite HE by done.
    destruct (Part004.error_Error f h x); simpl; [|done..].
    by rewrite !append_assoc.
Qed.

Lemma Extra_appends_witness :
  exists h',
    ErrorexGo.Extra heap_C8 0 (Some 1) = Ok h' /\
    ErrorexGo.Error 4 h' 0 = Ok "base error; Extra 1; Extra 2; Extra 1" /\
    Part004.Error 4 h' 0 = Ok "base error + Extra 1 + Extra 2 + Extra 1".
Proof.
  destruct (Extra_appends rank_C8 heap_C8 0 _ (Some 1)
              (proj1 heap_C8_ok) (proj2 heap_C8_ok) eq_refl
              ltac:(simpl; lia)) as (h' & H1 & _ & _ & H3).
  exists h'. split; [exact H1|].
  destruct (H3 3) as [Ha Hb]. split.
  - rewrite Ha. reflexivity.
  - rewrite Hb. reflexivity.
Defined.

(** ** Causes and skipped ancestors in the rendering *)

Lemma agree_on_app (h t : heap) : agree_on (fun l => l < length h) h (h ++ t).
Proof. intros l Hl. by rewrite lookup_app_l. Qed.

Lemma append_nonempty (s t : string) : s <> "" -> s +:+ t <> "".
Proof. destruct s; [done|]. intros _. change (String a (s +:+ t) <> ""). done. Qed.

Lemma ErrorexGo_format_stack_suffix (stack : list string) (m x : string) :
  ErrorexGo.format_stack stack (m +:+ x) = ErrorexGo.format_stack stack m +:+ x.
Proof.
  unfold ErrorexGo.format_stack.
  destruct (reverse stack) as [|last [|y rest]]; [done|..];
    by rewrite !append_assoc.
Qed.

Lemma Part004_format_stack_suffix (stack : list string) (m x : string) :
  m <> "" ->
  Part004.format_stack stack (m +:+ x) = Part004.format_stack stack m +:+ x.
Proof.
  intros Hm. unfold Part004.format_stack.
  destruct (reverse stack) as [|last [|y rest]]; [done|..].
  - rewrite (eqb_nonempty _ Hm), (eqb_nonempty _ (append_nonempty m x Hm)).
    by rewrite !append_assoc.
  - by rewrite !append_assoc.
Qed.

(** X4. A cause is rendered last.  The error [n.WrapCause(m, c)] renders
    as [n.Wrap(m)] does, followed by [" < "] and [c.Error()].  In the later
    revision (for a message that is not empty) it contributes to the wrap
    stack of an error derived from it the one entry that
    [n.Wrap(m + " < " + c.Error())] contributes. *)
Theorem cause_is_rendered_last (h : heap) (n c : loc) (m sc : string)
  (f : nat) :
  closed h -> n < length h -> c < length h ->
  (ErrorexGo.error_Error f h (Some c) = Ok sc ->
   ErrorexGo.Error (S f) (WrapCause h n m (Some c)).1 (WrapCause h n m (Some c)).2 =
   (s ← ErrorexGo.Error (S f) (Wrap h n m).1 (Wrap h n m).2;
    Ok (s +:+ " < " +:+ sc))) /\
  (Part004.error_Error f h (Some c) = Ok sc -> m <> "" ->
   Part004.Error (S f) (WrapCause h n m (Some c)).1 (WrapCause h n m (Some c)).2 =
   (s ← Part004.Error (S f) (Wrap h n m).1 (Wrap h n m).2;
    Ok (s +:+ " < " +:+ sc)) /\
   forall acc,
     Part004.wrap_stack (S f) (WrapCause h n m (Some c)).1
       (Some (WrapCause h n m (Some c)).2) acc =
     Part004.wrap_stack (S f) (Wrap h n (m +:+ " < " +:+ sc)).1
       (Some (Wrap h n (m +:+ " < " +:+ sc)).2) acc).
Proof.
  intros Hc Hn Hcl. unfold WrapCause, Wrap, alloc. simpl.
  set (A := ErrorExV (mkErrorEx (Some c) None (Some n) m false [])).
  set (B := ErrorExV (mkErrorEx None None (Some n) m false [])).
  set (B' := ErrorExV (mkErrorEx None None (Some n) (m +:+ " < " +:+ sc) false [])).
  split.
  - intros Hsc.
    destruct (ErrorexGo_frame _ _ _ Hc (agree_on_snoc h A) f) as (HEA & _ & HWA).
    destruct (ErrorexGo_frame _ _ _ Hc (agree_on_snoc h B) f) as (_ & _ & HWB).
    rewrite !ErrorexGo_Error_S.
    rewrite (deref_Some _ _ _ (lookup_snoc_new h A)).
    rewrite (deref_Some _ _ _ (lookup_snoc_new h B)). simpl.
    unfold ErrorexGo.base_message. simpl.
    rewrite (HEA (Some c)), Hsc by done. simpl.
    rewrite (HWA (Some n)), (HWB (Some n)) by done.
    destruct (ErrorexGo.wrap_stack f h (Some n) []); simpl; [|done|done].
    by rewrite ErrorexGo_format_stack_suffix.
  - intros Hsc Hm.
    destruct (Part004_frame _ _ _ Hc (agree_on_snoc h A) f) as (HEA & _ & HWA).
    destruct (Part004_frame _ _ _ Hc (agree_on_snoc h B) f) as (_ & _ & HWB).
    destruct (Part004_frame _ _ _ Hc (agree_on_snoc h B') f) as (_ & _ & HWB').
    pose proof (append_nonempty m (" < " +:+ sc) Hm) as Hm'.
    split.
    + rewrite !Part004_Error_S.
      rewrite (deref_Some _ _ _ (lookup_snoc_new h A)).
      rewrite (deref_Some _ _ _ (lookup_snoc_new h B)). simpl.
      unfold Part004.base_message. simpl.
      rewrite (eqb_nonempty _ Hm). simpl.
      rewrite (HEA (Some c)), Hsc by done. simpl.
      rewrite (HWA (Some n)), (HWB (Some n)) by done.
      destruct (Part004.wrap_stack f h (Some n) []); simpl; [|done|done].
      rewrite !append_nil_r. by rewrite Part004_format_stack_suffix.
    + intros acc. rewrite !Part004_wrap_stack_S.
      rewrite (lookup_snoc_new h A), (lookup_snoc_new h B'). simpl.
      rewrite (length_eqb_0 _ Hm), (length_eqb_0 _ Hm'). simpl.
      rewrite (HEA (Some c)), Hsc by done. simpl.
      rewrite (HWA (Some n)), (HWB' (Some n)) by done.
      rewrite append_to_last_snoc.
      by rewrite !append_nil_r.
Qed.

Lemma heap_readme_built :
  (let '(h, app) := New [] "command" in
   let '(h, appsub) := Wrap h app "method" in
   let '(h, appsubvar) := WrapFormat h appsub "detail '%s'" in
   let '(h, pkg) := New h "package" in
   let '(h, pkgsub) := Wrap h pkg "method" in
   let '(h, pkgsubvar) := WrapFormat h pkgsub "detail: '%s'" in
   let '(h, middle) := New h "middleware" in
   let '(h, middlesub) := Wrap h middle "method" in
   let '(h, middlesubvar) := WrapFormat h middlesub "detail: '%s'" in
   bad ← ErrorexGo.WrapArgs h middlesubvar [VStr "1337"];
   ErrorexGo.WrapCauseArgs bad.1 pkgsubvar (Some bad.2) [VStr "69"]) =
  Ok (heap_readme, 10).
Proof. reflexivity. Qed.

Lemma heap_readme_closed : closed heap_readme.
Proof.
  intros l o Hl Hlo. simpl in Hl.
  do 11 (destruct l as [|l]; [injection Hlo as <-; split;
    [repeat constructor; simpl; lia|intros v [= <-]; repeat constructor]|]).
  lia.
Qed.

Lemma cause_is_rendered_last_witness :
  ErrorexGo.WrapCauseArgs heap_readme 2 (Some 10) [VStr "42"] =
    Ok (WrapCause heap_readme 2 "detail '42'" (Some 10)) /\
  ErrorexGo.Error 9 (WrapCause heap_readme 2 "detail '42'" (Some 10)).1 11 =
    Ok "command: method > detail '42' < package: method > detail: '69' < middleware: method > detail: '1337'" /\
  Part004.Error 9 (WrapCause heap_readme 2 "detail '42'" (Some 10)).1 11 =
    Ok "command: method > detail '42' < package: method > detail: '69' < middleware: method > detail: '1337'".
Proof.
  destruct (cause_is_rendered_last heap_readme 2 10 "detail '42'"
              "package: method > detail: '69' < middleware: method > detail: '1337'"
              8 heap_readme_closed ltac:(simpl; lia) ltac:(simpl; lia))
    as [H1 H2].
  split; [reflexivity|]. split.
  - etransitivity; [exact (H1 eq_refl)|reflexivity].
  - etransitivity; [exact (proj1 (H2 eq_refl ltac:(done)))|reflexivity].
Defined.

(** X5. A skipped parent leaves no trace.  An error derived from a format
    placeholder renders as the same derivation from the placeholder's own
    parent; in the later revision the same holds for a parent whose text
    is empty.  [WrapArgs] on a placeholder is such a derivation: it wraps
    the placeholder with its format string filled in. *)
Theorem skipped_parent_leaves_no_trace (h : heap) (n : loc) (fm m : string)
  (k : nat) :
  closed h -> n < length h ->
  (ErrorexGo.Error (S (S k)) (Wrap (WrapFormat h n fm).1 (WrapFormat h n fm).2 m).1
     (Wrap (WrapFormat h n fm).1 (WrapFormat h n fm).2 m).2 =
   ErrorexGo.Error (S k) (Wrap h n m).1 (Wrap h n m).2) /\
  (m <> "" ->
   Part004.Error (S (S k)) (Wrap (WrapFormat h n fm).1 (WrapFormat h n fm).2 m).1
     (Wrap (WrapFormat h n fm).1 (WrapFormat h n fm).2 m).2 =
   Part004.Error (S k) (Wrap h n m).1 (Wrap h n m).2) /\
  (m <> "" ->
   Part004.Error (S (S k)) (Wrap (Wrap h n "").1 (Wrap h n "").2 m).1
     (Wrap (Wrap h n "").1 (Wrap h n "").2 m).2 =
   Part004.Error (S k) (Wrap h n m).1 (Wrap h n m).2) /\
  (forall args,
     ErrorexGo.WrapArgs (WrapFormat h n fm).1 (WrapFormat h n fm).2 args =
       Ok (Wrap (WrapFormat h n fm).1 (WrapFormat h n fm).2 (Sprintf fm args)) /\
     Part004.WrapArgs (WrapFormat h n fm).1 (WrapFormat h n fm).2 args =
       Ok (Wrap (WrapFormat h n fm).1 (WrapFormat h n fm).2 (Sprintf fm args))).
Proof.
  intros Hc Hn. rewrite WrapFormat_alloc. unfold Wrap, alloc. simpl.
  set (P := ErrorExV (mkErrorEx None None (Some n) fm true [])).
  set (P0 := ErrorExV (mkErrorEx None None (Some n) "" false [])).
  set (B := ErrorExV (mkErrorEx None None (Some n) m false [])).
  set (A := ErrorExV (mkErrorEx None None (Some (length h)) m false [])).
  assert (forall X, agree_on (fun l => l < length h) h ((h ++ [X]) ++ [A])) as Ha.
  { intros X. rewrite <- app_assoc. apply agree_on_app. }
  assert (forall X, ((h ++ [X]) ++ [A]) !! length (h ++ [X]) = Some A) as HlA.
  { intros X. apply lookup_snoc_new. }
  assert (forall X, ((h ++ [X]) ++ [A]) !! length h = Some X) as HlX.
  { intros X. apply lookup_snoc_Some, lookup_snoc_new. }
  split; [|split; [|split]].
  - destruct (ErrorexGo_frame _ _ _ Hc (Ha P) k) as (_ & _ & HWA).
    destruct (ErrorexGo_frame _ _ _ Hc (agree_on_snoc h B) k) as (_ & _ & HWB).
    rewrite ErrorexGo_Error_S, (deref_Some _ _ _ (HlA P)). simpl.
    rewrite ErrorexGo_wrap_stack_S, (HlX P). simpl.
    rewrite ErrorexGo_Error_S, (deref_Some _ _ _ (lookup_snoc_new h B)). simpl.
    by rewrite (HWA (Some n)), (HWB (Some n)).
  - intros Hm.
    destruct (Part004_frame _ _ _ Hc (Ha P) k) as (_ & _ & HWA).
    destruct (Part004_frame _ _ _ Hc (agree_on_snoc h B) k) as (_ & _ & HWB).
    rewrite Part004_Error_S, (deref_Some _ _ _ (HlA P)). simpl.
    unfold Part004.base_message. simpl. rewrite (eqb_nonempty _ Hm). simpl.
    rewrite Part004_wrap_stack_S, (HlX P). simpl.
    rewrite Part004_Error_S, (deref_Some _ _ _ (lookup_snoc_new h B)). simpl.
    unfold Part004.base_message. simpl. rewrite (eqb_nonempty _ Hm). simpl.
    by rewrite (HWA (Some n)), (HWB (Some n)).
  - intros Hm.
    destruct (Part004_frame _ _ _ Hc (Ha P0) k) as (_ & _ & HWA).
    destruct (Part004_frame _ _ _ Hc (agree_on_snoc h B) k) as (_ & _ & HWB).
    rewrite Part004_Error_S, (deref_Some _ _ _ (HlA P0)). simpl.
    unfold Part004.base_message. simpl. rewrite (eqb_nonempty _ Hm). simpl.
    rewrite Part004_wrap_stack_S, (HlX P0). simpl.
    rewrite Part004_Error_S, (deref_Some _ _ _ (lookup_snoc_new h B)). simpl.
    unfold Part004.base_message. simpl. rewrite (eqb_nonempty _ Hm). simpl.
    by rewrite (HWA (Some n)), (HWB (Some n)).
  - intros args. split.
    + by rewrite (ErrorexGo_WrapArgs_Some _ _ _ _ (lookup_snoc_new h P)).
    + by rewrite (Part004_WrapArgs_Some _ _ _ _ (lookup_snoc_new h P)).
Qed.

Lemma skipped_parent_leaves_no_trace_witness :
  Part004.Error 5 (Wrap (WrapFormat heap_C4 1 "%d").1 2 "x").1 3 =
    Part004.Error 4 (Wrap heap_C4 1 "x").1 2 /\
  Part004.Error 5 (Wrap (Wrap heap_C4 1 "").1 2 "x").1 3 =
    Part004.Error 4 (Wrap heap_C4 1 "x").1 2 /\
  Part004.Error 4 (Wrap heap_C4 1 "x").1 2 = Ok "C: D > x".
Proof.
  destruct (skipped_parent_leaves_no_trace heap_C4 1 "%d" "x" 3 heap_C4_closed
              ltac:(simpl; lia)) as (_ & H2 & H3 & _).
  split; [exact (H2 ltac:(done))|].
  split; [exact (H3 ltac:(done))|reflexivity].
Defined.

(** ** The identity test as a relation *)

Lemma Matches_trans (h : heap) (a b c : error) :
  Matches h a b -> Matches h b c -> Matches h a c.
Proof.
  induction 1 as [e|l v t Hl _ IH|l v t Hl _ IH|l msg e t Hl _ IH]; intros Hbc.
  - done.
  - eapply Matches_err; [done|by apply IH].
  - eapply Matches_cause; [done|by apply IH].
  - eapply Matches_unwrap; [done|by apply IH].
Qed.

Lemma Is_Matches (h : heap) (l : loc) (v : ErrorEx) (t : loc) (fuel : nat) :
  heap_ok h -> h !! l = Some (ErrorExV v) -> 3 * l + 3 <= fuel ->
  (Is fuel h l (Some t) = Ok true <-> Matches h (Some l) (Some t)) /\
  (Is fuel h l (Some t) = Ok false <-> ~ Matches h (Some l) (Some t)).
Proof.
  intros Hok Hl Hf.
  destruct (Is_complete id h l v t fuel Hok Hl Hf) as (b & Hb & Hm).
  rewrite Hb. split; split.
  - intros [= ->]. apply (Is_sound h fuel). by rewrite Hb.
  - intros H. by rewrite (Hm H).
  - intros [= ->] H. by specialize (Hm H).
  - intros H. destruct b; [|done]. exfalso. apply H.
    apply (Is_sound h fuel). by rewrite Hb.
Qed.

Lemma errors_Is_Matches (h : heap) (l t : loc) (fuel : nat) :
  heap_ok h -> l < length h -> 3 * l + 4 <= fuel ->
  (errors_Is fuel h (Some l) (Some t) = Ok true <-> Matches h (Some l) (Some t)) /\
  (errors_Is fuel h (Some l) (Some t) = Ok false <->
   ~ Matches h (Some l) (Some t)).
Proof.
  intros Hok Hl Hf.
  destruct (errors_Is_complete id h Hok (S l) (Some l) t fuel)
    as (b & Hb & Hm); [done|done|lia|].
  rewrite Hb. split; split.
  - intros [= ->]. by apply (proj1 (Is_sound_aux h fuel)).
  - intros H. by rewrite (Hm H).
  - intros [= ->] H. by specialize (Hm H).
  - intros H. destruct b; [|done]. exfalso. apply H.
    by apply (proj1 (Is_sound_aux h fuel)).
Qed.

(** X6. What [Is] decides.  On the heaps that the constructors build,
    [a.Is(t)] returns true exactly when [t] is matched from [a], and false
    otherwise, where an [*ErrorEx] matches itself, what its wrapped error
    matches and what its cause matches, the causes of its ancestors and of
    its causes included. *)
Theorem Is_decides_Matches (h : heap) (l : loc) (v : ErrorEx) (t : loc)
  (fuel : nat) :
  heap_ok h -> h !! l = Some (ErrorExV v) -> 3 * l + 3 <= fuel ->
  (Is fuel h l (Some t) = Ok true <-> Matches h (Some l) (Some t)) /\
  (Is fuel h l (Some t) = Ok false <-> ~ Matches h (Some l) (Some t)) /\
  (Matches h (Some l) (Some t) <->
   t = l \/ Matches h (err v) (Some t) \/ Matches h (cause v) (Some t)).
Proof.
  intros Hok Hl Hf.
  destruct (Is_Matches h l v t fuel Hok Hl Hf) as [H1 H2].
  split; [exact H1|]. split; [exact H2|]. split.
  - intros HM.
    inversion HM as [e He|? v' ? Hl' HM'|? v' ? Hl' HM'|? msg e ? Hl' HM'];
      subst.
    + by left.
    + rewrite Hl in Hl'. injection Hl' as <-. right. by left.
    + rewrite Hl in Hl'. injection Hl' as <-. right. by right.
    + by rewrite Hl in Hl'.
  - intros [-> | [HM|HM]].
    + constructor.
    + by eapply Matches_err.
    + by eapply Matches_cause.
Qed.

Lemma heap_C9_ok : heap_ok heap_C9.
Proof.
  intros [|[|[|[|l]]]] o Hl; simpl in Hl; simplify_eq; (split; [done|]);
    repeat constructor; simpl; lia.
Qed.

Lemma Is_decides_Matches_witness :
  Matches heap_C9 (Some 3) (Some 1) /\ ~ Matches heap_C9 (Some 1) (Some 3).
Proof.
  split.
  - exact (proj1 (proj1 (Is_decides_Matches heap_C9 3 _ 1 12 heap_C9_ok
             eq_refl ltac:(lia))) eq_refl).
  - exact (proj1 (proj1 (proj2 (Is_decides_Matches heap_C9 1 _ 3 12 heap_C9_ok
             eq_refl ltac:(lia)))) eq_refl).
Defined.

(** X7. On the heaps that the constructors build, the identity test
    orders the errors: [a.Is(a)] holds, [a.Is(b)] and [b.Is(c)] give
    [a.Is(c)], and [a.Is(b)] with [b.Is(a)] only for [a = b].  [errors.Is]
    gives the same answers as the method. *)
Theorem Is_partial_order (h : heap) (a b c : loc) (va vb : ErrorEx)
  (fuel : nat) :
  heap_ok h -> h !! a = Some (ErrorExV va) -> h !! b = Some (ErrorExV vb) ->
  3 * a + 4 <= fuel -> 3 * b + 4 <= fuel ->
  Is fuel h a (Some a) = Ok true /\
  (Is fuel h a (Some b) = Ok true -> Is fuel h b (Some c) = Ok true ->
   Is fuel h a (Some c) = Ok true) /\
  (Is fuel h a (Some b) = Ok true -> Is fuel h b (Some a) = Ok true -> a = b) /\
  errors_Is fuel h (Some a) (Some b) = Is fuel h a (Some b).
Proof.
  intros Hok Ha Hb Hfa Hfb.
  pose proof (lookup_lt_Some _ _ _ Ha) as Hla.
  assert (forall t, Is fuel h a (Some t) = Ok true <->
                    Matches h (Some a) (Some t)) as HA.
  { intros t. apply (Is_Matches h a va t fuel); [done|done|lia]. }
  assert (forall t, Is fuel h b (Some t) = Ok true <->
                    Matches h (Some b) (Some t)) as HB.
  { intros t. apply (Is_Matches h b vb t fuel); [done|done|lia]. }
  split; [apply HA; constructor|].
  split.
  { intros H1 H2. apply HA. eapply Matches_trans; [by apply HA|by apply HB]. }
  split.
  { intros H1 H2. apply HA in H1. apply HB in H2.
    pose proof (Matches_le _ _ _ Hok H1 a b eq_refl eq_refl).
    pose proof (Matches_le _ _ _ Hok H2 b a eq_refl eq_refl). lia. }
  destruct (Is_complete id h a va b fuel Hok Ha) as (x & Hx & _); [simpl; lia|].
  destruct (errors_Is_complete id h Hok (S a) (Some a) b fuel)
    as (y & Hy & _); [done|done|lia|].
  rewrite Hx, Hy. f_equal.
  destruct (errors_Is_Matches h a b fuel Hok Hla Hfa) as [E1 E2].
  destruct (Is_Matches h a va b fuel Hok Ha) as [I1 I2]; [lia|].
  rewrite Hx in I1, I2. rewrite Hy in E1, E2.
  destruct x, y; try done.
  - assert (Ok false = @Ok bool true) as [=]. apply E1, I1. done.
  - assert (Ok false = @Ok bool true) as [=]. apply I1, E1. done.
Qed.

Lemma Is_partial_order_witness :
  Is 9 heap_C4 1 (Some 1) = Ok true /\
  errors_Is 9 heap_C4 (Some 1) (Some 0) = Is 9 heap_C4 1 (Some 0) /\
  (Is 9 heap_C4 1 (Some 0) = Ok true -> Is 9 heap_C4 0 (Some 1) = Ok true ->
   1 = 0).
Proof.
  destruct (Is_partial_order heap_C4 1 0 0 _ _ 9 heap_C4_ok eq_refl eq_refl
              ltac:(lia) ltac:(lia)) as (H1 & _ & H3 & H4).
  split; [exact H1|]. split; [exact H4|exact H3].
Defined.

(** X8. Of two errors derived one after the other from the same error,
    the first never matches the second, and the second matches the first
    exactly when its cause does (the cause is the first, or leads to it).
    Two siblings whose causes existed before either of them therefore do
    not match each other, whatever their texts.  Both match the error
    they were derived from. *)
Theorem siblings_match_only_through_cause (h : heap) (n : loc) (vn : ErrorEx)
  (m1 m2 : string) (c1 c2 : error) (fuel : nat) :
  heap_ok h -> h !! n = Some (ErrorExV vn) ->
  allocated h c1 -> allocated (WrapCause h n m1 c1).1 c2 ->
  3 * length h + 6 <= fuel ->
  exists h1 a h2 b,
    WrapCause h n m1 c1 = (h1, a) /\ WrapCause h1 n m2 c2 = (h2, b) /\
    Is fuel h2 a (Some b) = Ok false /\
    (Is fuel h2 b (Some a) = Ok true <-> Matches h2 c2 (Some a)) /\
    (Is fuel h2 b (Some a) = Ok false <-> ~ Matches h2 c2 (Some a)) /\
    (c2 = Some a -> Is fuel h2 b (Some a) = Ok true) /\
    (allocated h c2 -> Is fuel h2 b (Some a) = Ok false) /\
    Is fuel h2 a (Some n) = Ok true /\ Is fuel h2 b (Some n) = Ok true.
Proof.
  intros Hok Hn Hc1 Hc2 Hf.
  pose proof (lookup_lt_Some _ _ _ Hn) as Hlt.
  unfold WrapCause, alloc in Hc2. simpl in Hc2.
  set (A := ErrorExV (mkErrorEx c1 None (Some n) m1 false [])) in *.
  set (B := ErrorExV (mkErrorEx c2 None (Some n) m2 false [])).
  exists (h ++ [A]), (length h), ((h ++ [A]) ++ [B]), (length (h ++ [A])).
  split; [done|]. split; [done|].
  assert (length (h ++ [A]) = S (length h)) as Hlen.
  { rewrite length_app. simpl. lia. }
  assert (heap_ok (h ++ [A])) as Hok1.
  { apply heap_ok_snoc; [done|done|]. repeat constructor; [done|done]. }
  assert (heap_ok ((h ++ [A]) ++ [B])) as Hok2.
  { apply heap_ok_snoc; [done|done|]. repeat constructor; [|done].
    simpl. lia. }
  assert (((h ++ [A]) ++ [B]) !! length h = Some A) as HA.
  { apply lookup_snoc_Some, lookup_snoc_new. }
  assert (((h ++ [A]) ++ [B]) !! length (h ++ [A]) = Some B) as HB.
  { apply lookup_snoc_new. }
  assert (Matches ((h ++ [A]) ++ [B]) (Some (length (h ++ [A])))
            (Some (length h)) <->
          Matches ((h ++ [A]) ++ [B]) c2 (Some (length h))) as HM.
  { split.
    - intros HM.
      inversion HM as [e He|l v t Hl HM'|l v t Hl HM'|l msg e t Hl HM']; subst.
      + lia.
      + rewrite HB in Hl. injection Hl as <-. simpl in HM'.
        pose proof (Matches_le _ _ _ Hok2 HM' n (length h) eq_refl eq_refl).
        lia.
      + rewrite HB in Hl. by injection Hl as <-.
      + rewrite HB in Hl. done.
    - intros HM. by eapply Matches_cause. }
  destruct (Is_Matches _ _ _ (length h) fuel Hok2 HB) as [HT HF]; [lia|].
  split.
  { eapply Is_younger; [done|exact HA|lia|lia]. }
  split; [by rewrite HT, HM|].
  split; [by rewrite HF, HM|].
  split.
  { intros ->. apply HT, HM. constructor. }
  split.
  { intros Hc. apply HF. rewrite HM. intros HM'.
    destruct c2 as [l|]; [|inversion HM'].
    pose proof (Matches_le _ _ _ Hok2 HM' l (length h) eq_refl eq_refl).
    simpl in Hc. lia. }
  split.
  - eapply Is_ancestor; [done|exact HA|lia|]. left.
    apply Ancestor_step. simpl. rewrite HA. simpl. constructor.
  - eapply Is_ancestor; [done|exact HB|lia|]. left.
    apply Ancestor_step. simpl. rewrite HB. simpl. constructor.
Qed.

Lemma siblings_match_only_through_cause_witness :
  (exists h1 a h2 b,
     WrapCause heap_C4 1 "x" None = (h1, a) /\
     WrapCause h1 1 "y" (Some a) = (h2, b) /\
     Is 12 h2 a (Some b) = Ok false /\ Is 12 h2 b (Some a) = Ok true) /\
  (exists h1 a h2 b,
     WrapCause heap_C4 1 "x" None = (h1, a) /\
     WrapCause h1 1 "x" (Some 0) = (h2, b) /\
     Is 12 h2 a (Some b) = Ok false /\ Is 12 h2 b (Some a) = Ok false).
Proof.
  split.
  - destruct (siblings_match_only_through_cause heap_C4 1 _ "x" "y" None
                (Some 2) 12 heap_C4_ok eq_refl ltac:(done) ltac:(simpl; lia)
                ltac:(simpl; lia))
      as (h1 & a & h2 & b & H1 & H2 & H3 & _ & _ & H4 & _).
    injection H1 as <- <-.
    eexists _, _, h2, b.
    split; [reflexivity|]. split; [exact H2|]. split; [exact H3|].
    exact (H4 eq_refl).
  - destruct (siblings_match_only_through_cause heap_C4 1 _ "x" "x" None
                (Some 0) 12 heap_C4_ok eq_refl ltac:(done) ltac:(simpl; lia)
                ltac:(simpl; lia))
      as (h1 & a & h2 & b & H1 & H2 & H3 & _ & _ & _ & H4 & _).
    exists h1, a, h2, b.
    split; [exact H1|]. split; [exact H2|]. split; [exact H3|].
    apply H4. simpl. lia.
Defined.

(** X9. [Is(nil)] does not answer false throughout: it is true exactly for
    an error that wraps no error or has no cause. *)
Theorem Is_nil_target (h : heap) (l : loc) (v : ErrorEx) (k : nat) :
  h !! l = Some (ErrorExV v) ->
  Is (3 + k) h l None =
    Ok (bool_decide (err v = None) || bool_decide (cause v = None)) /\
  (err v = None -> Is (3 + k) h l None = Ok true).
Proof.
  intros Hl. change (3 + k) with (S (S (S k))).
  assert (Is (S (S (S k))) h l None =
          Ok (bool_decide (err v = None) || bool_decide (cause v = None))) as H.
  { rewrite Is_S, (deref_Some _ _ _ Hl). simpl.
    rewrite is_S, (deref_Some _ _ _ Hl). simpl.
    rewrite !errors_Is_S.
    destruct (bool_decide (err v = None)); simpl; [done|].
    by rewrite ?errors_Is_S. }
  split; [done|]. intros He. rewrite H.
  by rewrite (bool_decide_eq_true_2 _ He).
Qed.

Lemma Is_nil_target_witness :
  Is 3 heap_C4 0 None = Ok true /\ Is 3 heap_C4 1 None = Ok true /\
  Is 3 heap_C9 2 None = Ok false.
Proof.
  split; [exact (proj2 (Is_nil_target heap_C4 0 _ 0 eq_refl) eq_refl)|].
  split; [exact (proj1 (Is_nil_target heap_C4 1 _ 0 eq_refl))|].
  exact (proj1 (Is_nil_target heap_C9 2 _ 0 eq_refl)).
Defined.

(** ** Data along the chain *)

(** X10. [AnyData] returns the data of the nearest error of the chain that
    has some.  A derivation without data returns what its parent returns,
    although its own [Data] is nil; a derivation with data returns its
    own; an error made by [WrapArgs] from a placeholder with data has no
    data of its own and returns the data of the placeholder. *)
Theorem AnyData_nearest (h : heap) (n : loc) (m : string) (c : error)
  (d : value) (args : list value) (f : nat) :
  closed h -> n < length h ->
  (Part004.AnyData (S f) (WrapCause h n m c).1 (WrapCause h n m c).2 =
     Part004.AnyData f h n /\
   Data (WrapCause h n m c).1 (WrapCause h n m c).2 = Ok None) /\
  (Part004.AnyData (S f) (WrapData h n m None).1 (WrapData h n m None).2 =
     Part004.AnyData f h n) /\
  (Part004.AnyData (S f) (WrapData h n m (Some d)).1
     (WrapData h n m (Some d)).2 = Ok (Some d) /\
   Data (WrapData h n m (Some d)).1 (WrapData h n m (Some d)).2 = Ok (Some d)) /\
  (exists h2 a,
     Part004.WrapArgs (Part004.WrapDataFormat h n m (Some d)).1
       (Part004.WrapDataFormat h n m (Some d)).2 args = Ok (h2, a) /\
     Data h2 a = Ok None /\
     Part004.AnyData (S (S f)) h2 a = Ok (Some d)).
Proof.
  intros Hc Hn.
  assert (forall x t, 
    Part004.AnyData (S f) (h ++ [ErrorExV (mkErrorEx x None (Some n) t false [])])
      (length h) = Part004.AnyData f h n) as HN.
  { intros x t. unfold Part004.AnyData. cbn [Part004.AnyData_loop].
    rewrite lookup_snoc_new. simpl. rewrite lookup_snoc_new. simpl.
    by apply (AnyData_frame _ _ _ Hc (agree_on_snoc h _)). }
  rewrite WrapDataFormat_alloc. unfold WrapCause, WrapData, alloc. simpl.
  split; [split; [apply HN|]|split; [apply HN|split; [split|]]].
  - unfold Data. by rewrite (deref_Some _ _ _ (lookup_snoc_new h _)).
  - unfold Part004.AnyData. cbn [Part004.AnyData_loop].
    by rewrite lookup_snoc_new.
  - unfold Data. by rewrite (deref_Some _ _ _ (lookup_snoc_new h _)).
  - set (P := ErrorExV (mkErrorEx None (Some d) (Some n) m true [])).
    rewrite (Part004_WrapArgs_Some _ _ _ _ (lookup_snoc_new h P)).
    unfold Wrap, alloc. eexists _, _. split; [done|].
    split.
    + unfold Data. by rewrite (deref_Some _ _ _ (lookup_snoc_new (h ++ [P]) _)).
    + unfold Part004.AnyData. cbn [Part004.AnyData_loop].
      rewrite lookup_snoc_new. simpl. rewrite lookup_snoc_new. simpl.
      by rewrite (lookup_snoc_Some _ _ _ _ (lookup_snoc_new h P)).
Qed.

Lemma AnyData_nearest_witness :
  Part004.AnyData 3 (Wrap (WrapData heap_C4 1 "m" (Some (VInt 42))).1 2 "x").1 3 =
    Ok (Some (VInt 42)) /\
  Data (Wrap (WrapData heap_C4 1 "m" (Some (VInt 42))).1 2 "x").1 3 = Ok None.
Proof.
  assert (closed (WrapData heap_C4 1 "m" (Some (VInt 42))).1) as Hc.
  { apply closed_snoc; [apply heap_C4_closed|repeat constructor; simpl; lia|].
    by intros v [= <-]. }
  destruct (AnyData_nearest (WrapData heap_C4 1 "m" (Some (VInt 42))).1 2 "x"
              None (VInt 0) [] 2 Hc ltac:(simpl; lia)) as ((H1 & H2) & _).
  split; [|exact H2].
  etransitivity; [exact H1|reflexivity].
Defined.

(** ** The identity of what src/wrap.go returns *)

Lemma WrapGo_new (E : nat -> heap -> error -> result string) (fuel : nat)
  (h h' : heap) (e : loc) (cause r : error) (message : string) :
  WrapGo.Wrap E fuel h (Some e) message = Ok (h', r) \/
  WrapGo.WrapCause E fuel h (Some e) cause message = Ok (h', r) ->
  r <> Some e ->
  exists msg, h' = h ++ [wrapError msg (Some e)] /\ r = Some (length h).
Proof.
  assert (forall s, WrapGo.Wrap E fuel h (Some e) s = Ok (h', r) ->
            r <> Some e ->
            exists msg, h' = h ++ [wrapError msg (Some e)] /\
                        r = Some (length h)) as HW.
  { intros s. unfold WrapGo.Wrap, WrapGo.Errorf_w, alloc.
    destruct (String.eqb s ""); [by intros [= <- <-]|].
    destruct (handleMethods h (Some e) (E fuel h (Some e))) as [x| |]; simpl; [|done..].
    intros [= <- <-] _. by eexists. }
  intros [H|H] Hr; [by eapply HW|].
  revert H. unfold WrapGo.WrapCause, WrapGo.Errorf_w, alloc.
  destruct cause as [c|].
  - destruct (String.eqb message "");
      (destruct (handleMethods h (Some e) (E fuel h (Some e))) as [x| |]; simpl; [|done..]);
      (destruct (handleMethods h (Some c) (E fuel h (Some c))) as [y| |]; simpl; [|done..]);
      intros [= <- <-]; by eexists.
  - destruct (String.eqb message "") eqn:Hm; [by intros [= <- <-]|].
    intros H. by eapply HW.
Qed.

(** X11. What [Wrap] and [WrapCause] of src/wrap.go make is a new error
    that [errors.Is] matches with itself and with exactly the targets that
    [err] matches: the cause takes part in the message only, and it is
    matched only when [err] matches it.  The heap stays one that the
    constructors build. *)
Theorem wrap_go_identity (E : nat -> heap -> error -> result string)
  (fuel : nat) (h h' : heap) (e : loc) (cause r : error) (message : string) :
  heap_ok h -> closed h -> e < length h -> allocated h cause ->
  WrapGo.Wrap E fuel h (Some e) message = Ok (h', r) \/
  WrapGo.WrapCause E fuel h (Some e) cause message = Ok (h', r) ->
  r <> Some e ->
  kept_by h h' /\ r = Some (length h) /\ errors_Unwrap h' r = Some e /\
  (forall f, errors_Is (S f) h' r r = Ok true) /\
  (forall f t, t < length h ->
     errors_Is (S f) h' r (Some t) = errors_Is f h (Some e) (Some t)) /\
  (forall f c, cause = Some c ->
     errors_Is (S f) h' r cause = errors_Is f h (Some e) cause).
Proof.
  intros Hok Hc He Hca H Hr.
  destruct (WrapGo_new _ _ _ _ _ _ _ _ H Hr) as (msg & -> & ->).
  set (W := wrapError msg (Some e)).
  assert (forall f t, t < length h ->
            errors_Is (S f) (h ++ [W]) (Some (length h)) (Some t) =
            errors_Is f h (Some e) (Some t)) as HI.
  { intros f t Ht. rewrite errors_Is_S.
    rewrite bool_decide_eq_false_2 by lia.
    rewrite lookup_snoc_new. simpl.
    by apply (Is_frame _ _ _ Hc (agree_on_snoc h W)). }
  split.
  { apply alloc_keeps; [done|done|done|by repeat constructor|done]. }
  split; [done|]. split.
  { simpl. by rewrite lookup_snoc_new. }
  split.
  { intros f. rewrite errors_Is_S. by rewrite bool_decide_eq_true_2. }
  split; [exact HI|].
  intros f c ->. by apply HI.
Qed.

Lemma wrap_go_identity_witness :
  exists h' r,
    WrapGo.WrapCause ErrorexGo.error_Error 2 heap_wrap (Some 0) (Some 1)
      "message" = Ok (h', r) /\
    errors_Is 3 h' r (Some 0) = Ok true /\
    errors_Is 3 h' r (Some 1) = Ok false.
Proof.
  assert (heap_ok heap_wrap) as Hok.
  { apply (heap_ok_snoc [_]);
      [apply (heap_ok_snoc []); [apply heap_ok_nil|done|]|done|];
      constructor. }
  assert (closed heap_wrap) as Hc.
  { apply (closed_snoc [_]); [apply (closed_snoc []); [apply closed_nil|..]|..];
      try constructor; done. }
  eexists _, _. split; [reflexivity|].
  destruct (wrap_go_identity ErrorexGo.error_Error 2 heap_wrap _ 0 (Some 1) _
              "message" Hok Hc ltac:(simpl; lia) ltac:(simpl; lia)
              (or_intror eq_refl) ltac:(done)) as (_ & _ & _ & _ & H5 & _).
  split.
  - etransitivity; [exact (H5 2 0 ltac:(simpl; lia))|reflexivity].
  - etransitivity; [exact (H5 2 1 ltac:(simpl; lia))|reflexivity].
Defined.

(** ** The wrap stack of src/errorex.go *)

Lemma ErrorexGo_wrap_stack_ancestors (h : heap) (fuel : nat) :
  forall e acc stk,
    ErrorexGo.wrap_stack fuel h e acc = Ok stk ->
    exists ks ess, stk = acc ++ concat ess /\ ancestors h e ks /\
                   Forall2 (ErrorexGo_entries h) ks ess.
Proof.
  induction fuel as [|f IH]; intros e acc stk; [done|].
  rewrite ErrorexGo_wrap_stack_S.
  destruct e as [l|].
  2:{ intros [= <-]. exists [], []. simpl. rewrite app_nil_r.
      split; [done|]. split; [by constructor|constructor]. }
  destruct (h !! l) as [o|] eqn:Hl.
  2:{ intros [= <-]. exists [], []. simpl. rewrite app_nil_r.
      split; [done|]. split; [|constructor].
      constructor; [intros ?? [= <-]|intros ? [= <-]]; by rewrite Hl. }
  destruct o as [s|msg e'|v|]; [| | |done].
  1,2: intros [= <-]; exists [], []; simpl; rewrite app_nil_r;
       (split; [done|]); (split; [|constructor]);
       (constructor; [intros ?? [= <-]|intros ? [= <-]]); by rewrite Hl.
  destruct (cause v) as [c|] eqn:Hc.
  - destruct (ErrorexGo.error_Error f h (Some c)) as [cs| |] eqn:Hcs;
      simpl; try done.
    intros (ks & ess & -> & Hk & HF)%IH.
    exists (v :: ks), ([cs; txt v] :: ess).
    split; [simpl; by rewrite <- !app_assoc|].
    split; [by eapply ancestors_cons|].
    constructor; [|done].
    apply entries_cause; [congruence|]. exists f. by rewrite Hc.
  - destruct (fmt v) eqn:Hf.
    + intros (ks & ess & -> & Hk & HF)%IH.
      exists (v :: ks), ([] :: ess).
      split; [done|]. split; [by eapply ancestors_cons|].
      constructor; [|done]. by apply entries_placeholder.
    + intros (ks & ess & -> & Hk & HF)%IH.
      exists (v :: ks), ([txt v] :: ess).
      split; [simpl; by rewrite <- !app_assoc|].
      split; [by eapply ancestors_cons|].
      constructor; [|done]. by apply entries_text.
Qed.

Lemma ancestors_ErrorexGo_wrap_stack (h : heap) (e : error) (ks : list ErrorEx) :
  ancestors h e ks ->
  forall ess, Forall2 (ErrorexGo_entries h) ks ess ->
  exists fuel0, forall fuel acc,
    fuel0 <= fuel -> ErrorexGo.wrap_stack fuel h e acc = Ok (acc ++ concat ess).
Proof.
  induction 1 as [e He Hn|l v ks Hl Hk IH]; intros ess HF.
  - inversion HF; subst. exists 1. intros [|f] acc Hf; [lia|].
    rewrite ErrorexGo_wrap_stack_S. simpl. rewrite app_nil_r.
    destruct e as [l|]; [|done].
    destruct (h !! l) as [[s|msg e'|v|]|] eqn:Hl; try done.
    + by destruct (He l v eq_refl).
    + by destruct (Hn l eq_refl).
  - inversion HF as [|? es ? ess' Hentry HF']; subst.
    destruct (IH _ HF') as [fuel0 H0].
    inversion Hentry as [c Hc [fc Hcs]|Hc Hf|Hc Hf]; subst.
    + exists (S (max fuel0 fc)). intros [|f] acc Hf; [lia|].
      rewrite ErrorexGo_wrap_stack_S, Hl.
      destruct (cause v) as [c'|] eqn:Hc'; [|done].
      rewrite (le_res_Ok _ _ _
                 (ErrorexGo_error_Error_mono h fc f (Some c') ltac:(lia)) Hcs).
      simpl. rewrite H0 by lia. by rewrite <- !app_assoc.
    + exists (S fuel0). intros [|f] acc Hf'; [lia|].
      rewrite ErrorexGo_wrap_stack_S, Hl, Hc, Hf. simpl. apply H0. lia.
    + exists (S fuel0). intros [|f] acc Hf'; [lia|].
      rewrite ErrorexGo_wrap_stack_S, Hl, Hc, Hf. simpl.
      rewrite H0 by lia. by rewrite <- !app_assoc.
Qed.

(** X12. The wrap stack of src/errorex.go.  The walk visits every wrapped
    [*ErrorEx] ancestor, nearest first.  An ancestor with a cause
    contributes two entries, the rendered cause and then its own text, also
    when it is a format placeholder or its text is empty; a placeholder
    without a cause contributes nothing; any other ancestor contributes its
    text.  The walk returns that stack whenever the causes render. *)
Theorem ErrorexGo_wrap_stack_entries (h : heap) (e : error) :
  (forall fuel acc stk,
     ErrorexGo.wrap_stack fuel h e acc = Ok stk ->
     exists ks ess, stk = acc ++ concat ess /\ ancestors h e ks /\
                    Forall2 (ErrorexGo_entries h) ks ess) /\
  (forall ks ess,
     ancestors h e ks -> Forall2 (ErrorexGo_entries h) ks ess ->
     exists fuel0, forall fuel acc,
       fuel0 <= fuel ->
       ErrorexGo.wrap_stack fuel h e acc = Ok (acc ++ concat ess)).
Proof.
  split.
  - intros fuel. apply ErrorexGo_wrap_stack_ancestors.
  - intros ks ess Hk HF. by eapply ancestors_ErrorexGo_wrap_stack.
Qed.

Lemma ErrorexGo_wrap_stack_entries_witness :
  exists ks ess,
    ancestors heap_C3 (Some 4) ks /\
    Forall2 (ErrorexGo_entries heap_C3) ks ess /\
    concat ess = [""; "basecause"; "base error"; "base"].
Proof.
  destruct (ErrorexGo_wrap_stack_entries heap_C3 (Some 4)) as [H _].
  destruct (H 8 [] [""; "basecause"; "base error"; "base"] eq_refl)
    as (ks & ess & Hs & Hk & HF).
  exists ks, ess. split; [exact Hk|]. split; [exact HF|by symmetry].
Defined.

(** ** The identity test of the oldest revision *)

Lemma Part004Old_errors_Is_S (f : nat) (h : heap) (e target : error) :
  Part004Old.errors_Is (S f) h e target =
  match target with
  | None => Ok (bool_decide (e = None))
  | Some t =>
    match e with
    | None => Ok false
    | Some l =>
      if bool_decide (l = t) then Ok true
      else
        match h !! l with
        | Some (ErrorExV v) =>
          b ← Part004Old.Is f h l target;
          if b : bool then Ok true else Part004Old.errors_Is f h (err v) target
        | Some (wrapError _ e') => Part004Old.errors_Is f h e' target
        | Some (errorString _) => Ok false
        | Some nilErrorEx => Panic
        | None => Panic
        end
    end
  end.
Proof. done. Qed.

Lemma Part004Old_Is_S (f : nat) (h : heap) (ee : loc) (target : error) :
  Part004Old.Is (S f) h ee target =
  (v ← deref h ee; Part004Old.is_ f h ee target (cause v)).
Proof. done. Qed.

Lemma Part004Old_is_S (f : nat) (h : heap) (ee : loc) (target c : error) :
  Part004Old.is_ (S f) h ee target c =
  (v ← deref h ee;
   if bool_decide (Some ee = target) then Ok true
   else
     match err v with
     | Some p =>
       match h !! p with
       | Some (ErrorExV _) => Part004Old.is_ f h p target c
       | Some nilErrorEx =>
         if bool_decide (Some p = target) then Ok true else Panic
       | Some _ => Part004Old.errors_Is f h c target
       | None => Panic
       end
     | None => Part004Old.errors_Is f h c target
     end).
Proof. done. Qed.

#[local] Arguments Part004Old.errors_Is : simpl never.
#[local] Arguments Part004Old.Is : simpl never.
#[local] Arguments Part004Old.is_ : simpl never.

Lemma Part004Old_sound (h : heap) (fuel : nat) :
  (forall e t, Part004Old.errors_Is fuel h e t = Ok true -> Matches h e t) /\
  (forall l t, Part004Old.Is fuel h l t = Ok true -> Matches h (Some l) t) /\
  (forall l t c, Part004Old.is_ fuel h l t c = Ok true ->
     Matches h (Some l) t \/ Matches h c t).
Proof.
  induction fuel as [|f (IHe & IHI & IHi)]; [by repeat split|].
  split; [|split].
  - intros e t. rewrite Part004Old_errors_Is_S.
    destruct t as [t|].
    + destruct e as [l|]; [|done].
      case_bool_decide as Hlt; [subst; intros _; constructor|].
      destruct (h !! l) as [[s|msg e'|v|]|] eqn:Hl; try done.
      * intros H. eapply Matches_unwrap; eauto.
      * destruct (Part004Old.Is f h l (Some t)) as [[|]| |] eqn:HI;
          simpl; try done.
        -- intros _. by apply IHI.
        -- intros H. eapply Matches_err; eauto.
    + intros [= H]. apply bool_decide_eq_true in H. subst. constructor.
  - intros l t. rewrite Part004Old_Is_S. unfold deref.
    destruct (h !! l) as [[s|msg e'|v|]|] eqn:Hl; simpl; try done.
    intros H. destruct (IHi _ _ _ H) as [|Hc]; [done|].
    eapply Matches_cause; eauto.
  - intros l t c. rewrite Part004Old_is_S. unfold deref.
    destruct (h !! l) as [[s|msg e'|v|]|] eqn:Hl; simpl; try done.
    case_bool_decide as Hlt; simpl.
    + intros _. left. subst. constructor.
    + destruct (err v) as [p|] eqn:Hp.
      * destruct (h !! p) as [[s|msg e'|vp|]|] eqn:Hlp; try done.
        -- intros H. right. by apply IHe.
        -- intros H. right. by apply IHe.
        -- intros H. destruct (IHi _ _ _ H) as [HM|HM]; [left|by right].
           eapply Matches_err; [done|]. by rewrite Hp.
        -- case_bool_decide as Hpt; [|done]. intros _. left. subst t.
           eapply Matches_err; [done|]. rewrite Hp. constructor.
      * intros H. right. by apply IHe.
Qed.

(** X13. The identity test of the oldest revision answers true only where
    that of src/errorex.go does.  The converse fails: the oldest revision
    hands only the cause of the error it is asked about to [errors.Is],
    and so does not match the cause of an ancestor. *)
Theorem Part004Old_Is_weaker (h : heap) (l : loc) (v : ErrorEx) (t : loc)
  (fuel fuel' : nat) :
  heap_ok h -> h !! l = Some (ErrorExV v) -> 3 * l + 3 <= fuel' ->
  (Part004Old.Is fuel h l (Some t) = Ok true -> Is fuel' h l (Some t) = Ok true) /\
  Part004Old.Is 9 heap_C9 3 (Some 1) = Ok false /\
  Is 9 heap_C9 3 (Some 1) = Ok true /\
  Part004Old.Is 9 heap_C9 2 (Some 1) = Ok true.
Proof.
  intros Hok Hl Hf. split; [|by repeat split].
  intros H. apply (proj1 (proj2 (Part004Old_sound h fuel))) in H.
  destruct (Is_complete id h l v t fuel' Hok Hl Hf) as (b & Hb & Hm).
  by rewrite Hb, (Hm H).
Qed.

Lemma Part004Old_Is_weaker_witness :
  Part004Old.Is 9 heap_C4 1 (Some 0) = Ok true /\
  Is 9 heap_C4 1 (Some 0) = Ok true.
Proof.
  split; [reflexivity|].
  exact (proj1 (Part004Old_Is_weaker heap_C4 1 _ 0 9 9 heap_C4_ok eq_refl
                  ltac:(lia)) eq_refl).
Defined.

(** ** The rendering of the oldest revision *)

Lemma Part004Old_has_data (v : ErrorEx) : data v = None -> Part004Old.has_data v = false.
Proof. unfold Part004Old.has_data. by intros ->. Qed.

(** X14. Where no error carries data or extra errors, [Error] of the
    oldest revision returns what [Error] of src/errorex.go returns.  They
    differ on an error with data, whose text the oldest revision leaves
    out: [New("a").WrapData("m", 1)] renders as ["a: "] there and as
    ["a: m"] in src/errorex.go. *)
Theorem Part004Old_Error_agrees (h : heap) :
  ((forall l v, h !! l = Some (ErrorExV v) -> data v = None /\ extra v = []) ->
   forall fuel l, Part004Old.Error fuel h l = ErrorexGo.Error fuel h l) /\
  Part004Old.Error 3 (WrapData (New [] "a").1 0 "m" (Some (VInt 1))).1 1 =
    Ok "a: " /\
  ErrorexGo.Error 3 (WrapData (New [] "a").1 0 "m" (Some (VInt 1))).1 1 =
    Ok "a: m".
Proof.
  split; [|by split].
  intros Hh.
  assert (forall fuel,
    (forall e, Part004Old.error_Error fuel h e = ErrorexGo.error_Error fuel h e) /\
    (forall l, Part004Old.Error fuel h l = ErrorexGo.Error fuel h l) /\
    (forall e acc, Part004Old.wrap_stack fuel h e acc =
                   ErrorexGo.wrap_stack fuel h e acc)) as H.
  { induction fuel as [|f (IHe & IHE & IHw)]; [done|].
    split; [|split].
    - intros [l|]; [|done]. rewrite ErrorexGo_error_Error_S.
      cbn [Part004Old.error_Error].
      destruct (h !! l) as [[s|msg e'|v|]|]; [done|done|apply IHE|done|done].
    - intros l. rewrite ErrorexGo_Error_S. cbn [Part004Old.Error].
      destruct (deref h l) as [v| |] eqn:Hv; [|done|done]. simpl.
      destruct (Hh _ _ (deref_Ok _ _ _ Hv)) as [Hd Hx].
      assert (Part004Old.base_message h (Part004Old.error_Error f h) v =
              ErrorexGo.base_message h (ErrorexGo.error_Error f h) v) as ->.
      { unfold Part004Old.base_message, ErrorexGo.base_message.
        rewrite (Part004Old_has_data _ Hd), orb_false_r.
        destruct (cause v); [|done]. by rewrite IHe. }
      destruct (ErrorexGo.base_message h (ErrorexGo.error_Error f h) v);
        simpl; [|done|done].
      rewrite IHw.
      destruct (ErrorexGo.wrap_stack f h (err v) []); simpl; [|done|done].
      by rewrite Hx.
    - intros [l|] acc; [|done]. rewrite ErrorexGo_wrap_stack_S.
      cbn [Part004Old.wrap_stack].
      destruct (h !! l) as [[s|msg e'|v|]|] eqn:Hl; [done|done| |done|done].
      destruct (Hh _ _ Hl) as [Hd Hx].
      rewrite (Part004Old_has_data _ Hd), orb_false_r.
      destruct (cause v) as [c|].
      + rewrite IHe.
        destruct (ErrorexGo.error_Error f h (Some c)); simpl; [|done|done].
        apply IHw.
      + destruct (fmt v); apply IHw. }
  intros fuel l. apply H.
Qed.

Lemma Part004Old_Error_agrees_witness :
  Part004Old.Error 9 heap_C3 5 = ErrorexGo.Error 9 heap_C3 5 /\
  Part004Old.Error 9 heap_C3 5 = Ok "base: base error; basecause;  > head".
Proof.
  split; [|reflexivity].
  apply (proj1 (Part004Old_Error_agrees heap_C3)).
  intros l v Hl.
  repeat (destruct l as [|l]; [injection Hl as <-; by split|]).
  done.
Defined.

(** ** Panics while rendering *)

(** X15. A panic of the [Error] method of a cause is recovered where the
    cause belongs to the error that is rendered: fmt puts a description of
    the panic in the place of the cause (["<nil>"] when the cause is a nil
    pointer).  Where the cause belongs to a wrapped ancestor,
    src/errorex.go calls its [Error] method directly and the panic is not
    recovered. *)
Theorem cause_panic (h : heap) (l c : loc) (v : ErrorEx) (f : nat) :
  h !! l = Some (ErrorExV v) -> cause v = Some c ->
  (ErrorexGo.error_Error f h (Some c) = Panic ->
   ErrorexGo.Error (S f) h l =
     (stack ← ErrorexGo.wrap_stack f h (err v) [];
      range_extra (ErrorexGo.error_Error f h) "; " (extra v)
        (ErrorexGo.format_stack stack
           ((if fmt v then "" else txt v) +:+ " < " +:+
            (if is_nilErrorEx h (Some c) then nilAngleString
             else panicString)))) /\
   (forall acc, ErrorexGo.wrap_stack (S f) h (Some l) acc = Panic) /\
   (forall a va, h !! a = Some (ErrorExV va) -> err va = Some l ->
      cause va = None -> ErrorexGo.Error (S (S f)) h a = Panic)) /\
  (Part004.error_Error f h (Some c) = Panic -> txt v <> "" ->
   Part004.Error (S f) h l =
     (stack ← Part004.wrap_stack f h (err v) [];
      x ← Part004.extrastring (Part004.error_Error f h) v;
      Ok (Part004.format_stack stack
            ((if negb (fmt v) then txt v else "") +:+ " < " +:+
             (if is_nilErrorEx h (Some c) then nilAngleString
              else panicString))
          +:+ x))).
Proof.
  intros Hl Hc. split.
  - intros Hp.
    assert (forall acc, ErrorexGo.wrap_stack (S f) h (Some l) acc = Panic) as HW.
    { intros acc. rewrite ErrorexGo_wrap_stack_S, Hl, Hc. by rewrite Hp. }
    split; [|split; [exact HW|]].
    + rewrite ErrorexGo_Error_S, (deref_Some _ _ _ Hl). simpl.
      unfold ErrorexGo.base_message. rewrite Hc, Hp. simpl. by destruct (fmt v).
    + intros a va Ha He Hca.
      rewrite ErrorexGo_Error_S, (deref_Some _ _ _ Ha). simpl.
      unfold ErrorexGo.base_message. rewrite Hca, He. simpl. by rewrite HW.
  - intros Hp Ht.
    rewrite Part004_Error_S, (deref_Some _ _ _ Hl). simpl.
    unfold Part004.base_message. rewrite (eqb_nonempty _ Ht), Hc, Hp. simpl.
    done.
Qed.

Lemma cause_panic_witness :
  let h := heap_nil_extra ++
           [ErrorExV (mkErrorEx (Some 0) None None "m" false []);
            ErrorExV (mkErrorEx None None (Some 1) "d" false [])] in
  ErrorexGo.Error 4 h 1 = Ok ("m < " +:+ panicString) /\
  ErrorexGo.Error 5 h 2 = Panic.
Proof.
  simpl.
  destruct (cause_panic
              (heap_nil_extra ++
               [ErrorExV (mkErrorEx (Some 0) None None "m" false []);
                ErrorExV (mkErrorEx None None (Some 1) "d" false [])])
              1 0 _ 3 eq_refl eq_refl) as [H _].
  destruct (H eq_refl) as (H1 & _ & H3).
  split.
  - etransitivity; [exact H1|reflexivity].
  - exact (H3 2 _ eq_refl eq_refl eq_refl).
Defined.

(** X16. [Wrap] and [WrapCause] of src/wrap.go never panic: the messages
    are made by fmt, which recovers a panic of an [Error] method and puts
    its description in the place of the text (["<nil>"] when the operand
    is a nil pointer). *)
Theorem wrap_go_never_panics (E : nat -> heap -> error -> result string)
  (fuel : nat) (h : heap) (e cause : error) (message : string) :
  WrapGo.Wrap E fuel h e message <> Panic /\
  WrapGo.WrapCause E fuel h e cause message <> Panic /\
  (e <> None -> message <> "" -> E fuel h e = Panic ->
   WrapGo.Wrap E fuel h e message =
     Ok (h ++ [wrapError ((if is_nilErrorEx h e then nilAngleString
                           else panicString) +:+ ": " +:+ message) e],
         Some (length h))) /\
  (e <> None -> E fuel h e <> OutOfFuel ->
   (cause <> None -> E fuel h cause <> OutOfFuel) ->
   exists r, WrapGo.WrapCause E fuel h e cause message = Ok r).
Proof.
  assert (forall s, WrapGo.Wrap E fuel h e s <> Panic) as HW.
  { intros s. unfold WrapGo.Wrap. destruct e as [l|]; [|done].
    destruct (String.eqb s ""); [done|].
    by destruct (E fuel h (Some l)). }
  split; [apply HW|]. split; [|split].
  - unfold WrapGo.WrapCause. destruct e as [l|]; [|done].
    destruct cause as [c|].
    + destruct (String.eqb message "");
        by destruct (E fuel h (Some l)), (E fuel h (Some c)).
    + destruct (String.eqb message ""); [done|apply HW].
  - intros He Hm Hp. unfold WrapGo.Wrap. destruct e as [l|]; [|done].
    by rewrite (eqb_nonempty _ Hm), Hp.
  - intros He HE HC. unfold WrapGo.WrapCause, WrapGo.Wrap.
    destruct e as [l|]; [|done].
    destruct cause as [c|].
    + specialize (HC ltac:(done)).
      destruct (String.eqb message "");
        destruct (E fuel h (Some l)), (E fuel h (Some c)); simpl;
        try done; by eexists.
    + destruct (String.eqb message ""); [by eexists|].
      destruct (E fuel h (Some l)); simpl; try done; by eexists.
Qed.

Lemma wrap_go_never_panics_witness :
  WrapGo.Wrap ErrorexGo.error_Error 3 heap_nil_extra (Some 0) "m" =
    Ok (heap_nil_extra ++ [wrapError (panicString +:+ ": m") (Some 0)], Some 1) /\
  exists r, WrapGo.WrapCause ErrorexGo.error_Error 2 heap_wrap (Some 0) (Some 1)
              "m" = Ok r.
Proof.
  split.
  - exact (proj1 (proj2 (proj2 (wrap_go_never_panics ErrorexGo.error_Error 3
             heap_nil_extra (Some 0) None "m"))) ltac:(done) ltac:(done) eq_refl).
  - exact (proj2 (proj2 (proj2 (wrap_go_never_panics ErrorexGo.error_Error 2
             heap_wrap (Some 0) (Some 1) "m"))) ltac:(done) ltac:(done)
             ltac:(done)).
Defined.
